(** * calc-sqrt: square roots by continued fractions over exact rationals

    A shallow embedding of [sqrt.py] (Python 2): the helpers [gcd] and [lcm],
    the class [Ratio] and its test cases, the function [precSqrt] and the
    prompt loop of [main].

    Python integers are unbounded, so they are [Z]; on integers Python 2's
    [/] is floor division and [%] takes the sign of the divisor, which are
    [Z.div] and [Z.modulo].  Floating point ([math.sqrt], [math.floor],
    [float]) is IEEE 754 binary64 as specified by the standard library's
    [SpecFloat].  [Ratio] objects live in a store, because [Ratio.rec]
    mutates its receiver. *)

From Stdlib Require Import ZArith Lia Bool List String Ascii QArith.
From Stdlib Require Import Floats.SpecFloat.
From Stdlib Require Import DecimalString Qabs.
From Stdlib Require DecimalFacts DecimalPos DecimalN DecimalZ.
From stdpp Require Import base list.

Local Open Scope Z_scope.

(** ** Exceptions and results *)

Inductive exn : Type :=
| ZeroDivisionError   (* integer division or modulo by zero *)
| ValueError          (* math domain error *)
| OverflowError       (* long int too large to convert to float *)
| IndexError          (* list index out of range *)
| ReferenceError.     (* a reference that names no object of the store *)

(** The outcome of running a piece of the program: a value, a raised
    exception, or [OutOfFuel] when the round budget given to a [while]
    loop is used up before the loop is left. *)
Inductive result (A : Type) : Type :=
| Ok (x : A)
| Raise (e : exn)
| OutOfFuel.

Arguments Ok {A} x.
Arguments Raise {A} e.
Arguments OutOfFuel {A}.

Global Instance result_ret : MRet result := fun _ x => Ok x.
Global Instance result_bind : MBind result := fun _ _ k r =>
  match r with
  | Ok x => k x
  | Raise e => Raise e
  | OutOfFuel => OutOfFuel
  end.

(** ** Integer arithmetic of Python 2 *)

(** [a / b] on integers. *)
Definition py_div (a b : Z) : result Z :=
  if b =? 0 then Raise ZeroDivisionError else Ok (a / b).

(** ** [gcd] and [lcm] *)

(** The loop of [gcd], run for at most [budget] iterations:
    [while n != 0: r = m % n; m = n; n = r].  The budget is a binary
    number, so that a budget as large as [|n|] costs nothing to build. *)
Fixpoint gcd_loop (budget : positive) (m n : Z) : Z * Z :=
  if n =? 0 then (m, n)
  else
    match budget with
    | xH => (n, m mod n)
    | xO b => let '(m1, n1) := gcd_loop b m n in gcd_loop b m1 n1
    | xI b => let '(m1, n1) := gcd_loop b n (m mod n) in gcd_loop b m1 n1
    end.

(** [gcd(m, n)]: [|n|] decreases in every iteration, so [|n|] iterations
    are enough (see [gcd_loop_done]). *)
Definition gcd (m n : Z) : Z := fst (gcd_loop (Z.to_pos (Z.abs n)) m n).

(** [lcm(a, b) = abs(a * b) / gcd(a, b)]. *)
Definition lcm (a b : Z) : result Z := py_div (Z.abs (a * b)) (gcd a b).

(** ** The class [Ratio], on values *)

Record Ratio : Type := mkRatio { num : Z; den : Z }.

(** [Ratio.__add__]. *)
Definition Ratio_add (self other : Ratio) : result Ratio :=
  lcd ← lcm (den self) (den other);
  x ← py_div (num self * lcd) (den self);
  y ← py_div (num other * lcd) (den other);
  Ok (mkRatio (x + y) lcd).

(** [Ratio.__sub__]. *)
Definition Ratio_sub (self other : Ratio) : result Ratio :=
  Ratio_add self (mkRatio (- num other) (den other)).

(** [Ratio.__eq__]. *)
Definition Ratio_eq (self other : Ratio) : result bool :=
  lcd ← lcm (den self) (den other);
  x ← py_div (num self * lcd) (den self);
  y ← py_div (num other * lcd) (den other);
  Ok (x =? y).

(** [Ratio.__lt__]. *)
Definition Ratio_lt (self other : Ratio) : result bool :=
  lcd ← lcm (den self) (den other);
  x ← py_div (num self * lcd) (den self);
  y ← py_div (num other * lcd) (den other);
  Ok (x <? y).

(** [Ratio.__abs__]. *)
Definition Ratio_abs (self : Ratio) : Ratio :=
  mkRatio (Z.abs (num self)) (Z.abs (den self)).

(** What [Ratio.rec] leaves in the fields of its receiver:
    [self.num, self.den = self.den, self.num]. *)
Definition Ratio_rec (self : Ratio) : Ratio :=
  mkRatio (den self) (num self).

(** ** Floating point: [float], [math.sqrt], [math.floor], [int] *)

(** A Python float is an IEEE 754 binary64 number. *)
Definition prec : Z := 53.
Definition emax : Z := 1024.

(** The conversion of an integer argument to a float (round to nearest,
    ties to even); an integer that rounds beyond the largest float raises
    [OverflowError]. *)
Definition float_of_int (n : Z) : result spec_float :=
  match binary_normalize prec emax n 0 false with
  | S754_infinity _ => Raise OverflowError
  | x => Ok x
  end.

(** [math.sqrt(n)] for an integer [n]: a negative argument is a math
    domain error. *)
Definition math_sqrt (n : Z) : result spec_float :=
  x ← float_of_int n;
  match x with
  | S754_finite true _ _ => Raise ValueError
  | _ => Ok (SFsqrt prec emax x)
  end.

(** The integer [floor] of a float. *)
Definition floor_Z (x : spec_float) : Z :=
  match x with
  | S754_finite s m e =>
      let v := cond_Zopp s (Zpos m) in
      if 0 <=? e then v * 2 ^ e else v / 2 ^ (- e)
  | _ => 0
  end.

(** [math.floor(x)]: in Python 2 the result is again a float. *)
Definition math_floor (x : spec_float) : spec_float :=
  match x with
  | S754_finite s _ _ => binary_normalize prec emax (floor_Z x) 0 s
  | _ => x
  end.

(** [int(x)] for a float [x]: truncation toward zero. *)
Definition int_of_float (x : spec_float) : result Z :=
  match x with
  | S754_zero _ => Ok 0
  | S754_finite s m e =>
      let v := cond_Zopp s (Zpos m) in
      Ok (if 0 <=? e then v * 2 ^ e else Z.quot v (2 ^ (- e)))
  | S754_infinity _ => Raise OverflowError
  | S754_nan => Raise ValueError
  end.

(** [x == k] for a float [x] and an integer [k]: Python compares the two
    exactly. *)
Definition float_eq_int (x : spec_float) (k : Z) : bool :=
  match x with
  | S754_zero _ => k =? 0
  | S754_finite s m e =>
      let v := cond_Zopp s (Zpos m) in
      if 0 <=? e then v * 2 ^ e =? k
      else (v mod 2 ^ (- e) =? 0) && (v / 2 ^ (- e) =? k)
  | _ => false
  end.

(** ** Strings *)

(** [str(z)] for an integer. *)
Definition str (z : Z) : string := NilZero.string_of_int (Z.to_int z).

Definition len (s : string) : Z := Z.of_nat (String.length s).

(** The position a slice bound [k] denotes in a sequence of length [n]:
    a negative bound counts from the end, and bounds are clamped. *)
Definition slice_bound (n k : Z) : nat :=
  Z.to_nat (if k <? 0 then Z.max 0 (k + n) else Z.min k n).

(** [s[:k]] and [s[k:]]. *)
Definition slice_to (s : string) (k : Z) : string :=
  substring 0 (slice_bound (len s) k) s.

Definition slice_from (s : string) (k : Z) : string :=
  let i := slice_bound (len s) k in
  substring i (String.length s - i) s.

(** [int('1' + '0' * k)]: a string repeated [k <= 0] times is empty. *)
Definition one_and_zeros (k : Z) : Z := 10 ^ Z.max 0 k.

(** ** The store of [Ratio] objects *)

(** A reference is the position of the object in the store; [Ratio(...)]
    puts a new object at the end. *)
Abbreviation ref := nat (only parsing).
Abbreviation store := (list Ratio) (only parsing).

Definition prog (A : Type) : Type := store -> result (A * store).

Global Instance prog_ret : MRet prog := fun _ x σ => Ok (x, σ).
Global Instance prog_bind : MBind prog := fun _ _ k p σ =>
  match p σ with
  | Ok (x, σ') => k x σ'
  | Raise e => Raise e
  | OutOfFuel => OutOfFuel
  end.

Definition lift {A : Type} (r : result A) : prog A := fun σ =>
  match r with
  | Ok x => Ok (x, σ)
  | Raise e => Raise e
  | OutOfFuel => OutOfFuel
  end.

(** [Ratio(num, den)]. *)
Definition new_Ratio (n d : Z) : prog ref := fun σ =>
  Ok (length σ, σ ++ [mkRatio n d]).

(** Reading the fields of an object. *)
Definition get (r : ref) : prog Ratio := fun σ =>
  match σ !! r with
  | Some v => Ok (v, σ)
  | None => Raise ReferenceError
  end.

(** [r.num = v] and [r.den = v]. *)
Definition set_num (r : ref) (v : Z) : prog unit := fun σ =>
  match σ !! r with
  | Some o => Ok (tt, <[r := mkRatio v (den o)]> σ)
  | None => Raise ReferenceError
  end.

Definition set_den (r : ref) (v : Z) : prog unit := fun σ =>
  match σ !! r with
  | Some o => Ok (tt, <[r := mkRatio (num o) v]> σ)
  | None => Raise ReferenceError
  end.

(** The methods of [Ratio], on references. *)
Module RatioObj.

Definition add (self other : ref) : prog ref :=
  s ← get self;
  o ← get other;
  v ← lift (Ratio_add s o);
  new_Ratio (num v) (den v).

Definition sub (self other : ref) : prog ref :=
  o ← get other;
  t ← new_Ratio (- num o) (den o);
  add self t.

Definition lt (self other : ref) : prog bool :=
  s ← get self;
  o ← get other;
  lift (Ratio_lt s o).

Definition eq (self other : ref) : prog bool :=
  s ← get self;
  o ← get other;
  lift (Ratio_eq s o).

Definition abs (self : ref) : prog ref :=
  s ← get self;
  new_Ratio (Z.abs (num s)) (Z.abs (den s)).

(** [self.num, self.den = self.den, self.num]: the right-hand side is
    read first, then the two fields are written. *)
Definition rec (self : ref) : prog unit :=
  s ← get self;
  _ ← set_num self (den s);
  set_den self (num s).

End RatioObj.

(** ** [precSqrt] *)

(** [a[i]] for [0 <= i], and [a[-1]]. *)
Definition index (a : list Z) (i : nat) : result Z :=
  match a !! i with
  | Some x => Ok x
  | None => Raise IndexError
  end.

Definition index_last (a : list Z) : result Z :=
  match last a with
  | Some x => Ok x
  | None => Raise IndexError
  end.

(** [int(floor(q))] for an integer [q]: [math.floor] first converts its
    argument to a float. *)
Definition int_floor_int (q : Z) : result Z :=
  x ← float_of_int q;
  int_of_float (math_floor x).

(** The inner [for] loop of [precSqrt], over the indices [idx]:
    [c.rec(); c += Ratio(a[i])].  [Ratio] has no [__iadd__], so [+=]
    binds [c] to the new object made by [__add__]. *)
Fixpoint fold_convergent (a : list Z) (idx : list nat) (c : ref) : prog ref :=
  match idx with
  | [] => mret c
  | i :: idx' =>
      _ ← RatioObj.rec c;
      ai ← lift (index a i);
      t ← new_Ratio ai 1;
      c' ← RatioObj.add c t;
      fold_convergent a idx' c'
  end.

(** [reversed(range(k))]. *)
Definition reversed_range (k : nat) : list nat := rev (seq 0 k).

(** The variables of [precSqrt] that live across rounds of the loop. *)
Record vars : Type := mkVars {
  v_m : Z;
  v_d : Z;
  v_a : list Z;
  v_pc : option ref      (* [None] or the snapshot object *)
}.

(** The test [pc != None and abs(c - pc) < Ratio(1, int('1' + '0' * (dig + 1)))]. *)
Definition converged (dig : Z) (pc : option ref) (c : ref) : prog bool :=
  match pc with
  | None => mret false
  | Some p =>
      diff ← RatioObj.sub c p;
      ab ← RatioObj.abs diff;
      tol ← new_Ratio 1 (one_and_zeros (dig + 1));
      RatioObj.lt ab tol
  end.

(** Lines 141 to 143: the new [m], [d] and [a]. *)
Definition advance (n : Z) (m d : Z) (a : list Z) : result (Z * Z * list Z) :=
  l ← index_last a;
  let m := d * l - m in
  d ← py_div (n - m ^ 2) d;
  a0 ← index a 0;
  q ← py_div (a0 + m) d;
  t ← int_floor_int q;
  Ok (m, d, a ++ [t]).

(** Lines 145 to 148: the current approximation [c], rebuilt from [a]. *)
Definition convergent (a : list Z) : prog ref :=
  l ← lift (index_last a);
  c ← new_Ratio l 1;
  fold_convergent a (reversed_range (length a - 1)) c.

(** Lines 152 to 154: [pc = Ratio(0); pc.num = c.num; pc.den = c.den]. *)
Definition snapshot (c : ref) : prog ref :=
  pc ← new_Ratio 0 1;
  cv ← get c;
  _ ← set_num pc (num cv);
  cv ← get c;
  _ ← set_den pc (den cv);
  mret pc.

(** One round of the [while True] loop: [inr c] when the loop is left by
    [break] with the convergent [c], [inl v] when it goes on with the
    variables [v]. *)
Definition round (n dig : Z) (v : vars) : prog (vars + ref) :=
  '(m, d, a) ← lift (advance n (v_m v) (v_d v) (v_a v));
  c ← convergent a;
  stop ← converged dig (v_pc v) c;
  if stop : bool then mret (inr c)
  else
    pc ← snapshot c;
    mret (inl (mkVars m d a (Some pc))).

(** The [while True] loop, for at most [fuel] rounds. *)
Fixpoint loop (fuel : nat) (n dig : Z) (v : vars) : prog ref :=
  match fuel with
  | O => fun _ => OutOfFuel
  | S fuel' =>
      r ← round n dig v;
      match r with
      | inr c => mret c
      | inl v' => loop fuel' n dig v'
      end
  end.

(** The last two lines of [precSqrt], on the scaled integer. *)
Definition render (scaled dig : Z) : string :=
  let s := str scaled in
  String.append (slice_to s (- dig)) (String.append "." (slice_from s (- dig))).

(** The body of [precSqrt(n, dig)]. *)
Definition precSqrt_body (fuel : nat) (n dig : Z) : prog string :=
  x ← lift (math_sqrt n);
  a0 ← lift (int_of_float (math_floor x));
  y ← lift (math_sqrt n);
  if float_eq_int y a0 then mret (str a0)
  else
    c ← loop fuel n dig (mkVars 0 1 [a0] None);
    cv ← get c;
    scaled ← lift (py_div (num cv * one_and_zeros dig) (den cv));
    mret (render scaled dig).

(** A call [precSqrt(n, dig)]: the objects it makes are its own. *)
Definition precSqrt (fuel : nat) (n dig : Z) : result string :=
  match precSqrt_body fuel n dig [] with
  | Ok (s, _) => Ok s
  | Raise e => Raise e
  | OutOfFuel => OutOfFuel
  end.

(** ** One turn of the prompt loop of [main] *)

(** What one turn prints for the integers [n] and [dig] that [input()]
    returned. *)
Definition main_turn (fuel : nat) (n dig : Z) : result string :=
  if dig <? 1 then
    Ok "Error: number of digits of precision must be at least 1."%string
  else precSqrt fuel n dig.


(** ** [Ratio.__str__] *)

(** [s + ("%d/%d" % (abs(self.num), abs(self.den)))], where [s] is ["-"]
    when the product of the two fields is negative. *)
Definition Ratio_str (self : Ratio) : string :=
  let s := if num self * den self <? 0 then "-"%string else ""%string in
  String.append s
    (String.append (str (Z.abs (num self)))
       (String.append "/" (str (Z.abs (den self))))).

(** [str(r)] for an object [r]. *)
Definition str_of (self : ref) : prog string :=
  s ← get self;
  mret (Ratio_str s).

(** ** The strings of lines 150 and 155 *)

(** [s * k]: [k] copies of [s], none when [k <= 0]. *)
Definition str_repeat (s : string) (k : Z) : string :=
  Nat.iter (Z.to_nat k) (String.append s) ""%string.

(** [int(s)] for a string [s] of decimal digits, which is what lines 150
    and 155 pass; [None] for every other string: those are not modelled. *)
Definition int_of_str (s : string) : option Z :=
  match s with
  | EmptyString => None
  | _ => option_map (fun d => Z.of_N (N.of_uint d)) (NilZero.uint_of_string s)
  end.

(** ** The test cases of [RatioTest] *)

Module RatioTest.

(** [self.assertTrue(b)] followed by the rest of the test method: a failed
    assertion abandons the method, which then has failed ([false]); a
    method that runs to its end has passed ([true]). *)
Definition assertTrue (b : bool) (rest : prog bool) : prog bool :=
  if b then rest else mret false.

Definition test_add : prog bool :=
  R1 ← new_Ratio 1 3;
  R2 ← new_Ratio 2 3;
  R3 ← RatioObj.add R1 R2;
  v ← get R3;
  assertTrue (num v =? 3) (
  v ← get R3;
  assertTrue (den v =? 3) (
  x ← RatioObj.add R1 R2;
  y ← new_Ratio 3 3;
  b ← RatioObj.eq x y;
  assertTrue b (
  x ← new_Ratio 1 1;
  y ← new_Ratio 1 2;
  s ← RatioObj.add x y;
  z ← new_Ratio 3 2;
  b ← RatioObj.eq s z;
  assertTrue b (mret true)))).

(** [assertTrue(Ratio(a, b) - Ratio(c, d) == Ratio(e, f))]. *)
Definition assert_sub (a b c d e f : Z) (rest : prog bool) : prog bool :=
  x ← new_Ratio a b;
  y ← new_Ratio c d;
  s ← RatioObj.sub x y;
  z ← new_Ratio e f;
  t ← RatioObj.eq s z;
  assertTrue t rest.

Definition test_sub : prog bool :=
  assert_sub 1 1 1 2 1 2 (
  assert_sub 5 4 3 4 1 2 (
  assert_sub 3 1 2 1 1 1 (mret true))).

(** [assertTrue(Ratio(a, b) == Ratio(c, d))] and
    [assertTrue(Ratio(a, b) < Ratio(c, d))]. *)
Definition assert_eq (a b c d : Z) (rest : prog bool) : prog bool :=
  x ← new_Ratio a b;
  y ← new_Ratio c d;
  t ← RatioObj.eq x y;
  assertTrue t rest.

Definition assert_lt (a b c d : Z) (rest : prog bool) : prog bool :=
  x ← new_Ratio a b;
  y ← new_Ratio c d;
  t ← RatioObj.lt x y;
  assertTrue t rest.

Definition test_eq : prog bool :=
  assert_eq 5 4 15 12 (
  assert_eq (-5) 4 5 (-4) (
  assert_eq 2 3 2 3 (mret true))).

Definition test_lt : prog bool :=
  assert_lt 500 400 3 1 (
  assert_lt 1 (-3) 1 3 (
  assert_lt 1 3 1 2 (mret true))).

Definition test_str : prog bool :=
  x ← new_Ratio 5 4;
  s ← str_of x;
  assertTrue (String.eqb s "5/4") (
  x ← new_Ratio 1 (-2);
  s ← str_of x;
  assertTrue (String.eqb s "-1/2") (mret true)).

(** [assertTrue(abs(Ratio(a, b)) == Ratio(c, d))]. *)
Definition assert_abs (a b c d : Z) (rest : prog bool) : prog bool :=
  x ← new_Ratio a b;
  y ← RatioObj.abs x;
  z ← new_Ratio c d;
  t ← RatioObj.eq y z;
  assertTrue t rest.

Definition test_abs : prog bool :=
  assert_abs 1 5 1 5 (
  assert_abs 1 (-5) 1 5 (mret true)).

(** [R = Ratio(a, b); R.rec(); assertTrue(R == Ratio(c, d))]. *)
Definition assert_rec (a b c d : Z) (rest : prog bool) : prog bool :=
  R ← new_Ratio a b;
  _ ← RatioObj.rec R;
  z ← new_Ratio c d;
  t ← RatioObj.eq R z;
  assertTrue t rest.

Definition test_rec : prog bool :=
  assert_rec 1 2 2 1 (
  assert_rec (-3) 5 5 (-3) (mret true)).

(** The test methods, each on objects of its own. *)
Definition tests : list (prog bool) :=
  [test_add; test_sub; test_eq; test_lt; test_str; test_abs; test_rec].

End RatioTest.

(** ** The prompt loop of [main] *)

(** How a session ends: an exception that nothing catches, the end of the
    input at a prompt, or the round budget of a call of [precSqrt] used
    up. *)
Inductive ending : Type :=
| Uncaught (e : exn)
| EndOfInput
| RoundsUsedUp.

(** [main()] on the integers that the calls of [input()] return, two for
    every turn of the loop: the lines it prints with [print], in order, and
    how the session ends.  The test [n != int(n) or dig != int(dig)] of
    line 166 is false for integers. *)
Fixpoint main (fuel : nat) (inputs : list Z) : list string * ending :=
  match inputs with
  | n :: dig :: inputs' =>
      match main_turn fuel n dig with
      | Ok line => let '(out, e) := main fuel inputs' in (line :: out, e)
      | Raise e => ([], Uncaught e)
      | OutOfFuel => ([], RoundsUsedUp)
      end
  | _ => ([], EndOfInput)
  end.

(** * Auxiliary definitions for the statements *)

(** The loop of [gcd] unrolled [k] times. *)
Fixpoint gcd_iter (k : nat) (m n : Z) : Z * Z :=
  match k with
  | O => (m, n)
  | S k' => if n =? 0 then (m, n) else gcd_iter k' n (m mod n)
  end.

(** The rational number a [Ratio] with a nonzero denominator denotes. *)
Definition value (r : Ratio) : Q := (inject_Z (num r) / inject_Z (den r))%Q.

(** ** [precSqrt] on values

    The same computation with the [Ratio] objects replaced by their field
    values; [precSqrt_values] shows that [precSqrt] computes it. *)

Fixpoint fold_convergent_val (a : list Z) (idx : list nat) (c : Ratio) : result Ratio :=
  match idx with
  | [] => Ok c
  | i :: idx' =>
      ai ← index a i;
      c' ← Ratio_add (Ratio_rec c) (mkRatio ai 1);
      fold_convergent_val a idx' c'
  end.

Definition convergent_val (a : list Z) : result Ratio :=
  l ← index_last a;
  fold_convergent_val a (reversed_range (length a - 1)) (mkRatio l 1).

Definition converged_val (dig : Z) (pc : option Ratio) (c : Ratio) : result bool :=
  match pc with
  | None => Ok false
  | Some p =>
      diff ← Ratio_sub c p;
      Ratio_lt (Ratio_abs diff) (mkRatio 1 (one_and_zeros (dig + 1)))
  end.

Record vals : Type := mkVals {
  w_m : Z;
  w_d : Z;
  w_a : list Z;
  w_pc : option Ratio
}.

Definition round_val (n dig : Z) (w : vals) : result (vals + Ratio) :=
  '(m, d, a) ← advance n (w_m w) (w_d w) (w_a w);
  c ← convergent_val a;
  stop ← converged_val dig (w_pc w) c;
  if stop : bool then Ok (inr c)
  else Ok (inl (mkVals m d a (Some c))).

Fixpoint loop_val (fuel : nat) (n dig : Z) (w : vals) : result Ratio :=
  match fuel with
  | O => OutOfFuel
  | S fuel' =>
      r ← round_val n dig w;
      match r with
      | inr c => Ok c
      | inl w' => loop_val fuel' n dig w'
      end
  end.

Definition precSqrt_val (fuel : nat) (n dig : Z) : result string :=
  x ← math_sqrt n;
  a0 ← int_of_float (math_floor x);
  y ← math_sqrt n;
  if float_eq_int y a0 then Ok (str a0)
  else
    c ← loop_val fuel n dig (mkVals 0 1 [a0] None);
    scaled ← py_div (num c * one_and_zeros dig) (den c);
    Ok (render scaled dig).

(** The store [σ'] keeps every object of [σ] below the reference [b]. *)
Definition keeps (b : nat) (σ σ' : store) : Prop :=
  (length σ <= length σ')%nat /\ forall p : ref, (p < b)%nat -> σ' !! p = σ !! p.

(** The variables [v] in the store [σ] hold the values [w]. *)
Definition holds (σ : store) (v : vars) (w : vals) : Prop :=
  v_m v = w_m w /\ v_d v = w_d w /\ v_a v = w_a w /\
  match v_pc v, w_pc w with
  | None, None => True
  | Some p, Some r => σ !! p = Some r
  | _, _ => False
  end.

(** ** The continued fraction of a square root, on integers *)

(** The variables [m], [d] and [a] after [k] rounds, computed without
    floating point from the exact integer square root. *)
Fixpoint cf_state (n : Z) (k : nat) : Z * Z * list Z :=
  match k with
  | O => (0, 1, [Z.sqrt n])
  | S k' =>
      let '(m, d, a) := cf_state n k' in
      let m' := d * List.last a 0 - m in
      let d' := (n - m' ^ 2) / d in
      (m', d', a ++ [(Z.sqrt n + m') / d'])
  end.

(** The product of the matrices [[x, 1], [1, 0]] for [x] in [a], as the
    tuple [(p, q, p', q')] of its columns [(p, q)] and [(p', q')]: [p / q]
    is the convergent of [a], and [p' / q'] that of [a] without its last
    element. *)
Fixpoint continuant (a : list Z) : Z * Z * Z * Z :=
  match a with
  | [] => (1, 0, 0, 1)
  | x :: a' => let '(p, q, p', q') := continuant a' in (x * p + q, p, x * p' + q', p')
  end.

Definition conv_num (a : list Z) : Z := let '(p, _, _, _) := continuant a in p.
Definition conv_den (a : list Z) : Z := let '(_, q, _, _) := continuant a in q.
Definition prev_num (a : list Z) : Z := let '(_, _, p', _) := continuant a in p'.
Definition prev_den (a : list Z) : Z := let '(_, _, _, q') := continuant a in q'.

(** [n] is not a perfect square. *)
Definition nonsquare (n : Z) : Prop := forall k : Z, k * k <> n.

(** What holds of [m], [d] and [a] after one round or more, when [n] is not
    a perfect square: the division of line 142 is exact, [m] and [d] stay
    positive and bounded, and every term of [a] is at least one. *)
Definition cf_inv (n : Z) (k : nat) (m d : Z) (a : list Z) : Prop :=
  1 <= m <= Z.sqrt n /\ 1 <= d /\ (exists e : Z, n - m * m = e * d) /\
  Z.sqrt n < m + d /\ d <= Z.sqrt n + m /\
  a !! 0%nat = Some (Z.sqrt n) /\ last a = Some ((Z.sqrt n + m) / d) /\
  length a = S k /\ Forall (fun x => 1 <= x <= 2 * Z.sqrt n) a.


(** The convergent of the terms [a], as a [Ratio]. *)
Definition conv (a : list Z) : Ratio := mkRatio (conv_num a) (conv_den a).

(** The terms [a] after [k] rounds. *)
Definition cf_terms (n : Z) (k : nat) : list Z := snd (cf_state n k).

(** The values of the variables of [precSqrt] after [k] rounds that did
    not leave the loop. *)
Definition vals_at (n : Z) (k : nat) : vals :=
  let '(m, d, a) := cf_state n k in
  mkVals m d a (match k with O => None | S _ => Some (conv a) end).

(** The test of line 150 in round [k]: the product of the denominators of
    the last two convergents exceeds [10 ^ (dig + 1)]. *)
Definition stops (n dig : Z) (k : nat) : bool :=
  match k with
  | O | S O => false
  | _ => one_and_zeros (dig + 1) <? conv_den (cf_terms n k) * prev_den (cf_terms n k)
  end.

(** ** Reachable states of the loop, and digits of the result *)


(** The characters after the decimal point. *)
Fixpoint after_point (s : string) : string :=
  match s with
  | EmptyString => EmptyString
  | String c s' => if Ascii.eqb c "." then s' else after_point s'
  end.

(** The first [d1] fractional digits of the result for [d2] digits are the
    fractional digits of the result for [d1] digits. *)
Definition digits_stable (n d1 d2 : Z) : Prop :=
  forall (fuel1 fuel2 : nat) (s1 s2 : string),
    precSqrt fuel1 n d1 = Ok s1 -> precSqrt fuel2 n d2 = Ok s2 ->
    substring 0 (Z.to_nat d1) (after_point s2) = after_point s1.

(** ** Auxiliary definitions for the further properties *)

(** A decimal digit, and strings of decimal digits. *)
Definition is_digit (c : ascii) : bool :=
  let k := nat_of_ascii c in (48 <=? k)%nat && (k <=? 57)%nat.

Fixpoint digits_only (s : string) : bool :=
  match s with
  | EmptyString => true
  | String c s' => is_digit c && digits_only s'
  end.

(** The sign [(-1) ^ k]. *)
Definition alt (k : nat) : Z := if Nat.even k then 1 else -1.

(** ** Sessions of [main] *)

(** Every turn of the session has either a digit count below one or a
    radicand that [precSqrt] answers: [0 <= n < 2 ^ 1023]. *)
Fixpoint answerable (inputs : list Z) : Prop :=
  match inputs with
  | n :: dig :: inputs' => (dig < 1 \/ 0 <= n < 2 ^ 1023) /\ answerable inputs'
  | _ => True
  end.

(** A number of rounds that is enough for every turn of the session. *)
Fixpoint rounds_for (inputs : list Z) : nat :=
  match inputs with
  | _ :: dig :: inputs' => Nat.max (Z.to_nat (4 * Z.max 0 (dig + 1) + 2)) (rounds_for inputs')
  | _ => 0%nat
  end.

(** ** Continued fractions as rational numbers *)

(** The value of [x0 + 1 / (x1 + 1 / (... + 1 / xk))]. *)
Fixpoint cf_value (a : list Z) : Q :=
  match a with
  | [] => 0
  | x :: a' =>
      match a' with
      | [] => inject_Z x
      | _ => inject_Z x + / cf_value a'
      end
  end.

(** * Properties *)

(** ** The result monad *)

Lemma bind_Ok {A B : Type} (x : A) (k : A -> result B) :
  (Ok x ≫= k) = k x.
Proof. reflexivity. Qed.

Lemma py_div_Ok (a b : Z) : b <> 0 -> py_div a b = Ok (a / b).
Proof. intros Hb. unfold py_div. destruct (Z.eqb_spec b 0); [lia | reflexivity]. Qed.

Lemma py_div_zero (a : Z) : py_div a 0 = Raise ZeroDivisionError.
Proof. reflexivity. Qed.

(** ** [gcd] *)

Lemma gcd_iter_zero (k : nat) (m : Z) : gcd_iter k m 0 = (m, 0).
Proof. destruct k; reflexivity. Qed.

Lemma gcd_iter_add (j k : nat) (m n : Z) :
  gcd_iter (j + k) m n = let '(m1, n1) := gcd_iter j m n in gcd_iter k m1 n1.
Proof.
  revert m n. induction j as [|j IH]; intros m n; simpl.
  - reflexivity.
  - destruct (Z.eqb_spec n 0) as [->|Hn].
    + now rewrite gcd_iter_zero.
    + apply IH.
Qed.

Lemma gcd_iter_S (k : nat) (m n : Z) :
  gcd_iter (S k) m n = if n =? 0 then (m, n) else gcd_iter k n (m mod n).
Proof. reflexivity. Qed.

Lemma gcd_loop_iter (b : positive) (m n : Z) :
  gcd_loop b m n = gcd_iter (Pos.to_nat b) m n.
Proof.
  revert m n. induction b as [b IH|b IH|]; intros m n; simpl gcd_loop.
  - rewrite Pos2Nat.inj_xI, gcd_iter_S.
    destruct (Z.eqb_spec n 0) as [->|Hn]; [reflexivity|].
    replace (2 * Pos.to_nat b)%nat with (Pos.to_nat b + Pos.to_nat b)%nat by lia.
    rewrite gcd_iter_add, IH.
    destruct (gcd_iter (Pos.to_nat b) n (m mod n)) as [m1 n1]. apply IH.
  - rewrite Pos2Nat.inj_xO.
    destruct (Z.eqb_spec n 0) as [->|Hn]; [now rewrite gcd_iter_zero|].
    replace (2 * Pos.to_nat b)%nat with (Pos.to_nat b + Pos.to_nat b)%nat by lia.
    rewrite gcd_iter_add, IH.
    destruct (gcd_iter (Pos.to_nat b) m n) as [m1 n1]. apply IH.
  - change (Pos.to_nat 1) with 1%nat. rewrite gcd_iter_S.
    destruct (Z.eqb_spec n 0); reflexivity.
Qed.

(** With as many rounds as [|n|] the loop has run to its end, and what it
    returns is the greatest common divisor with the sign of [n]. *)
Lemma gcd_iter_spec (k : nat) (m n : Z) :
  Z.abs n <= Z.of_nat k -> n <> 0 ->
  gcd_iter k m n = (Z.sgn n * Z.gcd m n, 0).
Proof.
  revert m n. induction k as [|k IH]; intros m n Hk Hn; [lia|].
  simpl. destruct (Z.eqb_spec n 0) as [|_]; [contradiction|].
  assert (Hr : Z.abs (m mod n) < Z.abs n).
  { destruct (Z.lt_total n 0) as [Hneg|[H0|Hpos]]; [|contradiction|].
    - pose proof (Z.mod_neg_bound m n Hneg). lia.
    - pose proof (Z.mod_pos_bound m n Hpos). lia. }
  assert (Hg : Z.gcd n (m mod n) = Z.gcd m n).
  { rewrite Z.gcd_comm, Z.gcd_mod by assumption. apply Z.gcd_comm. }
  destruct (Z.eq_dec (m mod n) 0) as [Hz|Hnz].
  - rewrite Hz, gcd_iter_zero. f_equal.
    rewrite <- Hg, Hz, Z.gcd_0_r. now destruct n.
  - rewrite IH by lia. rewrite Hg. f_equal. f_equal.
    destruct (Z.lt_total n 0) as [Hneg|[H0|Hpos]]; [|contradiction|].
    + pose proof (Z.mod_neg_bound m n Hneg).
      rewrite !Z.sgn_neg by lia. reflexivity.
    + pose proof (Z.mod_pos_bound m n Hpos).
      rewrite !Z.sgn_pos by lia. reflexivity.
Qed.

Lemma gcd_zero_r (m : Z) : gcd m 0 = m.
Proof. reflexivity. Qed.

Lemma gcd_spec (m n : Z) : n <> 0 -> gcd m n = Z.sgn n * Z.gcd m n.
Proof.
  intros Hn. unfold gcd. rewrite gcd_loop_iter, gcd_iter_spec; [reflexivity| |assumption].
  rewrite positive_nat_Z, Z2Pos.id; lia.
Qed.

Lemma gcd_one_r (m : Z) : gcd m 1 = 1.
Proof. rewrite gcd_spec by lia. rewrite Z.gcd_1_r. reflexivity. Qed.

Lemma gcd_nonzero (m n : Z) : n <> 0 -> gcd m n <> 0.
Proof.
  intros Hn. rewrite gcd_spec by assumption.
  assert (Z.gcd m n <> 0) by (intros H; apply Z.gcd_eq_0_r in H; contradiction).
  destruct (Z.lt_total n 0) as [Hneg|[H0|Hpos]]; [|contradiction|].
  - rewrite Z.sgn_neg by assumption. lia.
  - rewrite Z.sgn_pos by assumption. lia.
Qed.

(** ** [lcm] *)

(** For nonzero arguments [lcm a b] is a nonzero common multiple of [a]
    and [b] with the sign of [b]. *)
Lemma lcm_spec (a b : Z) :
  a <> 0 -> b <> 0 ->
  exists l x y : Z,
    lcm a b = Ok l /\ l = a * x /\ l = b * y /\ 0 < Z.sgn b * l.
Proof.
  intros Ha Hb. unfold lcm.
  rewrite py_div_Ok by (apply gcd_nonzero; assumption).
  rewrite gcd_spec by assumption.
  pose proof (Z.gcd_nonneg a b) as Hg0.
  assert (Hgn : Z.gcd a b <> 0) by (intros H; apply Z.gcd_eq_0_r in H; contradiction).
  destruct (Z.gcd_divide_l a b) as [a' Ha'].
  destruct (Z.gcd_divide_r a b) as [b' Hb'].
  set (g := Z.gcd a b) in *. clearbody g.
  assert (Ha'0 : a' <> 0) by (intros ->; lia).
  assert (Hb'0 : b' <> 0) by (intros ->; lia).
  assert (Habs : Z.abs (a * b) = Z.abs a' * Z.abs b' * g * g).
  { rewrite Ha' at 1. rewrite Hb' at 1.
    rewrite !Z.abs_mul, (Z.abs_eq g) by lia. ring. }
  rewrite Habs.
  exists (Z.sgn b * (Z.abs a' * Z.abs b' * g)),
         (Z.sgn b * (Z.sgn a' * Z.abs b')), (Z.sgn b * (Z.abs a' * Z.sgn b')).
  assert (Hpos : 0 < Z.abs a' * Z.abs b' * g) by nia.
  split; [|split; [|split]].
  - f_equal.
    destruct (Z.lt_total b 0) as [Hneg|[H0|Hpos']]; [|contradiction|].
    + rewrite Z.sgn_neg by assumption.
      replace (Z.abs a' * Z.abs b' * g * g)
        with ((-1 * (Z.abs a' * Z.abs b' * g)) * (-1 * g)) by ring.
      now rewrite Z.div_mul by lia.
    + rewrite Z.sgn_pos by assumption.
      replace (Z.abs a' * Z.abs b' * g * g)
        with ((1 * (Z.abs a' * Z.abs b' * g)) * (1 * g)) by ring.
      now rewrite Z.div_mul by lia.
  - rewrite Ha' at 1. rewrite <- (Z.sgn_abs a'). ring.
  - rewrite Hb' at 2. rewrite <- (Z.sgn_abs b'). ring.
  - destruct (Z.lt_total b 0) as [Hneg|[H0|Hpos']]; [|contradiction|].
    + rewrite Z.sgn_neg by assumption. lia.
    + rewrite Z.sgn_pos by assumption. lia.
Qed.

Lemma lcm_one_r (a : Z) : lcm a 1 = Ok (Z.abs a).
Proof.
  unfold lcm. rewrite gcd_one_r, Z.mul_1_r. unfold py_div. simpl.
  now rewrite Z.div_1_r.
Qed.

(** ** [Ratio]: the operators on values *)

Lemma value_eq (a b : Ratio) :
  den a <> 0 -> den b <> 0 ->
  (value a == value b)%Q <-> num a * den b = num b * den a.
Proof.
  destruct a as [na da], b as [nb db]; simpl. intros Ha Hb.
  unfold value, Qeq, Qdiv, Qmult, Qinv, inject_Z; simpl.
  destruct da as [|p|p], db as [|q|q]; try contradiction; simpl; lia.
Qed.

Lemma value_lt (a b : Ratio) :
  den a <> 0 -> den b <> 0 ->
  (value a < value b)%Q <->
  (if 0 <? den a * den b then num a * den b < num b * den a
   else num b * den a < num a * den b).
Proof.
  destruct a as [na da], b as [nb db]; simpl. intros Ha Hb.
  unfold value, Qlt, Qdiv, Qmult, Qinv, inject_Z; simpl.
  destruct da as [|p|p], db as [|q|q]; try contradiction; simpl; lia.
Qed.

(** The common denominator and the two scaled numerators that [__add__],
    [__eq__] and [__lt__] compute first. *)
Lemma common_denominator (a b : Ratio) :
  den a <> 0 -> den b <> 0 ->
  exists l x y : Z,
    lcm (den a) (den b) = Ok l /\
    py_div (num a * l) (den a) = Ok (num a * x) /\
    py_div (num b * l) (den b) = Ok (num b * y) /\
    l = den a * x /\ l = den b * y /\ 0 < Z.sgn (den b) * l.
Proof.
  intros Ha Hb. destruct (lcm_spec _ _ Ha Hb) as (l & x & y & Hl & Hx & Hy & Hs).
  exists l, x, y. rewrite !py_div_Ok by assumption.
  repeat split; try assumption.
  - f_equal. rewrite Hx. replace (num a * (den a * x)) with (num a * x * den a) by ring.
    now apply Z.div_mul.
  - f_equal. rewrite Hy. replace (num b * (den b * y)) with (num b * y * den b) by ring.
    now apply Z.div_mul.
Qed.

(** [__add__] returns the sum, over a denominator with the sign of the
    right operand's. *)
Lemma Ratio_add_spec (a b : Ratio) :
  den a <> 0 -> den b <> 0 ->
  exists r : Ratio,
    Ratio_add a b = Ok r /\
    num r * (den a * den b) = (num a * den b + num b * den a) * den r /\
    0 < Z.sgn (den b) * den r.
Proof.
  intros Ha Hb.
  destruct (common_denominator a b Ha Hb) as (l & x & y & Hl & Hx & Hy & Hlx & Hly & Hs).
  exists (mkRatio (num a * x + num b * y) l).
  unfold Ratio_add. rewrite Hl. simpl. rewrite Hx. simpl. rewrite Hy. simpl.
  split; [reflexivity|]. split; [|assumption].
  replace ((num a * x + num b * y) * (den a * den b))
    with (num a * den b * (den a * x) + num b * den a * (den b * y)) by ring.
  rewrite <- Hlx, <- Hly. ring.
Qed.

(** [__eq__] is equality of the two fractions, whatever the signs. *)
Lemma Ratio_eq_spec (a b : Ratio) :
  den a <> 0 -> den b <> 0 ->
  Ratio_eq a b = Ok (num a * den b =? num b * den a).
Proof.
  intros Ha Hb.
  destruct (common_denominator a b Ha Hb) as (l & x & y & Hl & Hx & Hy & Hlx & Hly & Hs).
  unfold Ratio_eq. rewrite Hl. simpl. rewrite Hx. simpl. rewrite Hy. simpl.
  f_equal.
  assert (Hl0 : l <> 0) by (intros ->; lia).
  assert (H1 : num a * x * (den a * den b) = num a * den b * l) by (rewrite Hlx; ring).
  assert (H2 : num b * y * (den a * den b) = num b * den a * l) by (rewrite Hly; ring).
  assert (Hdd : den a * den b <> 0) by nia.
  destruct (Z.eqb_spec (num a * x) (num b * y)) as [E|E];
    destruct (Z.eqb_spec (num a * den b) (num b * den a)) as [F|F]; try reflexivity; exfalso.
  - apply F. apply (Z.mul_reg_r _ _ l Hl0). rewrite <- H1, <- H2, E. reflexivity.
  - apply E. apply (Z.mul_reg_r _ _ (den a * den b) Hdd). rewrite H1, H2, F. reflexivity.
Qed.

(** [__lt__] compares the cross products in the order the sign of the
    left denominator asks for, but not the sign of the right one. *)
Lemma Ratio_lt_spec (a b : Ratio) :
  den a <> 0 -> den b <> 0 ->
  Ratio_lt a b =
  Ok (if 0 <? den a then num a * den b <? num b * den a
      else num b * den a <? num a * den b).
Proof.
  intros Ha Hb.
  destruct (common_denominator a b Ha Hb) as (l & x & y & Hl & Hx & Hy & Hlx & Hly & Hs).
  unfold Ratio_lt. rewrite Hl. simpl. rewrite Hx. simpl. rewrite Hy. simpl.
  f_equal.
  assert (H1 : num a * x * (den a * den b) = num a * den b * l) by (rewrite Hlx; ring).
  assert (H2 : num b * y * (den a * den b) = num b * den a * l) by (rewrite Hly; ring).
  assert (H : (num a * x - num b * y) * (den a * den b)
              = (num a * den b - num b * den a) * l) by lia.
  clear H1 H2.
  set (u := num a * x) in *. set (v := num b * y) in *.
  set (P := num a * den b) in *. set (R := num b * den a) in *.
  clearbody u v P R. clear Hl Hx Hy Hlx Hly.
  assert (Hsign : (0 < den a /\ 0 < l /\ 0 < den a * den b) \/
                  (0 < den a /\ l < 0 /\ den a * den b < 0) \/
                  (den a < 0 /\ 0 < l /\ den a * den b < 0) \/
                  (den a < 0 /\ l < 0 /\ 0 < den a * den b)).
  { destruct (den b) as [|q|q]; [contradiction| |]; simpl in Hs; nia. }
  set (D := den a * den b) in *. clearbody D.
  destruct Hsign as [(Hda & Hl & HD)|[(Hda & Hl & HD)|[(Hda & Hl & HD)|(Hda & Hl & HD)]]];
    (destruct (Z.ltb_spec 0 (den a)); [|try lia]; try lia);
    destruct (Z.ltb_spec u v); destruct (Z.ltb_spec P R); destruct (Z.ltb_spec R P);
    try reflexivity; exfalso; nia.
Qed.

(** X7.  For nonzero denominators, of either sign, [__eq__] returns
    [True] exactly when its operands denote the same rational number. *)
Lemma Ratio_eq_correct (a b : Ratio) :
  den a <> 0 -> den b <> 0 ->
  exists t : bool, Ratio_eq a b = Ok t /\ (t = true <-> (value a == value b)%Q).
Proof.
  intros Ha Hb. eexists. split; [apply Ratio_eq_spec; assumption|].
  pose proof (value_eq a b Ha Hb) as Hv. rewrite Z.eqb_eq. tauto.
Qed.

(** X8.  For nonzero denominators [__lt__] decides the order of the
    denoted rationals when the right operand's denominator is positive,
    and the opposite order when it is negative; the sign of the left
    operand's denominator does not matter. *)
Lemma Ratio_lt_correct (a b : Ratio) :
  den a <> 0 -> den b <> 0 ->
  exists t : bool, Ratio_lt a b = Ok t /\
    (t = true <-> if 0 <? den b then (value a < value b)%Q else (value b < value a)%Q).
Proof.
  intros Ha Hb. eexists. split; [apply Ratio_lt_spec; assumption|].
  pose proof (value_lt a b Ha Hb) as Hab. pose proof (value_lt b a Hb Ha) as Hba.
  rewrite (Z.mul_comm (den b) (den a)) in Hba.
  destruct (Z.ltb_spec 0 (den a)); destruct (Z.ltb_spec 0 (den b));
    destruct (Z.ltb_spec 0 (den a * den b)); try nia; rewrite Z.ltb_lt; tauto.
Qed.

(** An operand with a zero denominator makes [__add__] divide by zero. *)
Lemma Ratio_add_zero_den_l (a b : Ratio) :
  den a = 0 -> Ratio_add a b = Raise ZeroDivisionError.
Proof.
  intros Ha. unfold Ratio_add, lcm. rewrite Ha. simpl (0 * _).
  destruct (Z.eq_dec (den b) 0) as [Hb|Hb].
  - rewrite Hb. reflexivity.
  - rewrite py_div_Ok by (apply gcd_nonzero; assumption). reflexivity.
Qed.

(** ** Floating point *)

Lemma digits2_pos_size (p : positive) : digits2_pos p = Pos.size p.
Proof. induction p; simpl; congruence. Qed.

(** The number of binary digits of a positive mantissa. *)
Lemma digits2_pos_bounds (p : positive) :
  2 ^ (Zpos (digits2_pos p) - 1) <= Zpos p < 2 ^ Zpos (digits2_pos p).
Proof.
  rewrite digits2_pos_size.
  assert (H : Zpos (Pos.size p) = Z.log2 (Zpos p) + 1).
  { destruct p; simpl; lia. }
  rewrite H. replace (Z.log2 (Zpos p) + 1 - 1) with (Z.log2 (Zpos p)) by lia.
  pose proof (Z.log2_spec (Zpos p) ltac:(lia)) as Hs.
  replace (Z.log2 (Zpos p) + 1) with (Z.succ (Z.log2 (Zpos p))) by lia. exact Hs.
Qed.

Lemma digits2_pos_unique (p : positive) (d : Z) :
  2 ^ (d - 1) <= Zpos p < 2 ^ d -> Zpos (digits2_pos p) = d.
Proof.
  intros [Hlo Hhi]. pose proof (digits2_pos_bounds p) as [Hlo' Hhi'].
  assert (Hd : 0 < d).
  { destruct (Z_lt_le_dec 0 d) as [|Hd]; [assumption|exfalso].
    destruct (Z.eq_dec d 0) as [->|]; [simpl in Hhi; lia|].
    rewrite Z.pow_neg_r in Hhi by lia. lia. }
  set (s := Zpos (digits2_pos p)) in *.
  assert (Hs : 0 < s) by (unfold s; lia).
  destruct (Z.lt_trichotomy s d) as [Hlt|[Heq|Hgt]]; [exfalso|assumption|exfalso].
  - assert (2 ^ s <= 2 ^ (d - 1)) by (apply Z.pow_le_mono_r; lia). lia.
  - assert (2 ^ d <= 2 ^ (s - 1)) by (apply Z.pow_le_mono_r; lia). lia.
Qed.

Lemma iter_xO_value (p : positive) (k : positive) :
  Zpos (Pos.iter xO p k) = Zpos p * 2 ^ Zpos k.
Proof.
  induction k as [|k IH] using Pos.peano_ind.
  - simpl. lia.
  - rewrite Pos.iter_succ, Pos2Z.inj_xO, IH, Pos2Z.inj_succ, Z.pow_succ_r by lia. ring.
Qed.

Lemma iter_pos_iter {A : Type} (f : A -> A) (p : positive) (x : A) :
  SpecFloat.iter_pos f p x = Pos.iter f x p.
Proof.
  revert x. induction p as [p IH|p IH|]; intros x; simpl.
  - rewrite !IH, <- !Pos.iter_swap. reflexivity.
  - rewrite !IH. reflexivity.
  - reflexivity.
Qed.

(** One step of the right shift that keeps a round bit and a sticky bit. *)
Lemma shr_1_spec (m : Z) (r s : bool) :
  0 <= m ->
  shr_1 (Build_shr_record m r s) = Build_shr_record (m / 2) (Z.odd m) (r || s).
Proof.
  intros Hm. rewrite <- Z.div2_div.
  destruct m as [|[p|p|]|p]; try reflexivity. lia.
Qed.

Lemma round_bit_spec (m P : Z) :
  0 < P -> Z.odd (m / P) = (P <=? m mod (P * 2)).
Proof.
  intros HP. rewrite Z.rem_mul_r, Zmod_odd by lia.
  pose proof (Z.mod_pos_bound m P HP).
  destruct (Z.odd (m / P)); symmetry; [apply Z.leb_le | apply Z.leb_gt]; lia.
Qed.

Lemma sticky_bit_spec (m P : Z) :
  0 < P -> (P <=? m mod (P * 2)) || negb (m mod P =? 0) = negb (m mod (P * 2) =? 0).
Proof.
  intros HP. rewrite Z.rem_mul_r, Zmod_odd by lia.
  pose proof (Z.mod_pos_bound m P HP).
  destruct (Z.odd (m / P));
    destruct (Z.leb_spec P (m mod P + P * 1));
    destruct (Z.leb_spec P (m mod P + P * 0));
    destruct (Z.eqb_spec (m mod P) 0);
    destruct (Z.eqb_spec (m mod P + P * 1) 0);
    destruct (Z.eqb_spec (m mod P + P * 0) 0); try reflexivity; lia.
Qed.

(** [k] steps, from an exact mantissa: the quotient, whether the remainder
    reaches one half, and whether it is neither zero nor one half. *)
Lemma shr_iter_spec (m : Z) (k : positive) :
  0 <= m ->
  Pos.iter shr_1 (Build_shr_record m false false) k =
  Build_shr_record (m / 2 ^ Zpos k)
                   (2 ^ (Zpos k - 1) <=? m mod 2 ^ Zpos k)
                   (negb (m mod 2 ^ (Zpos k - 1) =? 0)).
Proof.
  intros Hm. induction k as [|k IH] using Pos.peano_ind.
  - cbn [Pos.iter]. rewrite shr_1_spec by assumption.
    change (2 ^ 1) with 2. change (2 ^ (1 - 1)) with 1.
    rewrite Z.mod_1_r. simpl negb. f_equal.
    pose proof (round_bit_spec m 1 ltac:(lia)) as H.
    rewrite Z.div_1_r in H. change (1 * 2) with 2 in H. exact H.
  - rewrite Pos.iter_succ, IH.
    assert (Hk : 0 < 2 ^ Zpos k) by (apply Z.pow_pos_nonneg; lia).
    assert (Hk1 : 0 < 2 ^ (Zpos k - 1)) by (apply Z.pow_pos_nonneg; lia).
    assert (Hkk : 2 ^ Zpos k = 2 ^ (Zpos k - 1) * 2).
    { rewrite Z.mul_comm, <- Z.pow_succ_r by lia. f_equal. lia. }
    rewrite shr_1_spec by (apply Z.div_pos; lia).
    rewrite Pos2Z.inj_succ.
    replace (Z.succ (Zpos k) - 1) with (Zpos k) by lia.
    rewrite Z.pow_succ_r by lia.
    rewrite (Z.mul_comm 2), <- Z.div_div by lia.
    f_equal.
    + apply round_bit_spec. assumption.
    + rewrite Hkk. apply sticky_bit_spec. assumption.
Qed.

Lemma fexp_spec (z : Z) : fexp prec emax z = Z.max (z - 53) (-1074).
Proof. reflexivity. Qed.

Lemma Zdigits2_unique (m d : Z) :
  0 < m -> 2 ^ (d - 1) <= m < 2 ^ d -> Zdigits2 m = d.
Proof.
  intros Hm H. destruct m as [|p|p]; try lia. simpl. now apply digits2_pos_unique.
Qed.

Lemma Zdigits2_bounds (m : Z) :
  0 < m -> 0 < Zdigits2 m /\ 2 ^ (Zdigits2 m - 1) <= m < 2 ^ Zdigits2 m.
Proof.
  intros Hm. destruct m as [|p|p]; try lia. simpl. split; [lia|]. apply digits2_pos_bounds.
Qed.

(** The shift to the exponent of the format, from an exact mantissa. *)
Lemma shr_fexp_exact (m e : Z) :
  0 < m ->
  let sh := fexp prec emax (Zdigits2 m + e) - e in
  shr_fexp prec emax m e loc_Exact =
  if sh <=? 0 then (Build_shr_record m false false, e)
  else (Build_shr_record (m / 2 ^ sh)
                         (2 ^ (sh - 1) <=? m mod 2 ^ sh)
                         (negb (m mod 2 ^ (sh - 1) =? 0)), e + sh).
Proof.
  intros Hm sh. unfold shr_fexp. fold sh. unfold shr. simpl shr_record_of_loc.
  destruct sh as [|k|k]; try reflexivity.
  rewrite iter_pos_iter, shr_iter_spec by lia. reflexivity.
Qed.

(** With an inexact location there is a shift in none of the uses below. *)
Lemma shr_fexp_no_shift (m e : Z) (l : location) :
  fexp prec emax (Zdigits2 m + e) - e <= 0 ->
  shr_fexp prec emax m e l = (shr_record_of_loc m l, e).
Proof.
  intros H. unfold shr_fexp, shr.
  destruct (fexp prec emax (Zdigits2 m + e) - e); try reflexivity. lia.
Qed.

Lemma loc_of_shr_record_of_loc (m : Z) (l : location) :
  loc_of_shr_record (shr_record_of_loc m l) = l.
Proof. destruct l as [|[| |]]; reflexivity. Qed.

Lemma shr_m_record_of_loc (m : Z) (l : location) : shr_m (shr_record_of_loc m l) = m.
Proof. destruct l as [|[| |]]; reflexivity. Qed.

(** The last step of rounding, on a mantissa that already has 53 digits,
    or is [2 ^ 53] after a carry. *)
Lemma binary_round_aux_tail (s : bool) (m1 e : Z) :
  2 ^ 52 <= m1 <= 2 ^ 53 -> -1074 <= e ->
  (let '(mrs, e') := shr_fexp prec emax m1 e loc_Exact in
   match shr_m mrs with
   | Z0 => S754_zero s
   | Zpos m => if e' <=? emax - prec then S754_finite s m e' else S754_infinity s
   | Zneg _ => S754_nan
   end) =
  let m2 := if m1 <? 2 ^ 53 then m1 else 2 ^ 52 in
  let e2 := if m1 <? 2 ^ 53 then e else e + 1 in
  if e2 <=? 971 then S754_finite s (Z.to_pos m2) e2 else S754_infinity s.
Proof.
  intros Hm He. cbv zeta.
  rewrite shr_fexp_exact by lia. cbv zeta.
  destruct (Z.ltb_spec m1 (2 ^ 53)) as [Hlt|Hge].
  - assert (Hd : Zdigits2 m1 = 53).
    { apply Zdigits2_unique; [lia|]. change (53 - 1) with 52. lia. }
    rewrite Hd, fexp_spec.
    destruct (Z.leb_spec (Z.max (53 + e - 53) (-1074) - e) 0) as [_|]; [|lia].
    cbn [shr_m]. destruct m1 as [|p|p]; try lia. reflexivity.
  - assert (m1 = 2 ^ 53) as -> by lia.
    assert (Hd : Zdigits2 (2 ^ 53) = 54) by reflexivity.
    rewrite Hd, fexp_spec.
    replace (Z.max (54 + e - 53) (-1074) - e) with 1 by lia.
    reflexivity.
Qed.

(** Rounding to nearest, ties to even, after a shift by [sh]: one of the
    two neighbours, at most half a unit away, and the quotient itself
    when the shift loses nothing. *)
Lemma round_nearest_even_spec (n sh : Z) :
  0 <= n -> 0 < sh ->
  let m' := n / 2 ^ sh in
  let m1 := round_nearest_even m'
              (loc_of_shr_record
                 (Build_shr_record m' (2 ^ (sh - 1) <=? n mod 2 ^ sh)
                                      (negb (n mod 2 ^ (sh - 1) =? 0)))) in
  (m1 = m' \/ m1 = m' + 1) /\ 2 * Z.abs (m1 * 2 ^ sh - n) <= 2 ^ sh /\
  (n mod 2 ^ sh = 0 -> m1 = m').
Proof.
  intros Hn Hsh. cbv zeta.
  assert (Hh : 0 < 2 ^ (sh - 1)) by (apply Z.pow_pos_nonneg; lia).
  assert (Hp : 2 ^ sh = 2 ^ (sh - 1) * 2).
  { rewrite Z.mul_comm, <- Z.pow_succ_r by lia. f_equal. lia. }
  pose proof (Z.div_mod n (2 ^ sh) ltac:(lia)) as Hdm.
  pose proof (Z.mod_pos_bound n (2 ^ sh) ltac:(lia)) as Hrem.
  assert (Hlow : n mod 2 ^ sh = n mod 2 ^ (sh - 1)
                 + 2 ^ (sh - 1) * ((n / 2 ^ (sh - 1)) mod 2)).
  { rewrite Hp at 1. apply Z.rem_mul_r; lia. }
  pose proof (Z.mod_pos_bound n (2 ^ (sh - 1)) Hh) as Hrem'.
  pose proof (Z.mod_pos_bound (n / 2 ^ (sh - 1)) 2 ltac:(lia)) as Hbit.
  set (m' := n / 2 ^ sh) in *. set (rem := n mod 2 ^ sh) in *.
  set (rem' := n mod 2 ^ (sh - 1)) in *. set (half := 2 ^ (sh - 1)) in *.
  set (P := 2 ^ sh) in *.
  assert (Hbit' : (n / half) mod 2 = 0 \/ (n / half) mod 2 = 1) by lia.
  assert (Hrem2 : rem = rem' \/ rem = rem' + half) by (destruct Hbit' as [E|E]; rewrite E in Hlow; lia).
  clear Hlow Hbit Hbit'. clearbody m' rem rem' half P.
  destruct (Z.leb_spec half rem) as [Hr|Hr];
    destruct (Z.eqb_spec rem' 0) as [Hs|Hs]; simpl.
  - (* a tie *)
    destruct (Z.even m'); (split; [|split]); intros; lia.
  - (split; [|split]); intros; lia.
  - (split; [|split]); intros; lia.
  - (split; [|split]); intros; lia.
Qed.

(** The conversion of an integer of magnitude [p] to a float of sign [s]. *)
Lemma binary_round_spec (p : positive) (s : bool) :
  let n := Zpos p in
  (exists (mx : positive) (ex : Z),
      binary_round prec emax s p 0 = S754_finite s mx ex /\
      2 ^ 52 <= Zpos mx < 2 ^ 53 /\ -52 <= ex <= 971 /\
      (Zdigits2 n <= 53 -> ex = Zdigits2 n - 53) /\
      (ex <= 0 -> Zpos mx = n * 2 ^ (- ex)) /\
      (0 < ex -> 2 * Z.abs (Zpos mx * 2 ^ ex - n) <= 2 ^ ex) /\
      (0 < ex -> n mod 2 ^ (Zdigits2 n - 53) = 0 -> Zpos mx * 2 ^ ex = n)) \/
  (binary_round prec emax s p 0 = S754_infinity s /\ 1024 <= Zdigits2 n).
Proof.
  cbv zeta. assert (Hn : 0 < Zpos p) by lia.
  destruct (Zdigits2_bounds (Zpos p) Hn) as [Hd0 Hd].
  simpl Zdigits2 in *. set (d := Zpos (digits2_pos p)) in *.
  unfold binary_round. fold d.
  rewrite Z.add_0_r, fexp_spec, Z.max_l by lia.
  unfold shl_align. rewrite Z.sub_0_r.
  destruct (Z.lt_trichotomy d 53) as [Hlt|[Heq|Hgt]].
  - (* fewer than 53 digits: the mantissa is padded *)
    left. destruct (d - 53) as [|k|k] eqn:Hk; try lia.
    assert (Hk' : Zpos k = 53 - d) by lia.
    pose proof (iter_xO_value p k) as Hmz. set (mz := Pos.iter xO p k) in *.
    assert (Hpow : 2 ^ (d - 1) * 2 ^ Zpos k = 2 ^ 52).
    { rewrite <- Z.pow_add_r by lia. f_equal. lia. }
    assert (Hpow' : 2 ^ d * 2 ^ Zpos k = 2 ^ 53).
    { rewrite <- Z.pow_add_r by lia. f_equal. lia. }
    assert (Hpk : 0 < 2 ^ Zpos k) by (apply Z.pow_pos_nonneg; lia).
    assert (Hrange : 2 ^ 52 <= Zpos mz < 2 ^ 53) by nia.
    exists mz, (Zneg k). split.
    + unfold binary_round_aux. rewrite shr_fexp_exact by lia. cbv zeta.
      rewrite (Zdigits2_unique (Zpos mz) 53) by (try lia; change (53 - 1) with 52; lia).
      rewrite fexp_spec.
      destruct (Z.leb_spec (Z.max (53 + Zneg k - 53) (-1074) - Zneg k) 0) as [_|]; [|lia].
      cbn [shr_m loc_of_shr_record round_nearest_even].
      rewrite (binary_round_aux_tail s (Zpos mz) (Zneg k)) by lia. cbv zeta.
      destruct (Z.ltb_spec (Zpos mz) (2 ^ 53)) as [_|]; [|lia].
      destruct (Z.leb_spec (Zneg k) 971) as [_|]; [|lia]. reflexivity.
    + split; [assumption|]. split; [lia|]. split; [intros; lia|].
      split; [|split; intros; lia].
      intros _. rewrite Hmz. reflexivity.
  - (* exactly 53 digits *)
    left. rewrite Heq. change (53 - 53) with 0. cbv iota beta.
    assert (Hrange : 2 ^ 52 <= Zpos p < 2 ^ 53) by (rewrite Heq in Hd; exact Hd).
    exists p, 0. split.
    + unfold binary_round_aux. rewrite shr_fexp_exact by lia. cbv zeta.
      rewrite (Zdigits2_unique (Zpos p) 53) by (try lia; change (53 - 1) with 52; lia).
      rewrite fexp_spec.
      change (Z.max (53 + 0 - 53) (-1074) - 0 <=? 0) with true. cbv iota beta.
      cbn [shr_m loc_of_shr_record round_nearest_even].
      rewrite (binary_round_aux_tail s (Zpos p) 0) by lia. cbv zeta.
      destruct (Z.ltb_spec (Zpos p) (2 ^ 53)) as [_|]; [|lia]. reflexivity.
    + split; [assumption|]. split; [lia|]. split; [intros; lia|].
      split; [|split; intros; lia].
      intros _. simpl. lia.
  - (* more than 53 digits: the mantissa is rounded *)
    destruct (d - 53) as [|k|k] eqn:Hk; try lia.
    unfold binary_round_aux. rewrite shr_fexp_exact by lia. cbv zeta.
    simpl Zdigits2. fold d.
    rewrite Z.add_0_r, fexp_spec, Z.max_l, Z.sub_0_r, Hk by lia.
    destruct (Z.leb_spec (Zpos k) 0) as [|_]; [lia|].
    cbn [shr_m]. rewrite Z.add_0_l.
    destruct (round_nearest_even_spec (Zpos p) (Zpos k) ltac:(lia) ltac:(lia))
      as (Hm1 & Herr & Hexact). cbv zeta in Hm1, Herr, Hexact.
    set (m1 := round_nearest_even _ _) in *.
    assert (Hpk : 0 < 2 ^ Zpos k) by (apply Z.pow_pos_nonneg; lia).
    assert (Hpow : 2 ^ (d - 1) = 2 ^ 52 * 2 ^ Zpos k).
    { rewrite <- Z.pow_add_r by lia. f_equal. lia. }
    assert (Hpow' : 2 ^ d = 2 ^ 53 * 2 ^ Zpos k).
    { rewrite <- Z.pow_add_r by lia. f_equal. lia. }
    assert (Hq : 2 ^ 52 <= Zpos p / 2 ^ Zpos k < 2 ^ 53).
    { split; [apply Z.div_le_lower_bound; lia | apply Z.div_lt_upper_bound; lia]. }
    rewrite (binary_round_aux_tail s m1 (Zpos k)) by lia. cbv zeta.
    destruct (Z.ltb_spec m1 (2 ^ 53)) as [Hno|Hcarry].
    + destruct (Z.leb_spec (Zpos k) 971) as [Hfin|Hinf].
      * left. exists (Z.to_pos m1), (Zpos k). split; [reflexivity|].
        rewrite Z2Pos.id by lia. split; [lia|]. split; [lia|].
        split; [intros; lia|].
        split; [intros; lia|]. split; [intros _; exact Herr|].
        intros _ Hz. rewrite (Hexact Hz).
        pose proof (Z.div_mod (Zpos p) (2 ^ Zpos k) ltac:(lia)). lia.
      * right. split; [reflexivity | lia].
    + assert (Hm1eq : m1 = 2 ^ 53) by lia.
      destruct (Z.leb_spec (Zpos k + 1) 971) as [Hfin|Hinf].
      * left. exists (Z.to_pos (2 ^ 52)), (Zpos k + 1). split; [reflexivity|].
        rewrite Z2Pos.id by lia. split; [lia|]. split; [lia|].
        split; [intros; lia|].
        split; [intros; lia|].
        assert (Hp1 : 2 ^ (Zpos k + 1) = 2 * 2 ^ Zpos k) by (rewrite Z.pow_add_r by lia; ring).
        split.
        -- intros _. rewrite Hp1. rewrite Hm1eq in Herr.
           replace (2 ^ 52 * (2 * 2 ^ Zpos k)) with (2 ^ 53 * 2 ^ Zpos k)
             by (change (2 ^ 53) with (2 ^ 52 * 2); ring). lia.
        -- intros _ Hz. exfalso. specialize (Hexact Hz). lia.
      * right. split; [reflexivity | lia].
Qed.

(** The square root of a normal float at least one half: the integer
    square root of the mantissa, scaled to 105 or 106 digits, rounded to the
    nearest 53-digit mantissa. *)
Lemma SFsqrt_spec (mx : positive) (ex : Z) :
  2 ^ 52 <= Zpos mx < 2 ^ 53 -> -52 <= ex <= 971 ->
  let e' := ex / 2 - 26 in
  let m' := Zpos mx * 2 ^ (ex - 2 * e') in
  exists Q : positive,
    SFsqrt prec emax (S754_finite false mx ex) = S754_finite false Q e' /\
    2 ^ 52 <= Zpos Q < 2 ^ 53 /\
    (2 * Zpos Q - 1) ^ 2 < 4 * m' < (2 * Zpos Q + 1) ^ 2.
Proof.
  intros Hmx Hex. cbv zeta.
  set (e' := ex / 2 - 26). set (s := ex - 2 * e').
  assert (Hs : s = 52 \/ s = 53).
  { unfold s, e'. pose proof (Z.div_mod ex 2 ltac:(lia)).
    pose proof (Z.mod_pos_bound ex 2 ltac:(lia)). lia. }
  assert (He' : -52 <= e' <= 459).
  { unfold e'. pose proof (Z.div_mod ex 2 ltac:(lia)).
    pose proof (Z.mod_pos_bound ex 2 ltac:(lia)). lia. }
  set (m' := Zpos mx * 2 ^ s).
  assert (Hm' : 2 ^ 104 <= m' <= 2 ^ 106 - 2 ^ 53).
  { unfold m'. destruct Hs as [-> | ->].
    - change (2 ^ 104) with (2 ^ 52 * 2 ^ 52).
      change (2 ^ 106 - 2 ^ 53) with ((2 ^ 53 - 1) * 2 ^ 53).
      assert (0 < 2 ^ 52) by reflexivity. assert (2 ^ 53 = 2 * 2 ^ 52) by reflexivity. nia.
    - change (2 ^ 104) with (2 ^ 51 * 2 ^ 53).
      change (2 ^ 106 - 2 ^ 53) with ((2 ^ 53 - 1) * 2 ^ 53).
      assert (0 < 2 ^ 53) by reflexivity. assert (2 ^ 52 = 2 * 2 ^ 51) by reflexivity. nia. }
  pose proof (Z.sqrtrem_spec m' ltac:(lia)) as Hsr.
  pose proof (Z.sqrtrem_sqrt m') as Hfst.
  destruct (Z.sqrtrem m') as [q r] eqn:Hqr. simpl in Hfst.
  destruct Hsr as [Hsq Hr].
  assert (Hq : 2 ^ 52 <= q <= 2 ^ 53 - 1).
  { rewrite Hfst. split.
    - change (2 ^ 52) with (Z.sqrt (2 ^ 104)). apply Z.sqrt_le_mono. lia.
    - assert (Z.sqrt m' < 2 ^ 53); [|lia].
      apply Z.sqrt_lt_square; [lia | lia |].
      change (2 ^ 53 * 2 ^ 53) with (2 ^ 106). lia. }
  set (up := if r =? 0 then false else negb (r <=? q)).
  assert (Hup : up = true -> q < 2 ^ 53 - 1).
  { unfold up. destruct (Z.eqb_spec r 0); [discriminate|].
    destruct (Z.leb_spec r q); [discriminate|]. intros _.
    destruct (Z.eq_dec q (2 ^ 53 - 1)) as [E|E]; [exfalso|lia].
    rewrite E in Hsq.
    replace ((2 ^ 53 - 1) * (2 ^ 53 - 1)) with (2 ^ 106 - 2 ^ 54 + 1) in Hsq by reflexivity.
    change (2 ^ 54) with (2 * 2 ^ 53) in Hsq. lia. }
  exists (Z.to_pos (if up then q + 1 else q)).
  assert (HQ : 2 ^ 52 <= (if up then q + 1 else q) < 2 ^ 53).
  { destruct up; [specialize (Hup eq_refl)|]; lia. }
  rewrite Z2Pos.id by lia.
  split; [|split; [exact HQ|]].
  - unfold SFsqrt, SFsqrt_core_binary.
    assert (Hd : Zdigits2 (Zpos mx) = 53).
    { apply Zdigits2_unique; [lia|]. change (53 - 1) with 52. lia. }
    rewrite Hd, !Z.div2_div, fexp_spec.
    replace ((53 + ex + 1) / 2) with (27 + ex / 2).
    2:{ replace (53 + ex + 1) with (ex + 27 * 2) by ring. rewrite Z.div_add by lia. ring. }
    replace (Z.min (Z.max (27 + ex / 2 - 53) (-1074)) (ex / 2)) with e' by (unfold e'; lia).
    fold s.
    assert (Hshift : match s with
                     | 0 => Zpos mx
                     | Zpos _ => Z.shiftl (Zpos mx) s
                     | Zneg _ => 0
                     end = m').
    { unfold m'. destruct Hs as [-> | ->]; rewrite Z.shiftl_mul_pow2 by lia; reflexivity. }
    rewrite Hshift, Hqr.
    set (l := if r =? 0 then loc_Exact else loc_Inexact (if r <=? q then Lt else Gt)).
    unfold binary_round_aux.
    assert (Hdq : Zdigits2 q = 53).
    { apply Zdigits2_unique; [lia|]. change (53 - 1) with 52. lia. }
    rewrite shr_fexp_no_shift by (rewrite Hdq, fexp_spec; lia).
    rewrite loc_of_shr_record_of_loc, shr_m_record_of_loc.
    assert (Hrne : round_nearest_even q l = if up then q + 1 else q).
    { unfold l, up. destruct (r =? 0); [reflexivity|]. destruct (r <=? q); reflexivity. }
    rewrite Hrne.
    rewrite (binary_round_aux_tail false _ e') by lia. cbv zeta.
    destruct (Z.ltb_spec (if up then q + 1 else q) (2 ^ 53)) as [_|]; [|lia].
    destruct (Z.leb_spec e' 971) as [_|]; [|lia]. reflexivity.
  - fold m'. unfold up. rewrite !Z.pow_2_r.
    destruct (Z.eqb_spec r 0) as [Hr0|Hr0]; [nia|].
    destruct (Z.leb_spec r q); simpl; nia.
Qed.

(** [float(n)] for a positive integer. *)
Lemma float_of_int_pos (n : Z) :
  0 < n ->
  (exists (mx : positive) (ex : Z),
      float_of_int n = Ok (S754_finite false mx ex) /\
      2 ^ 52 <= Zpos mx < 2 ^ 53 /\ -52 <= ex <= 971 /\
      (Zdigits2 n <= 53 -> ex = Zdigits2 n - 53) /\
      (ex <= 0 -> Zpos mx = n * 2 ^ (- ex)) /\
      (0 < ex -> 2 * Z.abs (Zpos mx * 2 ^ ex - n) <= 2 ^ ex) /\
      (0 < ex -> n mod 2 ^ (Zdigits2 n - 53) = 0 -> Zpos mx * 2 ^ ex = n)) \/
  (float_of_int n = Raise OverflowError /\ 1024 <= Zdigits2 n).
Proof.
  intros Hn. destruct n as [|p|p]; try lia.
  unfold float_of_int, binary_normalize.
  destruct (binary_round_spec p false) as [(mx & ex & Hr & H)|[Hr H]]; rewrite Hr.
  - left. exists mx, ex. split; [reflexivity | exact H].
  - right. split; [reflexivity | exact H].
Qed.

(** [float(n)] for a negative integer is a negative float, or overflows
    when [n] has 1024 binary digits or more. *)
Lemma float_of_int_neg (n : Z) :
  n < 0 ->
  (exists (mx : positive) (ex : Z), float_of_int n = Ok (S754_finite true mx ex)) \/
  (float_of_int n = Raise OverflowError /\ n <= - 2 ^ 1023).
Proof.
  intros Hn. destruct n as [|p|p]; try lia.
  unfold float_of_int, binary_normalize.
  destruct (binary_round_spec p true) as [(mx & ex & Hr & H)|[Hr H]]; rewrite Hr.
  - left. exists mx, ex. reflexivity.
  - right. split; [reflexivity|]. cbv zeta in H.
    destruct (Zdigits2_bounds (Zpos p) ltac:(lia)) as [_ [Hlo _]].
    assert (2 ^ 1023 <= 2 ^ (Zdigits2 (Zpos p) - 1)) by (apply Z.pow_le_mono_r; lia).
    lia.
Qed.

(** [math.sqrt] of a negative integer raises, before anything else is
    done: a math domain error when [n] converts to a float. *)
Lemma math_sqrt_negative (n : Z) :
  n < 0 ->
  (math_sqrt n = Raise ValueError \/ math_sqrt n = Raise OverflowError) /\
  (- 2 ^ 1023 < n -> math_sqrt n = Raise ValueError).
Proof.
  intros Hn. unfold math_sqrt.
  destruct (float_of_int_neg n Hn) as [(mx & ex & Hr)|[Hr Hbig]]; rewrite Hr.
  - split; [left; reflexivity | intros _; reflexivity].
  - split; [right; reflexivity | intros; lia].
Qed.

(** A negative integer of 1025 binary digits or more does not convert:
    [math.sqrt] raises the [OverflowError] of the conversion, as it does
    for the positive integers of that size. *)
Lemma math_sqrt_negative_huge (n : Z) :
  n <= - 2 ^ 1024 -> math_sqrt n = Raise OverflowError.
Proof.
  intros Hn.
  assert (H1024 : 0 < 2 ^ 1024) by reflexivity.
  destruct n as [|p|p]; try lia.
  unfold math_sqrt, float_of_int, binary_normalize.
  destruct (binary_round_spec p true)
    as [(mx & ex & Hr & Hmx & Hex & _ & Hexact & Hnear & _)|[Hr _]]; rewrite Hr;
    [exfalso|reflexivity].
  cbv zeta in Hexact, Hnear.
  assert (Hp : 2 ^ 1024 <= Zpos p) by lia.
  assert (H53 : 2 ^ 53 < 2 ^ 1024) by reflexivity.
  destruct (Z.le_gt_cases ex 0) as [Hle|Hgt].
  - specialize (Hexact Hle).
    assert (1 <= 2 ^ (- ex)) by (pose proof (Z.pow_pos_nonneg 2 (- ex)); lia). nia.
  - specialize (Hnear Hgt).
    assert (Hpe : 2 ^ ex <= 2 ^ 971) by (apply Z.pow_le_mono_r; lia).
    assert (Hp0 : 0 < 2 ^ ex) by (apply Z.pow_pos_nonneg; lia).
    assert (Hm : Zpos mx * 2 ^ ex <= (2 ^ 53 - 1) * 2 ^ 971)
      by (apply Z.mul_le_mono_nonneg; lia).
    assert (Hc : (2 ^ 53 - 1) * 2 ^ 971 + 2 ^ 971 = 2 ^ 1024) by reflexivity.
    lia.
Qed.

Lemma Zdigits2_le_53 (q : Z) : 0 < q < 2 ^ 53 -> Zdigits2 q <= 53.
Proof.
  intros Hq. destruct (Zdigits2_bounds q ltac:(lia)) as [_ [Hlo _]].
  destruct (Z_le_gt_dec (Zdigits2 q) 53); [assumption|exfalso].
  assert (2 ^ 53 <= 2 ^ (Zdigits2 q - 1)) by (apply Z.pow_le_mono_r; lia). lia.
Qed.

(** An integer that fits in 53 bits goes through [float] unchanged. *)
Lemma int_floor_int_exact (q : Z) : 0 <= q < 2 ^ 53 -> int_floor_int q = Ok q.
Proof.
  intros Hq. unfold int_floor_int.
  destruct (Z.eq_dec q 0) as [->|Hq0]; [reflexivity|].
  assert (Hdq : Zdigits2 q <= 53) by (apply Zdigits2_le_53; lia).
  destruct (float_of_int_pos q ltac:(lia)) as [(mx & ex & Hr & Hmx & Hex & Hdig & Hsmall & _)|[Hr Hd]].
  - rewrite Hr. cbn [mbind result_bind].
    assert (Hex0 : ex <= 0) by lia.
    specialize (Hsmall Hex0).
    assert (Hp : 0 < 2 ^ (- ex)) by (apply Z.pow_pos_nonneg; lia).
    assert (Hfl : floor_Z (S754_finite false mx ex) = q).
    { unfold floor_Z, cond_Zopp. destruct (Z.leb_spec 0 ex).
      - assert (ex = 0) as -> by lia. simpl in Hsmall. lia.
      - rewrite Hsmall. apply Z.div_mul. lia. }
    unfold math_floor. rewrite Hfl.
    unfold float_of_int in Hr.
    destruct (binary_normalize prec emax q 0 false) eqn:Hbn; try discriminate.
    injection Hr as -> -> ->.
    unfold int_of_float, cond_Zopp. f_equal. destruct (Z.leb_spec 0 ex).
    + assert (ex = 0) as -> by lia. simpl in Hsmall. lia.
    + rewrite Hsmall. apply Z.quot_mul. lia.
  - lia.
Qed.

(** [int(floor(y))] for a normal float [y] at least one half is its
    integer part, computed without rounding. *)
Lemma int_floor_float (Q : positive) (e : Z) :
  2 ^ 52 <= Zpos Q < 2 ^ 53 -> -52 <= e <= 900 ->
  int_of_float (math_floor (S754_finite false Q e))
  = Ok (if 0 <=? e then Zpos Q * 2 ^ e else Zpos Q / 2 ^ (- e)).
Proof.
  intros HQ He. unfold math_floor, floor_Z, cond_Zopp.
  set (N := if 0 <=? e then Zpos Q * 2 ^ e else Zpos Q / 2 ^ (- e)).
  assert (HN : 0 < N).
  { unfold N. destruct (Z.leb_spec 0 e).
    - assert (0 < 2 ^ e) by (apply Z.pow_pos_nonneg; lia). nia.
    - apply Z.div_str_pos. split; [apply Z.pow_pos_nonneg; lia|].
      assert (2 ^ (- e) <= 2 ^ 52) by (apply Z.pow_le_mono_r; lia). lia. }
  assert (Hdig : if 0 <=? e then Zdigits2 N = 53 + e else Zdigits2 N <= 53).
  { unfold N. destruct (Z.leb_spec 0 e) as [He0|He0].
    - apply Zdigits2_unique; [assumption|].
      replace (53 + e - 1) with (52 + e) by lia.
      rewrite !Z.pow_add_r by lia.
      assert (0 < 2 ^ e) by (apply Z.pow_pos_nonneg; lia). nia.
    - apply Zdigits2_le_53. split; [assumption|].
      apply Z.div_lt_upper_bound; [apply Z.pow_pos_nonneg; lia|].
      assert (0 < 2 ^ (- e)) by (apply Z.pow_pos_nonneg; lia). nia. }
  destruct (float_of_int_pos N HN) as [(mx & ex & Hr & Hmx & Hex & Hd53 & Hsmall & _ & Hbig)|[Hr Hd]].
  - unfold float_of_int in Hr.
    destruct (binary_normalize prec emax N 0 false) eqn:Hbn; try discriminate.
    injection Hr as -> -> ->.
    unfold int_of_float, cond_Zopp. f_equal.
    destruct (Z.leb_spec 0 ex) as [Hpos|Hneg].
    + destruct (Z.eq_dec ex 0) as [->|Hne].
      * specialize (Hsmall ltac:(lia)). simpl in Hsmall. lia.
      * apply Hbig; [lia|].
        destruct (Z.leb_spec 0 e) as [He0|He0]; [|lia].
        rewrite Hdig. replace (53 + e - 53) with e by lia.
        unfold N. destruct (Z.leb_spec 0 e); [|lia].
        apply Z.mod_mul. apply Z.pow_nonzero; lia.
    + specialize (Hsmall ltac:(lia)). rewrite Hsmall. apply Z.quot_mul.
      apply Z.pow_nonzero; lia.
  - exfalso. destruct (Z.leb_spec 0 e); lia.
Qed.

(** The arithmetic behind the seed: [X] is [float(n)], at most [E / 2] away
    from [n]; [Q] is the mantissa of its rounded square root, in units of
    [1 / T]; [k] is the integer part of that root, which is not an integer. *)
Lemma seed_core (n X k Q T T' E : Z) :
  1 <= T -> 2 ^ 52 = T * T' -> 2 ^ 52 <= Q ->
  k * T < Q < (k + 1) * T ->
  (2 * Q - 1) ^ 2 < 4 * (X * (T * T)) < (2 * Q + 1) ^ 2 ->
  2 * Z.abs (X - n) <= E -> (E = 0 \/ E * (T * T) <= 2 ^ 53) ->
  k * k < n < (k + 1) * (k + 1).
Proof.
  intros HT HTT HQ [Hk1 Hk2] [Hlo Hhi] Herr HE.
  rewrite !Z.pow_2_r in *.
  assert (Hk0 : 0 <= k) by nia.
  assert (HT' : 1 <= T') by nia.
  assert (HkT : T' <= k) by nia.
  assert (H53 : 2 ^ 53 = 2 * 2 ^ 52) by reflexivity.
  set (B := 2 ^ 52) in *. set (C := 2 ^ 53) in *. clearbody B C.
  (* the lower side *)
  assert (Hlo1 : (2 * (k * T) + 1) * (2 * (k * T) + 1) <= (2 * Q - 1) * (2 * Q - 1)) by nia.
  assert (Hlo2 : k * k * (T * T) + k * T + 1 <= X * (T * T)) by nia.
  (* the upper side *)
  assert (Hhi1 : (2 * Q + 1) * (2 * Q + 1)
                 <= (2 * ((k + 1) * T) - 1) * (2 * ((k + 1) * T) - 1)) by nia.
  assert (Hhi2 : X * (T * T) + (k + 1) * T <= (k + 1) * (k + 1) * (T * T)) by nia.
  assert (HTT0 : 0 < T * T) by nia.
  split.
  - destruct (Z_lt_le_dec (k * k) n) as [|Hc]; [assumption|exfalso].
    assert (HX : k * k < X) by nia.
    destruct HE as [HE|HE]; [lia|].
    assert (H1 : 2 * (X - k * k) <= E) by lia.
    assert (H2 : 2 * (X - k * k) * (T * T) <= E * (T * T)) by nia.
    nia.
  - destruct (Z_lt_le_dec n ((k + 1) * (k + 1))) as [|Hc]; [assumption|exfalso].
    assert (HX : X < (k + 1) * (k + 1)) by nia.
    destruct HE as [HE|HE]; [lia|].
    assert (H1 : 2 * ((k + 1) * (k + 1) - X) <= E) by lia.
    assert (H2 : 2 * ((k + 1) * (k + 1) - X) * (T * T) <= E * (T * T)) by nia.
    nia.
Qed.

(** When [precSqrt] takes [n] for a non-square, [a[0]] is the exact integer
    square root of [n], [n] is not a perfect square, and [a[0]] fits in 52
    bits. *)
Lemma seed_general (n : Z) (x : spec_float) (a0 : Z) :
  math_sqrt n = Ok x -> int_of_float (math_floor x) = Ok a0 ->
  float_eq_int x a0 = false ->
  a0 = Z.sqrt n /\ a0 * a0 < n /\ a0 < 2 ^ 52.
Proof.
  intros Hsqrt Hint Heq. unfold math_sqrt in Hsqrt.
  destruct (Z.lt_trichotomy n 0) as [Hneg|[->|Hpos]].
  - exfalso. destruct (float_of_int_neg n Hneg) as [(mx & ex & Hr)|[Hr _]];
      rewrite Hr in Hsqrt; discriminate.
  - exfalso. injection Hsqrt as <-. injection Hint as <-. discriminate.
  - destruct (float_of_int_pos n Hpos)
      as [(mx & ex & Hr & Hmx & Hex & _ & Hsmall & Hbig & _)|[Hr _]];
      rewrite Hr in Hsqrt; [|discriminate].
    assert (Hx : x = SFsqrt prec emax (S754_finite false mx ex))
      by (cbn [mbind result_bind] in Hsqrt; injection Hsqrt as <-; reflexivity).
    clear Hsqrt.
    destruct (SFsqrt_spec mx ex Hmx Hex) as (Q & HQeq & HQ & Hnear). cbv zeta in HQeq, Hnear.
    set (e' := ex / 2 - 26) in *.
    assert (He'ex : ex - 2 * e' = 52 \/ ex - 2 * e' = 53).
    { unfold e'. pose proof (Z.div_mod ex 2 ltac:(lia)).
      pose proof (Z.mod_pos_bound ex 2 ltac:(lia)). lia. }
    rewrite Hx, HQeq in Hint, Heq. clear Hx.
    rewrite int_floor_float in Hint by lia. injection Hint as <-.
    unfold float_eq_int, cond_Zopp in Heq.
    destruct (Z.leb_spec 0 e') as [He'|He'].
    { rewrite Z.eqb_refl in Heq. discriminate. }
    rewrite Z.eqb_refl, andb_true_r in Heq. apply Z.eqb_neq in Heq.
    set (t := - e') in *.
    assert (Ht : 1 <= t <= 52) by lia.
    set (T := 2 ^ t) in *.
    assert (HT : 2 <= T).
    { unfold T. change 2 with (2 ^ 1) at 1. apply Z.pow_le_mono_r; lia. }
    assert (HTT' : 2 ^ 52 = T * 2 ^ (52 - t)).
    { unfold T. rewrite <- Z.pow_add_r by lia. f_equal. lia. }
    assert (HTT : T * T = 2 ^ (2 * t)).
    { unfold T. rewrite <- Z.pow_add_r by lia. f_equal. lia. }
    pose proof (Z.div_mod (Zpos Q) T ltac:(lia)) as Hdm.
    pose proof (Z.mod_pos_bound (Zpos Q) T ltac:(lia)) as Hmod.
    set (k := Zpos Q / T) in *.
    assert (Hk : k * T < Zpos Q < (k + 1) * T) by lia.
    assert (Hcore : k * k < n < (k + 1) * (k + 1)).
    { destruct (Z_le_gt_dec ex 0) as [Hex0|Hex0].
      - specialize (Hsmall Hex0).
        assert (H1 : (2 * Zpos Q - 1) ^ 2 < 4 * (n * (T * T)) < (2 * Zpos Q + 1) ^ 2).
        { replace (n * (T * T)) with (Zpos mx * 2 ^ (ex - 2 * e')); [exact Hnear|].
          rewrite Hsmall, HTT, <- Z.mul_assoc, <- Z.pow_add_r by lia. f_equal. f_equal. lia. }
        apply (seed_core n n k (Zpos Q) T (2 ^ (52 - t)) 0); try assumption; lia.
      - assert (H1 : (2 * Zpos Q - 1) ^ 2 < 4 * (Zpos mx * 2 ^ ex * (T * T))
                     < (2 * Zpos Q + 1) ^ 2).
        { replace (Zpos mx * 2 ^ ex * (T * T)) with (Zpos mx * 2 ^ (ex - 2 * e')); [exact Hnear|].
          rewrite HTT, <- Z.mul_assoc, <- Z.pow_add_r by lia. f_equal. f_equal. lia. }
        assert (H2 : 2 * Z.abs (Zpos mx * 2 ^ ex - n) <= 2 ^ ex) by (apply Hbig; lia).
        assert (H3 : 2 ^ ex = 0 \/ 2 ^ ex * (T * T) <= 2 ^ 53).
        { right. rewrite HTT, <- Z.pow_add_r by lia. apply Z.pow_le_mono_r; lia. }
        apply (seed_core n (Zpos mx * 2 ^ ex) k (Zpos Q) T (2 ^ (52 - t)) (2 ^ ex));
          try assumption; lia. }
    assert (Hk0 : 0 <= k) by (apply Z.div_pos; lia).
    split; [|split].
    + symmetry. apply Z.sqrt_unique. lia.
    + lia.
    + assert (2 ^ 53 = 2 * 2 ^ 52) by reflexivity. nia.
Qed.

(** ** The store *)

Lemma prog_bind_unfold {A B : Type} (p : prog A) (k : A -> prog B) (σ : store) :
  (p ≫= k) σ =
  match p σ with
  | Ok (x, σ') => k x σ'
  | Raise e => Raise e
  | OutOfFuel => OutOfFuel
  end.
Proof. reflexivity. Qed.

Lemma prog_bind_Ok {A B : Type} (p : prog A) (k : A -> prog B) (σ σ' : store) (x : A) :
  p σ = Ok (x, σ') -> (p ≫= k) σ = k x σ'.
Proof. intros H. rewrite prog_bind_unfold, H. reflexivity. Qed.

Lemma prog_bind_Raise {A B : Type} (p : prog A) (k : A -> prog B) (σ : store) (e : exn) :
  p σ = Raise e -> (p ≫= k) σ = Raise e.
Proof. intros H. rewrite prog_bind_unfold, H. reflexivity. Qed.

Lemma lift_Ok {A : Type} (x : A) (σ : store) : lift (Ok x) σ = Ok (x, σ).
Proof. reflexivity. Qed.

Lemma lift_bind {A B : Type} (r : result A) (k : A -> prog B) (σ : store) :
  (lift r ≫= k) σ =
  match r with
  | Ok x => k x σ
  | Raise e => Raise e
  | OutOfFuel => OutOfFuel
  end.
Proof. destruct r; reflexivity. Qed.

Lemma new_Ratio_bind {B : Type} (n d : Z) (k : ref -> prog B) (σ : store) :
  (new_Ratio n d ≫= k) σ = k (length σ) (σ ++ [mkRatio n d]).
Proof. reflexivity. Qed.

Lemma get_Ok (r : ref) (v : Ratio) (σ : store) :
  σ !! r = Some v -> get r σ = Ok (v, σ).
Proof. intros H. unfold get. now rewrite H. Qed.

Lemma keeps_refl (b : nat) (σ : store) : keeps b σ σ.
Proof. split; [lia | reflexivity]. Qed.

Lemma keeps_trans (b : nat) (σ1 σ2 σ3 : store) :
  keeps b σ1 σ2 -> keeps b σ2 σ3 -> keeps b σ1 σ3.
Proof.
  intros [H1 H2] [H3 H4]. split; [lia|].
  intros p Hp. rewrite H4, H2 by assumption. reflexivity.
Qed.

Lemma keeps_le (b b' : nat) (σ σ' : store) :
  (b' <= b)%nat -> keeps b σ σ' -> keeps b' σ σ'.
Proof. intros Hb [H1 H2]. split; [assumption|]. intros p Hp. apply H2. lia. Qed.

Lemma keeps_alloc (b : nat) (σ : store) (v : Ratio) :
  (b <= length σ)%nat -> keeps b σ (σ ++ [v]).
Proof.
  intros Hb. split; [rewrite length_app; simpl; lia|].
  intros p Hp. apply lookup_app_l. lia.
Qed.

Lemma keeps_insert (b : nat) (σ : store) (c : ref) (v : Ratio) :
  (b <= c)%nat -> keeps b σ (<[c := v]> σ).
Proof.
  intros Hb. split; [rewrite length_insert; lia|].
  intros p Hp. apply list_lookup_insert_ne. lia.
Qed.

Lemma keeps_lookup (b : nat) (σ σ' : store) (p : ref) (v : Ratio) :
  keeps b σ σ' -> (p < b)%nat -> σ !! p = Some v -> σ' !! p = Some v.
Proof. intros [_ H] Hp Hv. now rewrite H. Qed.

(** [Ratio(n, d)] makes a new object and touches no other. *)
Lemma new_Ratio_spec (n d : Z) (σ : store) :
  exists (r : ref) (σ' : store),
    new_Ratio n d σ = Ok (r, σ') /\ r = length σ /\ σ' = σ ++ [mkRatio n d] /\
    σ' !! r = Some (mkRatio n d).
Proof.
  exists (length σ), (σ ++ [mkRatio n d]). repeat split.
  apply list_lookup_middle. reflexivity.
Qed.

(** [Ratio.rec] on a live object: the swap, in place, and no exception. *)
Lemma rec_spec (c : ref) (cv : Ratio) (σ : store) :
  σ !! c = Some cv ->
  RatioObj.rec c σ = Ok (tt, <[c := Ratio_rec cv]> σ).
Proof.
  intros Hc. pose proof (lookup_lt_Some _ _ _ Hc) as Hlt.
  unfold RatioObj.rec.
  rewrite (prog_bind_Ok _ _ _ _ _ (get_Ok _ _ _ Hc)).
  unfold set_num at 1. rewrite prog_bind_unfold, Hc.
  unfold set_den. rewrite list_lookup_insert_eq by assumption.
  rewrite list_insert_insert_eq. reflexivity.
Qed.

(** [Ratio.__add__] on live objects: a new object for the sum. *)
Lemma add_spec (s o : ref) (sv ov : Ratio) (σ : store) :
  σ !! s = Some sv -> σ !! o = Some ov ->
  RatioObj.add s o σ =
  match Ratio_add sv ov with
  | Ok v => Ok (length σ, σ ++ [v])
  | Raise e => Raise e
  | OutOfFuel => OutOfFuel
  end.
Proof.
  intros Hs Ho. unfold RatioObj.add.
  rewrite (prog_bind_Ok _ _ _ _ _ (get_Ok _ _ _ Hs)).
  rewrite (prog_bind_Ok _ _ _ _ _ (get_Ok _ _ _ Ho)).
  rewrite prog_bind_unfold.
  destruct (Ratio_add sv ov) as [[vn vd]| |]; reflexivity.
Qed.

Lemma sub_spec (s o : ref) (sv ov : Ratio) (σ : store) :
  σ !! s = Some sv -> σ !! o = Some ov ->
  RatioObj.sub s o σ =
  match Ratio_sub sv ov with
  | Ok v => Ok (S (length σ), σ ++ [mkRatio (- num ov) (den ov)] ++ [v])
  | Raise e => Raise e
  | OutOfFuel => OutOfFuel
  end.
Proof.
  intros Hs Ho. unfold RatioObj.sub.
  rewrite (prog_bind_Ok _ _ _ _ _ (get_Ok _ _ _ Ho)).
  rewrite prog_bind_unfold. unfold new_Ratio at 1.
  rewrite (add_spec s (length σ) sv (mkRatio (- num ov) (den ov))).
  - unfold Ratio_sub. destruct (Ratio_add sv _) as [v| |]; try reflexivity.
    rewrite length_app, <- app_assoc. simpl. do 2 f_equal. lia.
  - apply lookup_app_l_Some. assumption.
  - apply list_lookup_middle. reflexivity.
Qed.

Lemma abs_spec (s : ref) (sv : Ratio) (σ : store) :
  σ !! s = Some sv ->
  RatioObj.abs s σ = Ok (length σ, σ ++ [Ratio_abs sv]).
Proof.
  intros Hs. unfold RatioObj.abs.
  rewrite (prog_bind_Ok _ _ _ _ _ (get_Ok _ _ _ Hs)). reflexivity.
Qed.

Lemma lt_spec (s o : ref) (sv ov : Ratio) (σ : store) :
  σ !! s = Some sv -> σ !! o = Some ov ->
  RatioObj.lt s o σ =
  match Ratio_lt sv ov with
  | Ok t => Ok (t, σ)
  | Raise e => Raise e
  | OutOfFuel => OutOfFuel
  end.
Proof.
  intros Hs Ho. unfold RatioObj.lt.
  rewrite (prog_bind_Ok _ _ _ _ _ (get_Ok _ _ _ Hs)).
  rewrite (prog_bind_Ok _ _ _ _ _ (get_Ok _ _ _ Ho)).
  reflexivity.
Qed.

(** ** [precSqrt] computes on the values of its objects *)

(** The inner loop: it computes [fold_convergent_val] on the value of [c],
    and every object below [b <= c] keeps its fields. *)
Lemma fold_convergent_sim (a : list Z) (idx : list nat) :
  forall (c : ref) (cv : Ratio) (σ : store) (b : nat),
    σ !! c = Some cv -> (b <= c)%nat ->
    match fold_convergent_val a idx cv with
    | Ok r => exists (c' : ref) (σ' : store),
        fold_convergent a idx c σ = Ok (c', σ') /\ σ' !! c' = Some r /\
        (b <= c')%nat /\ keeps b σ σ'
    | Raise e => fold_convergent a idx c σ = Raise e
    | OutOfFuel => fold_convergent a idx c σ = OutOfFuel
    end.
Proof.
  induction idx as [|i idx IH]; intros c cv σ b Hc Hb; simpl.
  - exists c, σ. split; [reflexivity|]. split; [assumption|].
    split; [assumption | apply keeps_refl].
  - pose proof (lookup_lt_Some _ _ _ Hc) as Hlt.
    rewrite (prog_bind_Ok _ _ _ _ _ (rec_spec _ _ _ Hc)).
    rewrite lift_bind.
    destruct (index a i) as [ai| |] eqn:Hi; simpl; [|reflexivity|reflexivity].
    rewrite new_Ratio_bind.
    set (σ1 := <[c := Ratio_rec cv]> σ).
    assert (Hc1 : (σ1 ++ [mkRatio ai 1]) !! c = Some (Ratio_rec cv)).
    { apply lookup_app_l_Some. apply list_lookup_insert_eq. assumption. }
    assert (Ht1 : (σ1 ++ [mkRatio ai 1]) !! length σ1 = Some (mkRatio ai 1)).
    { apply list_lookup_middle. reflexivity. }
    rewrite (prog_bind_unfold (RatioObj.add _ _)), (add_spec _ _ _ _ _ Hc1 Ht1).
    destruct (Ratio_add (Ratio_rec cv) (mkRatio ai 1)) as [v| |] eqn:Hadd; simpl;
      [|reflexivity|reflexivity].
    set (σ2 := σ1 ++ [mkRatio ai 1]) in *.
    assert (Hlen1 : length σ1 = length σ) by apply length_insert.
    assert (Hlen2 : length σ2 = S (length σ)).
    { unfold σ2. rewrite length_app, Hlen1. simpl. lia. }
    assert (Hv : (σ2 ++ [v]) !! length σ2 = Some v).
    { apply list_lookup_middle. reflexivity. }
    assert (Hb' : (b <= length σ2)%nat) by lia.
    specialize (IH (length σ2) v (σ2 ++ [v]) b Hv Hb').
    destruct (fold_convergent_val a idx v) as [r| |]; [|assumption|assumption].
    destruct IH as (c' & σ' & Hrun & Hr & Hbc & Hk).
    exists c', σ'. split; [assumption|]. split; [assumption|].
    split; [assumption|]. split.
    + destruct Hk as [Hk _]. rewrite length_app, Hlen2 in Hk. simpl in Hk. lia.
    + intros p Hp. destruct Hk as [_ Hk]. rewrite Hk by assumption.
      rewrite lookup_app_l by lia.
      unfold σ2. rewrite lookup_app_l by lia.
      apply list_lookup_insert_ne. lia.
Qed.

(** Lines 145 to 148 keep every object that was there before. *)
Lemma convergent_sim (a : list Z) (σ : store) :
  match convergent_val a with
  | Ok r => exists (c : ref) (σ' : store),
      convergent a σ = Ok (c, σ') /\ σ' !! c = Some r /\
      (length σ <= c)%nat /\ keeps (length σ) σ σ'
  | Raise e => convergent a σ = Raise e
  | OutOfFuel => convergent a σ = OutOfFuel
  end.
Proof.
  unfold convergent_val, convergent.
  rewrite lift_bind.
  destruct (index_last a) as [l| |]; simpl; [|reflexivity|reflexivity].
  rewrite new_Ratio_bind.
  assert (Hc : (σ ++ [mkRatio l 1]) !! length σ = Some (mkRatio l 1)).
  { apply list_lookup_middle. reflexivity. }
  pose proof (fold_convergent_sim a (reversed_range (length a - 1)) _ _ _
                (length σ) Hc (Nat.le_refl _)) as H.
  destruct (fold_convergent_val a _ (mkRatio l 1)) as [r| |]; [|assumption|assumption].
  destruct H as (c & σ' & Hrun & Hr & Hbc & Hk).
  exists c, σ'. split; [assumption|]. split; [assumption|].
  split; [assumption|]. split.
  - destruct Hk as [Hk _]. rewrite length_app in Hk. simpl in Hk. lia.
  - intros p Hp. destruct Hk as [_ Hk]. rewrite Hk by assumption.
    apply lookup_app_l. assumption.
Qed.

(** The test of line 150 reads [pc] and [c] and changes no object. *)
Lemma converged_sim (dig : Z) (pc : option ref) (pcv : option Ratio)
    (c : ref) (cv : Ratio) (σ : store) :
  σ !! c = Some cv ->
  match pc, pcv with
  | None, None => True
  | Some p, Some r => σ !! p = Some r
  | _, _ => False
  end ->
  match converged_val dig pcv cv with
  | Ok t => exists σ' : store,
      converged dig pc c σ = Ok (t, σ') /\ keeps (length σ) σ σ'
  | Raise e => converged dig pc c σ = Raise e
  | OutOfFuel => converged dig pc c σ = OutOfFuel
  end.
Proof.
  intros Hc Hpc. destruct pc as [p|], pcv as [r|]; try contradiction; simpl.
  - rewrite (prog_bind_unfold (RatioObj.sub _ _)), (sub_spec _ _ _ _ _ Hc Hpc).
    destruct (Ratio_sub cv r) as [diff| |]; simpl; [|reflexivity|reflexivity].
    change ([mkRatio (- num r) (den r)] ++ [diff])
      with ([mkRatio (- num r) (den r); diff]).
    set (σ1 := σ ++ [mkRatio (- num r) (den r); diff]).
    assert (Hlen1 : length σ1 = S (S (length σ))).
    { unfold σ1. rewrite !length_app. simpl. lia. }
    assert (Hd : σ1 !! S (length σ) = Some diff).
    { unfold σ1. change [mkRatio (- num r) (den r); diff]
        with ([mkRatio (- num r) (den r)] ++ [diff]).
      rewrite app_assoc. apply list_lookup_middle.
      rewrite length_app. simpl. lia. }
    rewrite (prog_bind_unfold (RatioObj.abs _)), (abs_spec _ _ _ Hd).
    rewrite new_Ratio_bind.
    set (σ2 := σ1 ++ [Ratio_abs diff]).
    set (tol := mkRatio 1 (one_and_zeros (dig + 1))).
    assert (Hab : (σ2 ++ [tol]) !! length σ1 = Some (Ratio_abs diff)).
    { apply lookup_app_l_Some. apply list_lookup_middle. reflexivity. }
    assert (Htol : (σ2 ++ [tol]) !! length σ2 = Some tol).
    { apply list_lookup_middle. reflexivity. }
    rewrite (lt_spec _ _ _ _ _ Hab Htol).
    destruct (Ratio_lt (Ratio_abs diff) tol) as [t| |]; [|reflexivity|reflexivity].
    eexists. split; [reflexivity|].
    split.
    + unfold σ2. rewrite !length_app, Hlen1. simpl. lia.
    + intros q Hq. unfold σ2, σ1. rewrite <- !app_assoc. apply lookup_app_l. assumption.
  - exists σ. split; [reflexivity | apply keeps_refl].
Qed.

(** Lines 152 to 154: the snapshot is a new object with the fields of [c]. *)
Lemma snapshot_spec (c : ref) (cv : Ratio) (σ : store) :
  σ !! c = Some cv ->
  exists (pc : ref) (σ' : store),
    snapshot c σ = Ok (pc, σ') /\ pc = length σ /\ pc <> c /\
    σ' !! pc = Some cv /\ σ' !! c = Some cv /\ keeps (length σ) σ σ'.
Proof.
  intros Hc. pose proof (lookup_lt_Some _ _ _ Hc) as Hlt.
  exists (length σ), (σ ++ [cv]).
  assert (Hrun : snapshot c σ = Ok (length σ, σ ++ [cv])).
  { unfold snapshot. rewrite new_Ratio_bind.
    set (σ1 := σ ++ [mkRatio 0 1]).
    assert (Hc1 : σ1 !! c = Some cv) by (apply lookup_app_l_Some; assumption).
    assert (Hp1 : σ1 !! length σ = Some (mkRatio 0 1))
      by (apply list_lookup_middle; reflexivity).
    assert (Hl1 : (length σ < length σ1)%nat) by (apply lookup_lt_Some in Hp1; assumption).
    rewrite (prog_bind_Ok _ _ _ _ _ (get_Ok _ _ _ Hc1)).
    rewrite (prog_bind_unfold (set_num _ _)). unfold set_num at 1. rewrite Hp1. simpl den.
    set (σ2 := <[length σ := mkRatio (num cv) 1]> σ1).
    assert (Hc2 : σ2 !! c = Some cv).
    { unfold σ2. rewrite list_lookup_insert_ne by lia. assumption. }
    rewrite (prog_bind_Ok _ _ _ _ _ (get_Ok _ _ _ Hc2)).
    rewrite (prog_bind_unfold (set_den _ _)). unfold set_den.
    unfold σ2 at 1. rewrite list_lookup_insert_eq by assumption. simpl num.
    unfold σ2. rewrite list_insert_insert_eq. unfold σ1.
    unfold mret, prog_ret. do 2 f_equal.
    replace (length σ) with (length σ + 0)%nat at 1 by lia.
    rewrite insert_app_r. simpl. now destruct cv. }
  split; [exact Hrun|]. split; [reflexivity|]. split; [lia|].
  split; [apply list_lookup_middle; reflexivity|].
  split; [apply lookup_app_l_Some; assumption|].
  apply keeps_alloc. lia.
Qed.

Lemma round_sim (n dig : Z) (v : vars) (w : vals) (σ : store) :
  holds σ v w ->
  match round_val n dig w with
  | Ok (inl w') => exists (v' : vars) (σ' : store),
      round n dig v σ = Ok (inl v', σ') /\ holds σ' v' w' /\ keeps (length σ) σ σ'
  | Ok (inr cv) => exists (c : ref) (σ' : store),
      round n dig v σ = Ok (inr c, σ') /\ σ' !! c = Some cv /\ keeps (length σ) σ σ'
  | Raise e => round n dig v σ = Raise e
  | OutOfFuel => round n dig v σ = OutOfFuel
  end.
Proof.
  intros (Hm & Hd & Ha & Hpc). unfold round_val, round.
  rewrite Hm, Hd, Ha, lift_bind.
  destruct (advance n (w_m w) (w_d w) (w_a w)) as [[[m d] a]| |]; simpl;
    [|reflexivity|reflexivity].
  rewrite (prog_bind_unfold (convergent a)).
  pose proof (convergent_sim a σ) as Hconv.
  destruct (convergent_val a) as [cv| |]; simpl;
    [|rewrite Hconv; reflexivity|rewrite Hconv; reflexivity].
  destruct Hconv as (c & σ1 & Hrun1 & Hc1 & Hbc & Hk1). rewrite Hrun1.
  rewrite (prog_bind_unfold (converged _ _ _)).
  assert (Hpc1 : match v_pc v, w_pc w with
                 | None, None => True
                 | Some p, Some r => σ1 !! p = Some r
                 | _, _ => False
                 end).
  { destruct (v_pc v) as [p|], (w_pc w) as [r|]; try assumption.
    apply (keeps_lookup _ _ _ _ _ Hk1); [|assumption].
    apply lookup_lt_Some in Hpc. assumption. }
  pose proof (converged_sim dig (v_pc v) (w_pc w) c cv σ1 Hc1 Hpc1) as Htest.
  destruct (converged_val dig (w_pc w) cv) as [stop| |]; simpl;
    [|rewrite Htest; reflexivity|rewrite Htest; reflexivity].
  destruct Htest as (σ2 & Hrun2 & Hk2). rewrite Hrun2.
  assert (Hk12 : keeps (length σ) σ σ2).
  { apply (keeps_trans _ _ σ1); [assumption|].
    apply (keeps_le (length σ1)); [apply Hk1 | assumption]. }
  assert (Hc2 : σ2 !! c = Some cv).
  { apply (keeps_lookup _ _ _ _ _ Hk2); [|assumption].
    apply lookup_lt_Some in Hc1. assumption. }
  destruct stop.
  - exists c, σ2. split; [reflexivity|]. split; assumption.
  - destruct (snapshot_spec c cv σ2 Hc2) as (pc & σ3 & Hrun3 & Hpc3 & Hne & Hp3 & Hc3 & Hk3).
    rewrite (prog_bind_Ok _ _ _ _ _ Hrun3).
    eexists. exists σ3. split; [reflexivity|]. split.
    + repeat split; simpl. assumption.
    + apply (keeps_trans _ _ σ2); [assumption|].
      apply (keeps_le (length σ2)); [apply Hk12 | assumption].
Qed.

Lemma loop_sim (n dig : Z) (fuel : nat) :
  forall (v : vars) (w : vals) (σ : store),
    holds σ v w ->
    match loop_val fuel n dig w with
    | Ok cv => exists (c : ref) (σ' : store),
        loop fuel n dig v σ = Ok (c, σ') /\ σ' !! c = Some cv /\ keeps (length σ) σ σ'
    | Raise e => loop fuel n dig v σ = Raise e
    | OutOfFuel => loop fuel n dig v σ = OutOfFuel
    end.
Proof.
  induction fuel as [|fuel IH]; intros v w σ Hh; simpl; [reflexivity|].
  rewrite (prog_bind_unfold (round n dig v)).
  pose proof (round_sim n dig v w σ Hh) as Hr.
  destruct (round_val n dig w) as [[w'|cv]| |]; simpl.
  - destruct Hr as (v' & σ1 & Hrun & Hh' & Hk). rewrite Hrun.
    specialize (IH v' w' σ1 Hh').
    destruct (loop_val fuel n dig w') as [cv| |]; try assumption.
    destruct IH as (c & σ2 & Hrun2 & Hc & Hk2).
    exists c, σ2. split; [assumption|]. split; [assumption|].
    apply (keeps_trans _ _ σ1); [assumption|].
    apply (keeps_le (length σ1)); [apply Hk | assumption].
  - destruct Hr as (c & σ1 & Hrun & Hc & Hk). rewrite Hrun.
    exists c, σ1. split; [reflexivity|]. split; assumption.
  - rewrite Hr. reflexivity.
  - rewrite Hr. reflexivity.
Qed.

(** [precSqrt] is the computation on values. *)
Lemma precSqrt_values (fuel : nat) (n dig : Z) :
  precSqrt fuel n dig = precSqrt_val fuel n dig.
Proof.
  unfold precSqrt, precSqrt_body, precSqrt_val.
  rewrite lift_bind.
  destruct (math_sqrt n) as [x| |]; simpl; [|reflexivity|reflexivity].
  rewrite lift_bind.
  destruct (int_of_float (math_floor x)) as [a0| |]; simpl; [|reflexivity|reflexivity].
  rewrite lift_bind.
  destruct (float_eq_int x a0); [reflexivity|].
  rewrite (prog_bind_unfold (loop _ _ _ _)).
  assert (Hh : holds [] (mkVars 0 1 [a0] None) (mkVals 0 1 [a0] None))
    by (repeat split).
  pose proof (loop_sim n dig fuel _ _ [] Hh) as Hl.
  destruct (loop_val fuel n dig _) as [cv| |]; simpl;
    [|rewrite Hl; reflexivity|rewrite Hl; reflexivity].
  destruct Hl as (c & σ' & Hrun & Hc & _). rewrite Hrun.
  rewrite (prog_bind_Ok _ _ _ _ _ (get_Ok _ _ _ Hc)).
  rewrite lift_bind.
  destruct (py_div (num cv * one_and_zeros dig) (den cv)); reflexivity.
Qed.

(** ** The recurrence for [m], [d] and [a] *)

Lemma cf_first_step (n a0 : Z) :
  0 <= a0 -> a0 * a0 < n -> n < (a0 + 1) * (a0 + 1) ->
  let m' := 1 * a0 - 0 in
  let d' := (n - m' ^ 2) / 1 in
  m' = a0 /\ 1 <= d' /\ n - m' * m' = 1 * d' /\ a0 < m' + d' /\ d' <= a0 + m' /\ 1 <= a0.
Proof.
  intros H0 Hlo Hhi. cbv zeta. rewrite Z.div_1_r.
  replace (1 * a0 - 0) with a0 by ring. nia.
Qed.

Lemma cf_step_arith (n a0 m d e : Z) :
  0 <= a0 -> a0 * a0 < n -> n < (a0 + 1) * (a0 + 1) ->
  0 <= m <= a0 -> 1 <= d -> n - m * m = e * d -> a0 < m + d -> d <= a0 + m ->
  let q := (a0 + m) / d in
  let m' := d * q - m in
  let d' := (n - m' ^ 2) / d in
  1 <= q /\ 1 <= m' <= a0 /\ 1 <= d' /\ n - m' * m' = d * d' /\
  a0 < m' + d' /\ d' <= a0 + m'.
Proof.
  intros H0 Hlo Hhi Hm Hd He Hmd Hdm. cbv zeta.
  set (q := (a0 + m) / d).
  assert (Hq1 : d * q <= a0 + m) by (apply Z.mul_div_le; lia).
  assert (Hq2 : a0 + m < d * q + d).
  { pose proof (Z.mul_succ_div_gt (a0 + m) d ltac:(lia)). fold q in H. lia. }
  assert (Hq : 1 <= q) by (apply Z.div_le_lower_bound; lia).
  clearbody q.
  set (m' := d * q - m).
  assert (Hm'hi : m' <= a0) by (unfold m'; lia).
  assert (Hm'lo : 1 <= m').
  { unfold m'. destruct (Z_lt_le_dec (d * q - m) 1) as [Hc|Hc]; [exfalso|assumption]. nia. }
  assert (Hm'd : a0 < m' + d) by (unfold m'; lia).
  assert (Hdm' : d <= a0 + m') by (unfold m'; nia).
  assert (Hex : n - m' ^ 2 = (e - q * (d * q - 2 * m)) * d).
  { unfold m'. replace (n - (d * q - m) ^ 2) with ((n - m * m) - q * (d * q - 2 * m) * d) by ring.
    rewrite He. ring. }
  rewrite Hex, Z.div_mul by lia.
  set (d' := e - q * (d * q - 2 * m)) in *.
  assert (Hdd : n - m' * m' = d * d') by (rewrite <- Z.pow_2_r, Hex; ring).
  clearbody d' m'. clear Hex He e Hq1 Hq2 Hm Hmd Hdm.
  assert (Hd' : 1 <= d') by nia.
  repeat split; try lia.
  - (* a0 < m' + d' *)
    destruct (Z_lt_le_dec a0 (m' + d')) as [|Hc]; [assumption|exfalso].
    assert (H1 : d * d' <= d * (a0 - m')) by nia.
    assert (H2 : 0 <= (a0 - m') * (a0 + m' - d)) by nia. nia.
  - (* d' <= a0 + m' *)
    destruct (Z_le_gt_dec d' (a0 + m')) as [|Hc]; [assumption|exfalso].
    assert (H1 : (a0 + 1) * (a0 + 1) <= (d' - m') * (d' - m')) by nia.
    assert (H2 : d + 2 * m' < d') by nia.
    assert (H3 : (a0 + 1) * (a0 + 1) <= (m' + d) * (m' + d)) by nia.
    nia.
Qed.

Lemma List_last_stdpp (a : list Z) (x : Z) : last a = Some x -> List.last a 0 = x.
Proof.
  intros H. apply last_Some in H. destruct H as [a' ->]. apply List.last_last.
Qed.

Lemma sqrt_nonsquare_bounds (n : Z) :
  Z.sqrt n * Z.sqrt n < n ->
  1 <= Z.sqrt n /\ n < (Z.sqrt n + 1) * (Z.sqrt n + 1).
Proof.
  intros Hn. pose proof (Z.sqrt_nonneg n) as H0.
  assert (Hpos : 0 <= n) by nia.
  pose proof (Z.sqrt_spec n Hpos) as Hs. cbv zeta in Hs.
  split; [|lia].
  destruct (Z.eq_dec (Z.sqrt n) 0) as [E|E]; [|lia].
  rewrite E in Hs. lia.
Qed.

Lemma cf_state_inv (n : Z) (k : nat) :
  Z.sqrt n * Z.sqrt n < n ->
  let '(m, d, a) := cf_state n (S k) in cf_inv n (S k) m d a.
Proof.
  intros Hn. destruct (sqrt_nonsquare_bounds n Hn) as [Ha0 Hhi].
  induction k as [|k IH].
  - simpl. destruct (cf_first_step n (Z.sqrt n) ltac:(lia) Hn Hhi) as (Hm & Hd & He & H1 & H2 & _).
    cbv zeta in Hm, Hd, He, H1, H2.
    set (m := 1 * Z.sqrt n - 0) in *. set (d := (n - m ^ 2) / 1) in *.
    assert (Hq : 1 <= (Z.sqrt n + m) / d <= 2 * Z.sqrt n).
    { split; [apply Z.div_le_lower_bound; lia|].
      apply Z.div_le_upper_bound; [lia|]. nia. }
    unfold cf_inv. repeat split; try lia.
    + exists 1. lia.
    + repeat constructor; lia.
  - remember (S k) as k1. simpl.
    destruct (cf_state n k1) as [[m d] a].
    destruct IH as (Hm & Hd & [e He] & H1 & H2 & Hhd & Hlast & Hlen & Hall).
    rewrite (List_last_stdpp _ _ Hlast).
    destruct (cf_step_arith n (Z.sqrt n) m d e ltac:(lia) Hn Hhi ltac:(lia) Hd He H1 H2)
      as (Hq & Hm' & Hd' & He' & H1' & H2').
    cbv zeta in Hq, Hm', Hd', He', H1', H2'.
    set (q := (Z.sqrt n + m) / d) in *.
    set (m' := d * q - m) in *. set (d' := (n - m' ^ 2) / d) in *.
    assert (Hq' : 1 <= (Z.sqrt n + m') / d' <= 2 * Z.sqrt n).
    { split; [apply Z.div_le_lower_bound; lia|].
      apply Z.div_le_upper_bound; [lia|]. nia. }
    unfold cf_inv. repeat split; try lia.
    + exists d. lia.
    + apply lookup_app_l_Some. assumption.
    + apply last_snoc.
    + rewrite length_app, Hlen. simpl. lia.
    + apply Forall_app. split; [assumption|]. repeat constructor; lia.
Qed.

(** Lines 141 to 143 compute the recurrence: no division by zero, no
    rounding in [int(floor(...))]. *)
Lemma advance_cf (n : Z) (k : nat) :
  Z.sqrt n * Z.sqrt n < n -> Z.sqrt n < 2 ^ 52 ->
  let '(m, d, a) := cf_state n k in advance n m d a = Ok (cf_state n (S k)).
Proof.
  intros Hn Hb. destruct (sqrt_nonsquare_bounds n Hn) as [Ha0 Hhi].
  pose proof (cf_state_inv n k Hn) as Hnext.
  assert (Hcur : let '(m, d, a) := cf_state n k in
                 1 <= d /\ a !! 0%nat = Some (Z.sqrt n) /\ exists l, last a = Some l).
  { destruct k as [|k]; simpl.
    - split; [lia|]. split; [reflexivity|]. eexists. reflexivity.
    - pose proof (cf_state_inv n k Hn) as H. simpl in H.
      destruct (cf_state n k) as [[m d] a].
      destruct H as (_ & Hd & _ & _ & _ & Hhd & Hlast & _). split; [assumption|].
      split; [assumption|]. eexists. eassumption. }
  simpl in Hnext. simpl cf_state. destruct (cf_state n k) as [[m d] a].
  destruct Hcur as (Hd & Hhd & l & Hlast).
  rewrite (List_last_stdpp _ _ Hlast) in *.
  destruct Hnext as (Hm' & Hd' & _ & _ & Hdm' & _ & _ & _ & Hall).
  unfold advance, index_last, index. rewrite Hlast, Hhd. simpl.
  set (m' := d * l - m) in *.
  rewrite py_div_Ok by lia. simpl.
  set (d' := (n - m' ^ 2) / d) in *.
  rewrite py_div_Ok by lia. simpl.
  apply Forall_app in Hall. destruct Hall as [_ Hq].
  inversion Hq as [|? ? Hq1 _]; subst.
  assert (H53 : 2 ^ 53 = 2 * 2 ^ 52) by reflexivity.
  rewrite int_floor_int_exact by lia. reflexivity.
Qed.

(** ** Convergents *)

Lemma continuant_snoc (a : list Z) (x : Z) :
  continuant (a ++ [x]) =
  let '(p, q, p', q') := continuant a in (x * p + p', x * q + q', p, q).
Proof.
  induction a as [|y a IH]; simpl.
  - repeat (apply (f_equal2 pair)); ring.
  - rewrite IH. destruct (continuant a) as [[[p q] p'] q'].
    repeat (apply (f_equal2 pair)); ring.
Qed.

Lemma continuant_det (a : list Z) :
  let '(p, q, p', q') := continuant a in
  p * q' - p' * q = 1 \/ p * q' - p' * q = -1.
Proof.
  induction a as [|x a IH]; simpl.
  - left. reflexivity.
  - destruct (continuant a) as [[[p q] p'] q'].
    destruct IH as [IH|IH]; [right|left]; nia.
Qed.

Lemma continuant_pos (a : list Z) :
  a <> [] -> Forall (fun x => 1 <= x) a ->
  let '(p, q, p', q') := continuant a in
  1 <= p /\ 1 <= q /\ 1 <= p' /\ 0 <= q' /\ ((2 <= length a)%nat -> 1 <= q').
Proof.
  induction a as [|x a IH]; intros Hne Hall; [contradiction|].
  inversion Hall as [|? ? Hx Hall']; subst. simpl.
  destruct a as [|y a].
  - simpl. repeat split; intros; simpl in *; lia.
  - specialize (IH ltac:(discriminate) Hall').
    destruct (continuant (y :: a)) as [[[p q] p'] q'].
    destruct IH as (Hp & Hq & Hp' & Hq' & _).
    repeat split; intros; nia.
Qed.

Lemma conv_snoc (a : list Z) (x : Z) :
  conv_num (a ++ [x]) = x * conv_num a + prev_num a /\
  conv_den (a ++ [x]) = x * conv_den a + prev_den a /\
  prev_num (a ++ [x]) = conv_num a /\
  prev_den (a ++ [x]) = conv_den a.
Proof.
  unfold conv_num, conv_den, prev_num, prev_den. rewrite continuant_snoc.
  destruct (continuant a) as [[[p q] p'] q']. repeat split.
Qed.

Lemma conv_cons (x : Z) (a : list Z) :
  conv_num (x :: a) = x * conv_num a + conv_den a /\
  conv_den (x :: a) = conv_num a.
Proof.
  unfold conv_num, conv_den. simpl.
  destruct (continuant a) as [[[p q] p'] q']. split; reflexivity.
Qed.

Lemma reversed_range_S (k : nat) : reversed_range (S k) = k :: reversed_range k.
Proof. unfold reversed_range. rewrite seq_S, rev_app_distr. reflexivity. Qed.

(** One pass of the inner loop: [y + 1 / (p / q)] is [(q + y * p) / p]. *)
Lemma conv_step (p q y : Z) :
  1 <= p ->
  Ratio_add (Ratio_rec (mkRatio p q)) (mkRatio y 1) = Ok (mkRatio (q + y * p) p).
Proof.
  intros Hp. unfold Ratio_add, Ratio_rec. cbn [num den].
  rewrite lcm_one_r. cbn [mbind result_bind]. rewrite Z.abs_eq by lia.
  rewrite !py_div_Ok by lia. cbn [mbind result_bind].
  rewrite Z.div_mul, Z.div_1_r by lia. reflexivity.
Qed.

Lemma fold_convergent_conv (pre suf : list Z) :
  suf <> [] -> Forall (fun x => 1 <= x) pre -> Forall (fun x => 1 <= x) suf ->
  fold_convergent_val (pre ++ suf) (reversed_range (length pre)) (conv suf)
  = Ok (conv (pre ++ suf)).
Proof.
  revert suf. induction pre as [|y pre IH] using rev_ind; intros suf Hne Hpre Hall.
  - reflexivity.
  - rewrite length_app. simpl. rewrite Nat.add_1_r, reversed_range_S. simpl.
    unfold index. rewrite <- app_assoc. simpl.
    rewrite list_lookup_middle by reflexivity. simpl.
    pose proof (continuant_pos suf Hne Hall) as Hpos.
    destruct (conv_cons y suf) as [Hn Hd].
    unfold conv at 1. rewrite conv_step.
    2:{ unfold conv_num. destruct (continuant suf) as [[[p q] p'] q']. lia. }
    simpl.
    replace (mkRatio (conv_den suf + y * conv_num suf) (conv_num suf)) with (conv (y :: suf)).
    2:{ unfold conv. rewrite Hn, Hd. f_equal. ring. }
    apply Forall_app in Hpre. destruct Hpre as [Hpre Hy].
    inversion Hy as [|? ? Hy1 _]; subst.
    apply (IH (y :: suf)); [discriminate|assumption|].
    constructor; assumption.
Qed.

(** Lines 145 to 148 compute the convergent of [a]. *)
Lemma convergent_val_conv (a : list Z) :
  a <> [] -> Forall (fun x => 1 <= x) a ->
  convergent_val a = Ok (conv a).
Proof.
  intros Hne Hall.
  destruct (exists_last Hne) as (pre & l & ->).
  unfold convergent_val, index_last. rewrite last_snoc. cbn [mbind result_bind].
  rewrite length_app. simpl length. replace (length pre + 1 - 1)%nat with (length pre) by lia.
  apply Forall_app in Hall. destruct Hall as [Hpre Hl].
  replace (mkRatio l 1) with (conv [l]).
  - apply fold_convergent_conv; [discriminate|assumption|assumption].
  - unfold conv, conv_num, conv_den. simpl. f_equal; ring.
Qed.

(** The test of line 150 on two consecutive convergents. *)
Lemma converged_val_conv (dig : Z) (a : list Z) :
  (2 <= length a)%nat -> Forall (fun x => 1 <= x) a ->
  converged_val dig (Some (mkRatio (prev_num a) (prev_den a))) (conv a)
  = Ok (one_and_zeros (dig + 1) <? conv_den a * prev_den a).
Proof.
  intros Hlen Hall.
  assert (Hne : a <> []) by (intros ->; simpl in Hlen; lia).
  pose proof (continuant_pos a Hne Hall) as Hpos.
  pose proof (continuant_det a) as Hdet.
  unfold conv, conv_num, conv_den, prev_num, prev_den.
  destruct (continuant a) as [[[p q] p'] q'].
  destruct Hpos as (Hp & Hq & Hp' & _ & Hq'). specialize (Hq' Hlen).
  unfold converged_val, Ratio_sub. cbn [num den].
  destruct (Ratio_add_spec (mkRatio p q) (mkRatio (- p') q') ltac:(simpl; lia) ltac:(simpl; lia))
    as (r & Hr & Hnum & Hden).
  cbn [num den] in Hnum, Hden. rewrite Hr. cbn [mbind result_bind].
  rewrite Z.sgn_pos in Hden by lia.
  set (T := one_and_zeros (dig + 1)).
  assert (HT : 0 < T) by (unfold T, one_and_zeros; apply Z.pow_pos_nonneg; lia).
  rewrite Ratio_lt_spec by (simpl; lia).
  cbn [Ratio_abs num den]. f_equal.
  rewrite (Z.abs_eq (den r)) by lia.
  destruct (Z.ltb_spec 0 (den r)) as [_|]; [|lia].
  assert (Habs : Z.abs (num r) * (q * q') = den r).
  { rewrite <- (Z.abs_eq (q * q')) by nia. rewrite <- Z.abs_mul, Hnum.
    rewrite Z.abs_mul, (Z.abs_eq (den r)) by lia.
    replace (Z.abs (p * q' + - p' * q)) with 1 by lia. ring. }
  assert (Hn0 : 0 < Z.abs (num r)) by nia.
  destruct (Z.ltb_spec (Z.abs (num r) * T) (1 * den r));
    destruct (Z.ltb_spec T (q * q')); try reflexivity; exfalso; nia.
Qed.


(** ** The rounds of the loop *)

Lemma cf_terms_S (n : Z) (k : nat) :
  exists t : Z, cf_terms n (S k) = cf_terms n k ++ [t].
Proof.
  unfold cf_terms. simpl. destruct (cf_state n k) as [[m d] a]. simpl. eexists. reflexivity.
Qed.

Lemma cf_terms_facts (n : Z) (k : nat) :
  Z.sqrt n * Z.sqrt n < n ->
  length (cf_terms n k) = S k /\ Forall (fun x => 1 <= x) (cf_terms n k).
Proof.
  intros Hn. destruct (sqrt_nonsquare_bounds n Hn) as [Ha0 _].
  destruct k as [|k].
  - unfold cf_terms. simpl. split; [reflexivity|]. repeat constructor. assumption.
  - pose proof (cf_state_inv n k Hn) as H. unfold cf_terms.
    destruct (cf_state n (S k)) as [[m d] a]. simpl.
    destruct H as (_ & _ & _ & _ & _ & _ & _ & Hlen & Hall). split; [assumption|].
    eapply Forall_impl; [exact Hall|]. simpl. intros; lia.
Qed.

(** Round [k + 1], from the variables left by round [k]. *)
Lemma round_val_at (n dig : Z) (k : nat) :
  Z.sqrt n * Z.sqrt n < n -> Z.sqrt n < 2 ^ 52 ->
  round_val n dig (vals_at n k) =
  Ok (if stops n dig (S k) then inr (conv (cf_terms n (S k))) else inl (vals_at n (S k))).
Proof.
  intros Hn Hb.
  pose proof (advance_cf n k Hn Hb) as Hadv.
  destruct (cf_terms_facts n (S k) Hn) as [Hlen Hall].
  destruct (cf_terms_S n k) as [t Ht].
  destruct (cf_terms_facts n k Hn) as [Hlenk Hallk].
  unfold cf_terms in *.
  destruct (cf_state n k) as [[m d] a] eqn:Hk.
  destruct (cf_state n (S k)) as [[m1 d1] a1] eqn:Hk1. cbn [snd] in *.
  assert (Hv : vals_at n k
               = mkVals m d a (match k with O => None | S _ => Some (conv a) end)).
  { unfold vals_at. rewrite Hk. reflexivity. }
  assert (Hv1 : vals_at n (S k) = mkVals m1 d1 a1 (Some (conv a1))).
  { unfold vals_at. rewrite Hk1. reflexivity. }
  assert (Hs : stops n dig (S k)
               = match k with
                 | O => false
                 | S _ => one_and_zeros (dig + 1) <? conv_den a1 * prev_den a1
                 end).
  { unfold stops, cf_terms. rewrite Hk1. reflexivity. }
  rewrite Hv, Hv1, Hs. unfold round_val. cbn [w_m w_d w_a w_pc].
  rewrite Hadv. cbn [mbind result_bind].
  rewrite convergent_val_conv; [|intros ->; simpl in Hlen; lia|assumption].
  cbn [mbind result_bind].
  destruct k as [|k].
  - reflexivity.
  - replace (conv a) with (mkRatio (prev_num a1) (prev_den a1)).
    2:{ destruct (conv_snoc a t) as (_ & _ & Hpn & Hpd). rewrite Ht, Hpn, Hpd. reflexivity. }
    rewrite converged_val_conv by (try assumption; lia).
    cbn [mbind result_bind]. destruct (_ <? _); reflexivity.
Qed.

(** The loop leaves at the first round in which the test holds. *)
Lemma loop_val_run (n dig : Z) :
  Z.sqrt n * Z.sqrt n < n -> Z.sqrt n < 2 ^ 52 ->
  forall (j k fuel : nat),
    (forall i : nat, (k < i < k + S j)%nat -> stops n dig i = false) ->
    stops n dig (k + S j) = true ->
    (S j <= fuel)%nat ->
    loop_val fuel n dig (vals_at n k) = Ok (conv (cf_terms n (k + S j))).
Proof.
  intros Hn Hb. induction j as [|j IH]; intros k fuel Hno Hstop Hfuel.
  - destruct fuel as [|fuel]; [lia|]. simpl.
    rewrite round_val_at by assumption. rewrite Nat.add_1_r in *. rewrite Hstop.
    reflexivity.
  - destruct fuel as [|fuel]; [lia|]. simpl.
    rewrite round_val_at by assumption. rewrite (Hno (S k)) by lia.
    cbn [mbind result_bind].
    replace (k + S (S j))%nat with (S k + S j)%nat in * by lia.
    apply IH; [|assumption|lia]. intros i Hi. apply Hno. lia.
Qed.

Lemma loop_val_out_of_fuel (n dig : Z) :
  Z.sqrt n * Z.sqrt n < n -> Z.sqrt n < 2 ^ 52 ->
  forall (fuel k : nat),
    (forall i : nat, (k < i <= k + fuel)%nat -> stops n dig i = false) ->
    loop_val fuel n dig (vals_at n k) = OutOfFuel.
Proof.
  intros Hn Hb. induction fuel as [|fuel IH]; intros k Hno; [reflexivity|].
  simpl. rewrite round_val_at by assumption. rewrite (Hno (S k)) by lia.
  cbn [mbind result_bind]. apply IH. intros i Hi. apply Hno. lia.
Qed.

(** The denominators of the convergents grow. *)
Lemma conv_den_grows (n : Z) (k : nat) :
  Z.sqrt n * Z.sqrt n < n ->
  Z.of_nat (S k) <= conv_den (cf_terms n (S k)) /\
  1 <= prev_den (cf_terms n (S k)) /\
  (prev_den (cf_terms n (S (S k))) = conv_den (cf_terms n (S k))).
Proof.
  intros Hn. induction k as [|k IH].
  - destruct (cf_terms_S n 0) as [t Ht]. destruct (cf_terms_S n 1) as [t2 Ht2].
    destruct (cf_terms_facts n 1 Hn) as [_ Hall].
    destruct (conv_snoc (cf_terms n 1) t2) as (_ & _ & _ & Hpd2).
    rewrite Ht2, Hpd2. rewrite Ht in *.
    apply Forall_app in Hall. destruct Hall as [_ Hall].
    inversion Hall as [|? ? Ht1 _]; subst.
    destruct (conv_snoc (cf_terms n 0) t) as (_ & Hcd & _ & Hpd).
    rewrite Hcd, Hpd. unfold cf_terms. simpl.
    unfold conv_den, prev_den. simpl. lia.
  - destruct IH as (Hc & Hp & Hpc).
    destruct (cf_terms_S n (S k)) as [t Ht]. destruct (cf_terms_S n (S (S k))) as [t2 Ht2].
    destruct (cf_terms_facts n (S (S k)) Hn) as [_ Hall].
    destruct (conv_snoc (cf_terms n (S (S k))) t2) as (_ & _ & _ & Hpd2).
    rewrite Ht2, Hpd2. split; [|split; [|reflexivity]].
    + rewrite Ht in Hall |- *.
      apply Forall_app in Hall. destruct Hall as [_ Hall].
      inversion Hall as [|? ? Ht1 _]; subst.
      destruct (conv_snoc (cf_terms n (S k)) t) as (_ & Hcd & _ & _).
      rewrite Hcd. nia.
    + rewrite Hpc. lia.
Qed.

Lemma stops_eventually (n dig : Z) :
  Z.sqrt n * Z.sqrt n < n -> exists K : nat, stops n dig K = true.
Proof.
  intros Hn. set (T := one_and_zeros (dig + 1)).
  assert (HT : 0 < T) by (unfold T, one_and_zeros; apply Z.pow_pos_nonneg; lia).
  exists (S (S (Z.to_nat T))).
  destruct (conv_den_grows n (S (Z.to_nat T)) Hn) as (Hc & Hp & _).
  destruct (conv_den_grows n (Z.to_nat T) Hn) as (Hc' & _ & Hpc).
  unfold stops. fold T. apply Z.ltb_lt. rewrite Hpc. nia.
Qed.

Lemma first_true (P : nat -> bool) (K : nat) :
  P K = true ->
  exists K0 : nat, (K0 <= K)%nat /\ P K0 = true /\ forall i : nat, (i < K0)%nat -> P i = false.
Proof.
  induction K as [K IH] using lt_wf_ind. intros HK.
  destruct (List.existsb P (seq 0 K)) eqn:E.
  - apply existsb_exists in E. destruct E as (i & Hi & HPi).
    apply in_seq in Hi. destruct (IH i ltac:(lia) HPi) as (K0 & HK0 & HP0 & Hmin).
    exists K0. split; [lia|]. split; assumption.
  - exists K. split; [lia|]. split; [assumption|].
    intros i Hi. destruct (P i) eqn:HPi; [|reflexivity].
    assert (List.existsb P (seq 0 K) = true); [|congruence].
    apply existsb_exists. exists i. split; [|assumption]. apply in_seq. lia.
Qed.

(** The loop of a non-square [n] whose integer root the seed got right:
    it ends, by [break], in the first round [K >= 2] in which the test
    holds, and returns the convergent of that round. *)
Lemma loop_val_result (n dig : Z) :
  Z.sqrt n * Z.sqrt n < n -> Z.sqrt n < 2 ^ 52 ->
  exists K : nat,
    (2 <= K)%nat /\ stops n dig K = true /\
    (forall i : nat, (i < K)%nat -> stops n dig i = false) /\
    forall fuel : nat,
      loop_val fuel n dig (mkVals 0 1 [Z.sqrt n] None) =
      if (K <=? fuel)%nat then Ok (conv (cf_terms n K)) else OutOfFuel.
Proof.
  intros Hn Hb. destruct (stops_eventually n dig Hn) as [K1 HK1].
  destruct (first_true _ K1 HK1) as (K & _ & HK & Hmin).
  exists K.
  assert (H2 : (2 <= K)%nat).
  { destruct K as [|[|K]]; [discriminate HK|discriminate HK|lia]. }
  split; [assumption|]. split; [assumption|]. split; [assumption|].
  intros fuel. change (mkVals 0 1 [Z.sqrt n] None) with (vals_at n 0).
  destruct (Nat.leb_spec K fuel) as [Hle|Hlt].
  - destruct K as [|K]; [lia|].
    apply (loop_val_run n dig Hn Hb K 0 fuel); try assumption.
    intros i Hi. apply Hmin. lia.
  - apply loop_val_out_of_fuel; try assumption. intros i Hi. apply Hmin. lia.
Qed.

(** ** [precSqrt] on the general path *)

Lemma loop_val_mono (n dig : Z) (fuel fuel' : nat) (w : vals) (c : Ratio) :
  loop_val fuel n dig w = Ok c -> (fuel <= fuel')%nat -> loop_val fuel' n dig w = Ok c.
Proof.
  revert fuel' w. induction fuel as [|fuel IH]; intros fuel' w H Hle; [discriminate|].
  destruct fuel' as [|fuel']; [lia|]. simpl in *.
  destruct (round_val n dig w) as [[w'|c']| |]; simpl in *; try discriminate.
  - apply IH; [assumption | lia].
  - assumption.
Qed.

(** More fuel does not change a result. *)
Lemma precSqrt_fuel_mono (n dig : Z) (fuel fuel' : nat) (s : string) :
  precSqrt fuel n dig = Ok s -> (fuel <= fuel')%nat -> precSqrt fuel' n dig = Ok s.
Proof.
  rewrite !precSqrt_values. unfold precSqrt_val. intros H Hle.
  destruct (math_sqrt n) as [x| |]; simpl in *; try discriminate.
  destruct (int_of_float (math_floor x)) as [a0| |]; simpl in *; try discriminate.
  destruct (float_eq_int x a0); [assumption|].
  destruct (loop_val fuel n dig _) as [c| |] eqn:Hl; simpl in *; try discriminate.
  rewrite (loop_val_mono _ _ _ _ _ _ Hl Hle). simpl. assumption.
Qed.

(** What [precSqrt] returns when it enters its loop: with [K] the first
    round in which the test holds, the convergent of round [K], scaled and
    truncated. *)
Lemma precSqrt_general (n dig : Z) (x : spec_float) (a0 : Z) :
  math_sqrt n = Ok x -> int_of_float (math_floor x) = Ok a0 ->
  float_eq_int x a0 = false ->
  exists K : nat,
    (2 <= K)%nat /\ stops n dig K = true /\
    (forall i : nat, (i < K)%nat -> stops n dig i = false) /\
    forall fuel : nat,
      precSqrt fuel n dig =
      if (K <=? fuel)%nat
      then Ok (render (conv_num (cf_terms n K) * one_and_zeros dig
                       / conv_den (cf_terms n K)) dig)
      else OutOfFuel.
Proof.
  intros Hx Ha0 Heq.
  destruct (seed_general n x a0 Hx Ha0 Heq) as (Hs & Hn & Hb). subst a0.
  destruct (loop_val_result n dig Hn Hb) as (K & HK2 & HK & Hmin & Hloop).
  exists K. split; [assumption|]. split; [assumption|]. split; [assumption|].
  intros fuel. rewrite precSqrt_values. unfold precSqrt_val.
  rewrite Hx. cbn [mbind result_bind]. rewrite Ha0. cbn [mbind result_bind].
  rewrite Heq, Hloop.
  destruct (K <=? fuel)%nat; [|reflexivity].
  cbn [mbind result_bind conv num den].
  destruct (cf_terms_facts n K Hn) as [Hlen Hall].
  assert (Hne : cf_terms n K <> []) by (intros E; rewrite E in Hlen; discriminate).
  pose proof (continuant_pos _ Hne Hall) as Hpos.
  assert (Hden : 1 <= conv_den (cf_terms n K)).
  { unfold conv_den. destruct (continuant (cf_terms n K)) as [[[p q] p'] q']. lia. }
  rewrite py_div_Ok by lia. reflexivity.
Qed.

(** ** Later convergents stay close *)

Lemma continuant_app (a b : list Z) :
  continuant (a ++ b) =
  let '(p, q, p', q') := continuant a in
  let '(u, v, u', v') := continuant b in
  (p * u + p' * v, q * u + q' * v, p * u' + p' * v', q * u' + q' * v').
Proof.
  induction a as [|x a IH]; simpl.
  - destruct (continuant b) as [[[u v] u'] v'].
    repeat (apply (f_equal2 pair)); ring.
  - rewrite IH. destruct (continuant a) as [[[p q] p'] q'].
    destruct (continuant b) as [[[u v] u'] v'].
    repeat (apply (f_equal2 pair)); ring.
Qed.

Lemma cf_terms_le (n : Z) (k1 k2 : nat) :
  (k1 <= k2)%nat -> exists b : list Z, cf_terms n k2 = cf_terms n k1 ++ b.
Proof.
  induction 1 as [|k2 Hle [b IH]].
  - exists []. now rewrite app_nil_r.
  - destruct (cf_terms_S n k2) as [t Ht]. exists (b ++ [t]).
    rewrite Ht, IH, app_assoc. reflexivity.
Qed.

(** The convergent of [a ++ b] is within [1 / (q * q')] of that of [a],
    where [q] and [q'] are the denominators of the last two convergents
    of [a]. *)
Lemma convergents_close (a b : list Z) (T : Z) :
  (2 <= length a)%nat -> Forall (fun x => 1 <= x) a -> Forall (fun x => 1 <= x) b ->
  0 < T -> T < conv_den a * prev_den a ->
  0 < conv_den a /\ 0 < conv_den (a ++ b) /\
  Z.abs (conv_num (a ++ b) * conv_den a - conv_num a * conv_den (a ++ b)) * T
  < conv_den a * conv_den (a ++ b).
Proof.
  intros Hlen Ha Hb HT Hstop.
  assert (Hne : a <> []) by (intros ->; simpl in Hlen; lia).
  pose proof (continuant_pos a Hne Ha) as Hpa.
  pose proof (continuant_det a) as Hdet.
  assert (Hpb : let '(u, v, u', v') := continuant b in 1 <= u /\ 0 <= v).
  { destruct b as [|y b]; [simpl; lia|].
    pose proof (continuant_pos (y :: b) ltac:(discriminate) Hb) as H.
    destruct (continuant (y :: b)) as [[[u v] u'] v']. lia. }
  unfold conv_num, conv_den, prev_den in *. rewrite continuant_app.
  destruct (continuant a) as [[[p q] p'] q'].
  destruct (continuant b) as [[[u v] u'] v'].
  destruct Hpa as (Hp & Hq & Hp' & _ & Hq'). specialize (Hq' Hlen).
  destruct Hpb as [Hu Hv].
  split; [lia|]. split; [nia|].
  replace ((p * u + p' * v) * q - p * (q * u + q' * v)) with (- (v * (p * q' - p' * q))) by ring.
  rewrite Z.abs_opp, Z.abs_mul.
  replace (Z.abs (p * q' - p' * q)) with 1 by lia.
  rewrite Z.abs_eq by lia.
  assert (H1 : v * 1 * T <= v * (q * q')) by nia.
  assert (H2 : 0 < q * (q * u)) by nia.
  nia.
Qed.

(** Two fractions less than one apart have integer parts at most one apart. *)
Lemma floor_close (A B q1 q2 : Z) :
  0 < q1 -> 0 < q2 -> Z.abs (B * q1 - A * q2) < q1 * q2 ->
  Z.abs (B / q2 - A / q1) <= 1.
Proof.
  intros H1 H2 H.
  pose proof (Z.div_mod A q1 ltac:(lia)) as HA.
  pose proof (Z.mod_pos_bound A q1 H1) as HrA.
  pose proof (Z.div_mod B q2 ltac:(lia)) as HB.
  pose proof (Z.mod_pos_bound B q2 H2) as HrB.
  set (a := A / q1) in *. set (b := B / q2) in *.
  set (r1 := A mod q1) in *. set (r2 := B mod q2) in *. clearbody a b r1 r2.
  assert (HE : B * q1 - A * q2 = (b - a) * (q1 * q2) + (r2 * q1 - r1 * q2)) by (subst A B; ring).
  assert (Hr : - (q1 * q2) < r2 * q1 - r1 * q2 < q1 * q2) by nia.
  assert (Hq : 0 < q1 * q2) by nia.
  set (D := q1 * q2) in *. set (R := r2 * q1 - r1 * q2) in *. set (E := B * q1 - A * q2) in *.
  clearbody D R E.
  destruct (Z_le_gt_dec (Z.abs (b - a)) 1) as [|Hc]; [assumption|exfalso].
  assert (Hc' : 2 <= b - a \/ b - a <= -2) by lia.
  destruct Hc'; nia.
Qed.

(** * Properties of the specification *)

(** ** Perfect squares *)

(** C1.  A perfect square beyond the precision of a float: for
    [n = (2 ^ 53 + 1) ^ 2], whatever the digit count, [precSqrt] returns
    the string of [2 ^ 53] although the integer square root of [n] is
    [2 ^ 53 + 1]; [math.sqrt(n)] has rounded the root. *)
Theorem precSqrt_large_square_off_by_one (fuel : nat) (dig : Z) :
  precSqrt fuel ((2 ^ 53 + 1) * (2 ^ 53 + 1)) dig = Ok "9007199254740992"%string /\
  Z.sqrt ((2 ^ 53 + 1) * (2 ^ 53 + 1)) = 9007199254740993 /\
  str (Z.sqrt ((2 ^ 53 + 1) * (2 ^ 53 + 1))) = "9007199254740993"%string.
Proof.
  split; [|split; reflexivity].
  rewrite precSqrt_values. reflexivity.
Qed.

(** ** The square root of two *)

(** C2.  [precSqrt(2, 10)] returns ["1.4142135623"], after 16 rounds of the
    loop, and [precSqrt(2, 5)] returns ["1.41421"]. *)
Theorem precSqrt_two_ten_digits (fuel : nat) :
  (16 <= fuel)%nat ->
  precSqrt fuel 2 10 = Ok "1.4142135623"%string /\
  precSqrt fuel 2 5 = Ok "1.41421"%string.
Proof.
  intros Hfuel. split.
  - apply (precSqrt_fuel_mono 2 10 16); [vm_compute; reflexivity | assumption].
  - apply (precSqrt_fuel_mono 2 5 16); [vm_compute; reflexivity | assumption].
Qed.

Lemma precSqrt_two_ten_digits_witness :
  (16 <= 20)%nat /\
  precSqrt 20 2 10 = Ok "1.4142135623"%string /\
  precSqrt 20 2 5 = Ok "1.41421"%string.
Proof. split; [lia | apply (precSqrt_two_ten_digits 20); lia]. Defined.

(** ** Negative radicands *)

(** C5, as stated, fails.  [sqrt.py] has no exception of its own: what it
    raises for a radicand that has no real root is the math domain error
    of [math.sqrt], [ValueError].  Not every negative [n] gets it:
    [precSqrt(-2 ** 1024, 5)] raises [OverflowError], because [-2 ** 1024]
    does not convert to a float, and that is the exception the
    non-negative radicand [2 ** 1024] gets as well. *)
Lemma negative_radicand_overflows :
  ~ (forall (fuel : nat) (n dig : Z), n < 0 -> precSqrt fuel n dig = Raise ValueError) /\
  precSqrt 0 (- 2 ^ 1024) 5 = Raise OverflowError /\
  precSqrt 0 (2 ^ 1024) 5 = Raise OverflowError.
Proof.
  split; [|split; vm_compute; reflexivity].
  intros H. specialize (H 0%nat (- 2 ^ 1024) 5 ltac:(reflexivity)).
  vm_compute in H. discriminate.
Qed.

(** C5, amended.  For every negative [n], and whatever the digit count,
    [precSqrt] raises at its first call of [math.sqrt] and returns no
    string.  The exception is the math domain error ([ValueError]) for
    every [n] above [-2 ** 1023], in particular for [precSqrt(-1, 5)]; it is
    the [OverflowError] of the conversion to a float for every [n] at or
    below [-2 ** 1024]; in between it is one of the two. *)
Theorem precSqrt_negative_raises (fuel : nat) (n dig : Z) :
  n < 0 ->
  (precSqrt fuel n dig = Raise ValueError \/ precSqrt fuel n dig = Raise OverflowError) /\
  (- 2 ^ 1023 < n -> precSqrt fuel n dig = Raise ValueError) /\
  (n <= - 2 ^ 1024 -> precSqrt fuel n dig = Raise OverflowError) /\
  precSqrt fuel (-1) 5 = Raise ValueError.
Proof.
  intros Hn. rewrite !precSqrt_values. unfold precSqrt_val.
  destruct (math_sqrt_negative n Hn) as [Hcase Hsmall].
  split; [|split; [|split]].
  - destruct Hcase as [H|H]; rewrite H; [left|right]; reflexivity.
  - intros Hb. rewrite (Hsmall Hb). reflexivity.
  - intros Hb. rewrite (math_sqrt_negative_huge n Hb). reflexivity.
  - reflexivity.
Qed.

Lemma precSqrt_negative_raises_witness :
  -7 < 0 /\
  (precSqrt 3 (-7) 4 = Raise ValueError \/ precSqrt 3 (-7) 4 = Raise OverflowError) /\
  (- 2 ^ 1023 < -7 -> precSqrt 3 (-7) 4 = Raise ValueError) /\
  (-7 <= - 2 ^ 1024 -> precSqrt 3 (-7) 4 = Raise OverflowError) /\
  precSqrt 3 (-1) 5 = Raise ValueError.
Proof. split; [lia | apply (precSqrt_negative_raises 3 (-7) 4); lia]. Defined.

(** ** The digit count *)

(** C6, as stated, fails: [precSqrt] itself does not look at the digit
    count, and [precSqrt(2, 0)] returns the string [".1"]. *)
Lemma precSqrt_zero_digits_returns :
  ~ (forall (fuel : nat) (n dig : Z),
        0 <= n -> dig < 1 -> exists e : exn, precSqrt fuel n dig = Raise e).
Proof.
  intros H. destruct (H 3%nat 2 0 ltac:(lia) ltac:(lia)) as [e He].
  vm_compute in He. discriminate.
Qed.

(** C6, amended.  The check is in [main]: for a digit count below one a
    turn of the prompt loop prints the error message and does not call
    [precSqrt]. *)
Theorem main_rejects_precision (fuel : nat) (n dig : Z) :
  dig < 1 ->
  main_turn fuel n dig
  = Ok "Error: number of digits of precision must be at least 1."%string.
Proof.
  intros Hdig. unfold main_turn.
  destruct (Z.ltb_spec dig 1) as [_|]; [reflexivity | lia].
Qed.

Lemma main_rejects_precision_witness :
  0 < 1 /\
  main_turn 3 2 0 = Ok "Error: number of digits of precision must be at least 1."%string.
Proof. split; [lia | apply (main_rejects_precision 3 2 0); lia]. Defined.

(** ** The reciprocal *)

(** C8, as stated, fails: [rec] on [Ratio(0, 1)] raises nothing and leaves
    an object with a zero denominator. *)
Lemma rec_zero_numerator_no_error :
  ~ (forall (σ : store) (r : ref) (v : Ratio),
        σ !! r = Some v -> num v = 0 -> exists e : exn, RatioObj.rec r σ = Raise e).
Proof.
  intros H.
  destruct (H [mkRatio 0 1] 0%nat (mkRatio 0 1) eq_refl eq_refl) as [e He].
  vm_compute in He. discriminate.
Qed.

(** C8, amended.  [rec] swaps the numerator and the denominator of its
    object in place, touches no other object and never raises, also when
    the numerator is zero; the zero denominator it then leaves makes the
    next [__add__] on that object raise [ZeroDivisionError]. *)
Theorem rec_swaps_never_fails (σ : store) (r : ref) (v : Ratio) :
  σ !! r = Some v ->
  RatioObj.rec r σ = Ok (tt, <[r := mkRatio (den v) (num v)]> σ) /\
  (num v = 0 -> forall o : Ratio,
      Ratio_add (mkRatio (den v) (num v)) o = Raise ZeroDivisionError).
Proof.
  intros Hr. split; [apply rec_spec; assumption|].
  intros Hz o. apply Ratio_add_zero_den_l. assumption.
Qed.

Lemma rec_swaps_never_fails_witness :
  [mkRatio 0 5] !! 0%nat = Some (mkRatio 0 5) /\
  RatioObj.rec 0%nat [mkRatio 0 5]
  = Ok (tt, <[0%nat := mkRatio (den (mkRatio 0 5)) (num (mkRatio 0 5))]> [mkRatio 0 5]) /\
  (num (mkRatio 0 5) = 0 -> forall o : Ratio,
      Ratio_add (mkRatio (den (mkRatio 0 5)) (num (mkRatio 0 5))) o = Raise ZeroDivisionError).
Proof.
  split; [reflexivity | apply (rec_swaps_never_fails [mkRatio 0 5] 0%nat (mkRatio 0 5)); reflexivity].
Defined.

(** ** Equality and order *)

(** C9.  [__lt__] on [Ratio(1, 3)] and [Ratio(1, -3)] answers [True],
    although one third is not less than minus one third: the common
    denominator [lcm(3, -3)] is [-3], and the comparison of the scaled
    numerators is not reversed for it.  ([__eq__] is right for all signs,
    see [Ratio_eq_correct], and [-1/2] equals [1/-2].) *)
Theorem Ratio_lt_negative_right_denominator :
  Ratio_lt (mkRatio 1 3) (mkRatio 1 (-3)) = Ok true /\
  ~ (value (mkRatio 1 3) < value (mkRatio 1 (-3)))%Q /\
  Ratio_eq (mkRatio (-1) 2) (mkRatio 1 (-2)) = Ok true.
Proof.
  split; [reflexivity|]. split; [|reflexivity].
  unfold value, Qlt. simpl. lia.
Qed.

(** ** Termination of the loop *)

Lemma loop_of_loop_val (n dig : Z) (fuel : nat) (a0 : Z) :
  match loop_val fuel n dig (mkVals 0 1 [a0] None) with
  | Ok cv => exists (c : ref) (σ : store),
      loop fuel n dig (mkVars 0 1 [a0] None) [] = Ok (c, σ) /\ σ !! c = Some cv
  | Raise e => loop fuel n dig (mkVars 0 1 [a0] None) [] = Raise e
  | OutOfFuel => loop fuel n dig (mkVars 0 1 [a0] None) [] = OutOfFuel
  end.
Proof.
  assert (Hh : holds [] (mkVars 0 1 [a0] None) (mkVals 0 1 [a0] None)) by (repeat split).
  pose proof (loop_sim n dig fuel _ _ [] Hh) as H.
  destruct (loop_val fuel n dig _) as [cv| |]; try assumption.
  destruct H as (c & σ & Hrun & Hc & _). exists c, σ. split; assumption.
Qed.

(** C4.  When [precSqrt] enters its loop (the float [math.sqrt(n)] is not
    an integer), for [n >= 0] not a perfect square and [dig >= 1], the loop
    ends after a finite number [K >= 2] of rounds, by the [break] of the
    tolerance test: with fewer than [K] rounds of fuel it is still running,
    with [K] or more it returns its convergent, and no round raises. *)
Theorem loop_terminates (n dig : Z) (x : spec_float) (a0 : Z) :
  0 <= n -> nonsquare n -> 1 <= dig ->
  math_sqrt n = Ok x -> int_of_float (math_floor x) = Ok a0 ->
  float_eq_int x a0 = false ->
  exists K : nat,
    (2 <= K)%nat /\
    (forall fuel : nat, (fuel < K)%nat ->
       loop fuel n dig (mkVars 0 1 [a0] None) [] = OutOfFuel) /\
    (forall fuel : nat, (K <= fuel)%nat ->
       exists (c : ref) (σ : store),
         loop fuel n dig (mkVars 0 1 [a0] None) [] = Ok (c, σ) /\
         σ !! c = Some (conv (cf_terms n K))) /\
    stops n dig K = true /\ (forall i : nat, (i < K)%nat -> stops n dig i = false).
Proof.
  intros _ _ _ Hx Ha0 Heq.
  destruct (seed_general n x a0 Hx Ha0 Heq) as (Hs & Hn & Hb). subst a0.
  destruct (loop_val_result n dig Hn Hb) as (K & HK2 & HK & Hmin & Hloop).
  exists K. split; [assumption|].
  split; [|split; [|split; assumption]].
  - intros fuel Hf. pose proof (loop_of_loop_val n dig fuel (Z.sqrt n)) as H.
    rewrite Hloop in H. destruct (Nat.leb_spec K fuel); [lia | assumption].
  - intros fuel Hf. pose proof (loop_of_loop_val n dig fuel (Z.sqrt n)) as H.
    rewrite Hloop in H. destruct (Nat.leb_spec K fuel); [assumption | lia].
Qed.

Lemma nonsquare_two : nonsquare 2.
Proof.
  intros k Hk. assert (H : -2 < k < 2) by nia.
  assert (H' : k = -1 \/ k = 0 \/ k = 1) by lia.
  destruct H' as [-> | [-> | ->]]; discriminate.
Qed.

Lemma loop_terminates_witness :
  0 <= 2 /\ nonsquare 2 /\ 1 <= 1 /\
  math_sqrt 2 = Ok (S754_finite false 6369051672525773 (-52)) /\
  int_of_float (math_floor (S754_finite false 6369051672525773 (-52))) = Ok 1 /\
  float_eq_int (S754_finite false 6369051672525773 (-52)) 1 = false /\
  exists K : nat,
    (2 <= K)%nat /\
    (forall fuel : nat, (fuel < K)%nat ->
       loop fuel 2 1 (mkVars 0 1 [1] None) [] = OutOfFuel) /\
    (forall fuel : nat, (K <= fuel)%nat ->
       exists (c : ref) (σ : store),
         loop fuel 2 1 (mkVars 0 1 [1] None) [] = Ok (c, σ) /\
         σ !! c = Some (conv (cf_terms 2 K))) /\
    stops 2 1 K = true /\ (forall i : nat, (i < K)%nat -> stops 2 1 i = false).
Proof.
  split; [lia|]. split; [exact nonsquare_two|]. split; [lia|].
  split; [reflexivity|]. split; [reflexivity|]. split; [reflexivity|].
  apply (loop_terminates 2 1 (S754_finite false 6369051672525773 (-52)) 1);
    [lia | exact nonsquare_two | lia | reflexivity | reflexivity | reflexivity].
Defined.

(** ** The division of line 142 *)






(** ** Digits for two digit counts *)

(** C3, as stated, fails: [precSqrt(19, 4)] returns ["4.3589"] and
    [precSqrt(19, 5)] returns ["4.35889"], whose first four fractional
    digits are [3588]. *)
Lemma digits_not_stable_19 : ~ digits_stable 19 4 5.
Proof.
  intros H.
  specialize (H 7%nat 9%nat "4.3589"%string "4.35889"%string).
  specialize (H ltac:(vm_compute; reflexivity) ltac:(vm_compute; reflexivity)).
  vm_compute in H. discriminate.
Qed.

Lemma one_and_zeros_pow (d : Z) : 0 <= d -> one_and_zeros d = 10 ^ d.
Proof. intros Hd. unfold one_and_zeros. now rewrite Z.max_r. Qed.

(** C3, amended.  When [precSqrt] enters its loop for [n], and
    [1 <= d1 < d2], the two results are the renderings of two scaled
    integers [S1] (with [d1] fractional digits) and [S2] (with [d2]), and
    [S2] without its last [d2 - d1] digits differs from [S1] by at most
    one: the first [d1] fractional digits agree up to one unit in the last
    place, and need not be equal. *)
Theorem digits_within_one_unit (n d1 d2 : Z) (x : spec_float) (a0 : Z) :
  math_sqrt n = Ok x -> int_of_float (math_floor x) = Ok a0 ->
  float_eq_int x a0 = false ->
  1 <= d1 -> d1 < d2 ->
  exists (K1 K2 : nat) (S1 S2 : Z),
    (K1 <= K2)%nat /\
    (forall fuel : nat, (K1 <= fuel)%nat -> precSqrt fuel n d1 = Ok (render S1 d1)) /\
    (forall fuel : nat, (K2 <= fuel)%nat -> precSqrt fuel n d2 = Ok (render S2 d2)) /\
    Z.abs (S2 / 10 ^ (d2 - d1) - S1) <= 1.
Proof.
  intros Hx Ha0 Heq Hd1 Hd12.
  destruct (seed_general n x a0 Hx Ha0 Heq) as (Hsq & Hn & _). rewrite Hsq in Hn.
  destruct (precSqrt_general n d1 x a0 Hx Ha0 Heq) as (K1 & HK1 & Hs1 & Hmin1 & Hrun1).
  destruct (precSqrt_general n d2 x a0 Hx Ha0 Heq) as (K2 & HK2 & Hs2 & Hmin2 & Hrun2).
  rewrite !one_and_zeros_pow in * by lia.
  set (a1 := cf_terms n K1) in *. set (a2 := cf_terms n K2) in *.
  exists K1, K2, (conv_num a1 * 10 ^ d1 / conv_den a1), (conv_num a2 * 10 ^ d2 / conv_den a2).
  assert (HT : 10 ^ (d1 + 1) < 10 ^ (d2 + 1)) by (apply Z.pow_lt_mono_r; lia).
  assert (H12 : (K1 <= K2)%nat).
  { destruct (Nat.le_gt_cases K1 K2) as [|Hgt]; [assumption|exfalso].
    specialize (Hmin1 K2 Hgt).
    destruct K2 as [|[|K2]]; try lia.
    unfold stops in Hs2, Hmin1. fold a2 in Hs2, Hmin1.
    rewrite one_and_zeros_pow in Hs2, Hmin1 by lia.
    apply Z.ltb_lt in Hs2. apply Z.ltb_ge in Hmin1. lia. }
  split; [assumption|].
  split; [intros fuel Hf; rewrite Hrun1; destruct (Nat.leb_spec K1 fuel); [reflexivity|lia]|].
  split; [intros fuel Hf; rewrite Hrun2; destruct (Nat.leb_spec K2 fuel); [reflexivity|lia]|].
  destruct (cf_terms_le n K1 K2 H12) as [b Hb]. fold a1 a2 in Hb.
  destruct (cf_terms_facts n K1 Hn) as [Hlen1 Hall1]. fold a1 in Hlen1, Hall1.
  destruct (cf_terms_facts n K2 Hn) as [_ Hall2]. fold a2 in Hall2.
  rewrite Hb in Hall2. apply Forall_app in Hall2. destruct Hall2 as [_ Hallb].
  assert (Hstop : 10 ^ (d1 + 1) < conv_den a1 * prev_den a1).
  { destruct K1 as [|[|K1]]; try lia. unfold stops in Hs1. fold a1 in Hs1.
    rewrite one_and_zeros_pow in Hs1 by lia. apply Z.ltb_lt in Hs1. exact Hs1. }
  assert (HT0 : 0 < 10 ^ (d1 + 1)) by (apply Z.pow_pos_nonneg; lia).
  destruct (convergents_close a1 b (10 ^ (d1 + 1)) ltac:(lia) Hall1 Hallb HT0 Hstop)
    as (Hq1 & Hq2 & Hclose).
  rewrite <- Hb in Hq2, Hclose.
  set (p1 := conv_num a1) in *. set (q1 := conv_den a1) in *.
  set (p2 := conv_num a2) in *. set (q2 := conv_den a2) in *.
  assert (HP : 0 < 10 ^ (d2 - d1)) by (apply Z.pow_pos_nonneg; lia).
  assert (HP1 : 0 < 10 ^ d1) by (apply Z.pow_pos_nonneg; lia).
  assert (Hcut : p2 * 10 ^ d2 / q2 / 10 ^ (d2 - d1) = p2 * 10 ^ d1 / q2).
  { rewrite Z.div_div by lia.
    replace (10 ^ d2) with (10 ^ d1 * 10 ^ (d2 - d1))
      by (rewrite <- Z.pow_add_r by lia; f_equal; lia).
    rewrite Z.mul_assoc. apply Z.div_mul_cancel_r; lia. }
  rewrite Hcut. apply floor_close; try assumption.
  replace (p2 * 10 ^ d1 * q1 - p1 * 10 ^ d1 * q2) with (10 ^ d1 * (p2 * q1 - p1 * q2)) by ring.
  rewrite Z.abs_mul, (Z.abs_eq (10 ^ d1)) by lia.
  assert (H10 : 10 ^ (d1 + 1) = 10 ^ d1 * 10) by (rewrite Z.pow_add_r by lia; reflexivity).
  rewrite H10 in Hclose.
  pose proof (Z.abs_nonneg (p2 * q1 - p1 * q2)). nia.
Qed.

Lemma digits_within_one_unit_witness :
  math_sqrt 19 = Ok (S754_finite false 4907683914468857 (-50)) /\
  int_of_float (math_floor (S754_finite false 4907683914468857 (-50))) = Ok 4 /\
  float_eq_int (S754_finite false 4907683914468857 (-50)) 4 = false /\
  1 <= 4 /\ 4 < 5 /\
  exists (K1 K2 : nat) (S1 S2 : Z),
    (K1 <= K2)%nat /\
    (forall fuel : nat, (K1 <= fuel)%nat -> precSqrt fuel 19 4 = Ok (render S1 4)) /\
    (forall fuel : nat, (K2 <= fuel)%nat -> precSqrt fuel 19 5 = Ok (render S2 5)) /\
    Z.abs (S2 / 10 ^ (5 - 4) - S1) <= 1.
Proof.
  split; [reflexivity|]. split; [reflexivity|]. split; [reflexivity|].
  split; [lia|]. split; [lia|].
  apply (digits_within_one_unit 19 4 5 (S754_finite false 4907683914468857 (-50)) 4);
    [reflexivity | reflexivity | reflexivity | lia | lia].
Defined.

(** ** The snapshot [pc] *)

(** The inner loop changes no object that was there before it. *)
Lemma convergent_frame (a : list Z) (σ σ' : store) (c : ref) :
  convergent a σ = Ok (c, σ') ->
  (length σ <= c)%nat /\ keeps (length σ) σ σ' /\ exists cv : Ratio, σ' !! c = Some cv.
Proof.
  intros Hrun. pose proof (convergent_sim a σ) as Hsim.
  destruct (convergent_val a) as [r| |]; try (rewrite Hsim in Hrun; discriminate).
  destruct Hsim as (c1 & σ1 & Hrun1 & Hc & Hb & Hk).
  rewrite Hrun1 in Hrun. injection Hrun as <- <-.
  split; [assumption|]. split; [assumption|]. exists r. assumption.
Qed.

(** C10.  The snapshot of lines 152 to 154 is a new object [pc], different
    from [c], that holds the numerator and the denominator of [c].  In any
    later store in which [pc] still holds them, the folding of [a] into a
    new [c] (with its [rec()] in place) leaves [pc] as it is, the new [c]
    is another object, and the tolerance test computes on the saved value
    and leaves [pc] as it is too. *)
Theorem snapshot_by_value (dig : Z) (c0 : ref) (cv : Ratio) (σ : store)
    (pc : ref) (σ1 : store) :
  σ !! c0 = Some cv ->
  snapshot c0 σ = Ok (pc, σ1) ->
  pc <> c0 /\ σ1 !! pc = Some cv /\ σ1 !! c0 = Some cv /\
  forall (σ' : store) (a : list Z) (c : ref) (σ2 : store),
    σ' !! pc = Some cv ->
    convergent a σ' = Ok (c, σ2) ->
    c <> pc /\ σ2 !! pc = Some cv /\
    exists cv' : Ratio,
      σ2 !! c = Some cv' /\
      match converged_val dig (Some cv) cv' with
      | Ok t => exists σ3 : store,
          converged dig (Some pc) c σ2 = Ok (t, σ3) /\ σ3 !! pc = Some cv
      | Raise e => converged dig (Some pc) c σ2 = Raise e
      | OutOfFuel => converged dig (Some pc) c σ2 = OutOfFuel
      end.
Proof.
  intros Hc0 Hsnap.
  destruct (snapshot_spec c0 cv σ Hc0) as (pc1 & σ1' & Hrun & _ & Hne & Hpc & Hc & _).
  rewrite Hrun in Hsnap. injection Hsnap as <- <-.
  split; [assumption|]. split; [assumption|]. split; [assumption|].
  intros σ' a c σ2 Hpc' Hconv.
  destruct (convergent_frame a σ' σ2 c Hconv) as (Hfresh & Hk & cv' & Hcv').
  pose proof (lookup_lt_Some _ _ _ Hpc') as Hlt.
  assert (Hpc2 : σ2 !! pc1 = Some cv) by (apply (keeps_lookup _ _ _ _ _ Hk); assumption).
  split; [lia|]. split; [assumption|].
  exists cv'. split; [assumption|].
  pose proof (converged_sim dig (Some pc1) (Some cv) c cv' σ2 Hcv' Hpc2) as Htest.
  destruct (converged_val dig (Some cv) cv') as [t| |]; try assumption.
  destruct Htest as (σ3 & Hrun3 & Hk3). exists σ3. split; [assumption|].
  apply (keeps_lookup _ _ _ _ _ Hk3); [|assumption].
  apply lookup_lt_Some in Hpc2. assumption.
Qed.

Lemma snapshot_by_value_witness :
  [mkRatio 3 2] !! 0%nat = Some (mkRatio 3 2) /\
  snapshot 0%nat [mkRatio 3 2] = Ok (1%nat, [mkRatio 3 2; mkRatio 3 2]) /\
  (1%nat <> 0%nat /\
   [mkRatio 3 2; mkRatio 3 2] !! 1%nat = Some (mkRatio 3 2) /\
   [mkRatio 3 2; mkRatio 3 2] !! 0%nat = Some (mkRatio 3 2) /\
   forall (σ' : store) (a : list Z) (c : ref) (σ2 : store),
     σ' !! 1%nat = Some (mkRatio 3 2) ->
     convergent a σ' = Ok (c, σ2) ->
     c <> 1%nat /\ σ2 !! 1%nat = Some (mkRatio 3 2) /\
     exists cv' : Ratio,
       σ2 !! c = Some cv' /\
       match converged_val 1 (Some (mkRatio 3 2)) cv' with
       | Ok t => exists σ3 : store,
           converged 1 (Some 1%nat) c σ2 = Ok (t, σ3) /\ σ3 !! 1%nat = Some (mkRatio 3 2)
       | Raise e => converged 1 (Some 1%nat) c σ2 = Raise e
       | OutOfFuel => converged 1 (Some 1%nat) c σ2 = OutOfFuel
       end).
Proof.
  split; [reflexivity|]. split; [reflexivity|].
  apply (snapshot_by_value 1 0%nat (mkRatio 3 2) [mkRatio 3 2] 1%nat
           [mkRatio 3 2; mkRatio 3 2]); reflexivity.
Defined.

(** The next round of a call of [precSqrt] is such a later store: there
    the fold of [a = [1; 2; 2]] reverses three objects in place, and the
    first snapshot still reads [3 / 2]. *)
Example snapshot_after_fold :
  exists (c : ref) (σ2 : store),
    convergent [1; 2; 2] [mkRatio 3 2; mkRatio 3 2] = Ok (c, σ2) /\
    σ2 !! 1%nat = Some (mkRatio 3 2) /\ σ2 !! c = Some (mkRatio 7 5).
Proof. eexists. eexists. split; [reflexivity|]. split; reflexivity. Qed.

(** ** Where the perfect-square branch is right, and termination at large *)

(** X14.  For a perfect square [k * k] below [2 ^ 53] the float square
    root is exact: [precSqrt] returns the string of [k], with no point,
    whatever the digit count, and without entering its loop. *)
Lemma precSqrt_small_square (fuel : nat) (k dig : Z) :
  0 <= k -> k * k < 2 ^ 53 -> precSqrt fuel (k * k) dig = Ok (str k).
Proof.
  intros Hk Hsmall. rewrite precSqrt_values. unfold precSqrt_val.
  destruct (Z.eq_dec k 0) as [->|Hk0]; [reflexivity|].
  assert (Hn : 0 < k * k) by nia.
  destruct (float_of_int_pos (k * k) Hn)
    as [(mx & ex & Hr & Hmx & Hex & Hdig & Hexact & _)|[_ Hd]].
  2:{ pose proof (Zdigits2_le_53 (k * k) ltac:(lia)). lia. }
  specialize (Hdig (Zdigits2_le_53 (k * k) ltac:(lia))).
  destruct (Zdigits2_bounds (k * k) Hn) as [Hd0 _].
  pose proof (Zdigits2_le_53 (k * k) ltac:(lia)) as Hd53.
  assert (Hex0 : ex <= 0) by lia. specialize (Hexact Hex0).
  destruct (SFsqrt_spec mx ex Hmx Hex) as (Q & HQeq & HQ & Hnear). cbv zeta in HQeq, Hnear.
  set (e' := ex / 2 - 26) in *.
  assert (He' : -52 <= e' <= -26).
  { unfold e'. pose proof (Z.div_mod ex 2 ltac:(lia)).
    pose proof (Z.mod_pos_bound ex 2 ltac:(lia)). lia. }
  set (T := 2 ^ (- e')).
  assert (HT : 0 < T) by (apply Z.pow_pos_nonneg; lia).
  assert (Hm' : Zpos mx * 2 ^ (ex - 2 * e') = (k * T) * (k * T)).
  { rewrite Hexact. unfold T.
    replace (k * 2 ^ (- e') * (k * 2 ^ (- e'))) with (k * k * (2 ^ (- e') * 2 ^ (- e'))) by ring.
    rewrite <- Z.mul_assoc, <- !Z.pow_add_r by lia. f_equal. f_equal. lia. }
  rewrite Hm', !Z.pow_2_r in Hnear.
  assert (HQk : Zpos Q = k * T) by nia.
  assert (Hsq : math_sqrt (k * k) = Ok (S754_finite false Q e')).
  { unfold math_sqrt. rewrite Hr. cbn [mbind result_bind]. rewrite <- HQeq. reflexivity. }
  rewrite Hsq. cbn [mbind result_bind].
  rewrite int_floor_float by lia.
  destruct (Z.leb_spec 0 e') as [|_]; [lia|].
  fold T. rewrite HQk, Z.div_mul by lia. cbn [mbind result_bind].
  unfold float_eq_int, cond_Zopp.
  destruct (Z.leb_spec 0 e') as [|_]; [lia|].
  fold T. rewrite HQk, Z.mod_mul, Z.div_mul, !Z.eqb_refl by lia. reflexivity.
Qed.

(** The float primitives never run out of rounds: they return or raise. *)
Lemma math_sqrt_returns (n : Z) : math_sqrt n <> OutOfFuel.
Proof.
  unfold math_sqrt, float_of_int.
  destruct (binary_normalize prec emax n 0 false) as [s|s| |[] m e];
    cbn [mbind result_bind]; discriminate.
Qed.

Lemma int_of_float_returns (x : spec_float) : int_of_float x <> OutOfFuel.
Proof. destruct x; discriminate. Qed.

(** Every call of [precSqrt] on integers ends: there is a number of rounds
    that is enough, whatever [n] and [dig] are. *)
Lemma precSqrt_total (n dig : Z) :
  exists K : nat, forall fuel : nat, (K <= fuel)%nat -> precSqrt fuel n dig <> OutOfFuel.
Proof.
  pose proof (math_sqrt_returns n) as Hs.
  destruct (math_sqrt n) as [x|e|] eqn:Hx; [| |congruence].
  - pose proof (int_of_float_returns (math_floor x)) as Hi.
    destruct (int_of_float (math_floor x)) as [a0|e|] eqn:Ha0; [| |congruence].
    + destruct (float_eq_int x a0) eqn:Heq.
      * exists 0%nat. intros fuel _. rewrite precSqrt_values. unfold precSqrt_val.
        rewrite Hx. cbn [mbind result_bind]. rewrite Ha0. cbn [mbind result_bind].
        rewrite Heq. discriminate.
      * destruct (precSqrt_general n dig x a0 Hx Ha0 Heq) as (K & _ & _ & _ & Hrun).
        exists K. intros fuel Hf. rewrite Hrun.
        destruct (Nat.leb_spec K fuel); [discriminate | lia].
    + exists 0%nat. intros fuel _. rewrite precSqrt_values. unfold precSqrt_val.
      rewrite Hx. cbn [mbind result_bind]. rewrite Ha0. cbn [mbind result_bind].
      discriminate.
  - exists 0%nat. intros fuel _. rewrite precSqrt_values. unfold precSqrt_val.
    rewrite Hx. cbn [mbind result_bind]. discriminate.
Qed.

(** * Further properties of the code *)

(** ** [gcd] and [lcm] *)

(** The value of [lcm]: the least common multiple with the sign of the
    second argument; [lcm(0, 0)] divides by zero. *)
Lemma lcm_val (a b : Z) :
  lcm a b =
  if (a =? 0) && (b =? 0) then Raise ZeroDivisionError
  else Ok (Z.sgn b * Z.lcm a b).
Proof.
  unfold lcm.
  destruct (Z.eqb_spec b 0) as [->|Hb].
  - rewrite gcd_zero_r, Z.mul_0_r, andb_true_r. cbn [Z.abs Z.sgn].
    unfold py_div. destruct (a =? 0); [reflexivity|].
    now rewrite Zdiv_0_l, Z.mul_0_l.
  - rewrite andb_false_r, py_div_Ok by (apply gcd_nonzero; assumption).
    rewrite gcd_spec by assumption. f_equal.
    pose proof (Z.gcd_nonneg a b) as Hg0.
    assert (Hgn : Z.gcd a b <> 0) by (intros H; apply Z.gcd_eq_0_r in H; contradiction).
    assert (Hl : Z.abs (a * b) = Z.lcm a b * Z.gcd a b).
    { unfold Z.lcm. destruct (Z.gcd_divide_r a b) as [b' Hb'].
      set (g := Z.gcd a b) in *. clearbody g.
      rewrite Hb' at 2. rewrite Z.div_mul by assumption.
      rewrite Hb' at 1. rewrite Z.mul_assoc, !Z.abs_mul, (Z.abs_eq g) by lia. ring. }
    rewrite Hl.
    destruct (Z.lt_total b 0) as [Hneg|[H0|Hpos]]; [|contradiction|].
    + rewrite Z.sgn_neg by assumption.
      replace (Z.lcm a b * Z.gcd a b) with ((-1 * Z.lcm a b) * (-1 * Z.gcd a b)) by ring.
      now rewrite Z.div_mul by lia.
    + rewrite Z.sgn_pos by assumption.
      replace (Z.lcm a b * Z.gcd a b) with ((1 * Z.lcm a b) * (1 * Z.gcd a b)) by ring.
      now rewrite Z.div_mul by lia.
Qed.

(** X1.  [gcd(m, n)] leaves its loop within [|n|] iterations, and what it
    returns is the greatest common divisor of [m] and [n] with the sign of
    [n]; for [n = 0] it is [m] itself, sign included. *)
Theorem gcd_signed (m n : Z) :
  snd (gcd_loop (Z.to_pos (Z.abs n)) m n) = 0 /\
  gcd m n = (if n =? 0 then m else Z.sgn n * Z.gcd m n) /\
  Z.abs (gcd m n) = Z.gcd m n.
Proof.
  destruct (Z.eqb_spec n 0) as [->|Hn].
  - split; [reflexivity|]. split; [reflexivity|].
    rewrite gcd_zero_r, Z.gcd_0_r. reflexivity.
  - assert (Hb : Z.abs n <= Z.of_nat (Pos.to_nat (Z.to_pos (Z.abs n))))
      by (rewrite positive_nat_Z, Z2Pos.id; lia).
    split; [rewrite gcd_loop_iter, gcd_iter_spec by assumption; reflexivity|].
    split; [apply gcd_spec; assumption|].
    rewrite gcd_spec by assumption.
    pose proof (Z.gcd_nonneg m n).
    rewrite Z.abs_mul, (Z.abs_eq (Z.gcd m n)) by assumption.
    destruct n; cbn [Z.sgn Z.abs]; try contradiction; lia.
Qed.

(** X2.  [lcm(a, b)] raises [ZeroDivisionError] exactly for [a = b = 0];
    otherwise it returns the least common multiple of [a] and [b] with the
    sign of [b] (so it is negative for a negative [b]). *)
Theorem lcm_signed (a b : Z) :
  (lcm a b = Raise ZeroDivisionError <-> a = 0 /\ b = 0) /\
  (a <> 0 \/ b <> 0 -> lcm a b = Ok (Z.sgn b * Z.lcm a b)).
Proof.
  rewrite lcm_val.
  destruct (Z.eqb_spec a 0) as [Ha|Ha]; destruct (Z.eqb_spec b 0) as [Hb|Hb]; cbn [andb].
  - split; [tauto|]. intros [H|H]; contradiction.
  - split; [split; [discriminate|tauto]|reflexivity].
  - split; [split; [discriminate|tauto]|reflexivity].
  - split; [split; [discriminate|tauto]|reflexivity].
Qed.

(** ** The operators of [Ratio] *)

Lemma inject_Z_nonzero (z : Z) : z <> 0 -> ~ (inject_Z z == 0)%Q.
Proof. intros Hz H. unfold Qeq in H. simpl in H. lia. Qed.

(** A fraction over any common multiple of the denominators that carries
    the sum of the scaled numerators denotes the sum. *)
Lemma value_sum (a b r : Ratio) :
  den a <> 0 -> den b <> 0 -> den r <> 0 ->
  num r * (den a * den b) = (num a * den b + num b * den a) * den r ->
  (value r == value a + value b)%Q.
Proof.
  intros Ha Hb Hr H. unfold value.
  assert (HQ : (inject_Z (num r) * (inject_Z (den a) * inject_Z (den b)) ==
                (inject_Z (num a) * inject_Z (den b) + inject_Z (num b) * inject_Z (den a))
                * inject_Z (den r))%Q).
  { rewrite <- !inject_Z_mult, <- inject_Z_plus, <- inject_Z_mult. now rewrite H. }
  pose proof (inject_Z_nonzero _ Ha). pose proof (inject_Z_nonzero _ Hb).
  pose proof (inject_Z_nonzero _ Hr).
  field_simplify_eq; [|tauto].
  rewrite <- Qmult_assoc, HQ. ring.
Qed.

(** X3.  For nonzero denominators [__add__] returns a fraction that
    denotes the sum of its operands; its denominator is the least common
    multiple of the two denominators, with the sign of the right one. *)
Theorem Ratio_add_value (a b : Ratio) :
  den a <> 0 -> den b <> 0 ->
  exists r : Ratio,
    Ratio_add a b = Ok r /\
    (value r == value a + value b)%Q /\
    den r = Z.sgn (den b) * Z.lcm (den a) (den b).
Proof.
  intros Ha Hb.
  destruct (Ratio_add_spec a b Ha Hb) as (r & Hr & Hsum & Hs).
  exists r. split; [assumption|].
  split; [apply value_sum; try assumption; intros Hz; rewrite Hz in Hs; lia|].
  unfold Ratio_add in Hr. rewrite lcm_val in Hr.
  destruct (Z.eqb_spec (den a) 0) as [|_]; [contradiction|]. cbn [andb] in Hr.
  cbn [mbind result_bind] in Hr. rewrite !py_div_Ok in Hr by assumption.
  cbn [mbind result_bind] in Hr. injection Hr as <-. reflexivity.
Qed.

Lemma Ratio_add_value_witness :
  den (mkRatio 1 2) <> 0 /\ den (mkRatio 1 (-3)) <> 0 /\
  exists r : Ratio,
    Ratio_add (mkRatio 1 2) (mkRatio 1 (-3)) = Ok r /\
    (value r == value (mkRatio 1 2) + value (mkRatio 1 (-3)))%Q /\
    den r = Z.sgn (den (mkRatio 1 (-3))) * Z.lcm (den (mkRatio 1 2)) (den (mkRatio 1 (-3))).
Proof.
  split; [discriminate|]. split; [discriminate|].
  apply (Ratio_add_value (mkRatio 1 2) (mkRatio 1 (-3))); discriminate.
Defined.

(** What the three operators that start with [lcd = lcm(self.den,
    other.den)] do when a denominator is zero. *)
Lemma zero_denominator (a b : Ratio) :
  den a = 0 \/ den b = 0 ->
  forall A (k : Z -> Z -> Z -> result A),
    (lcd ← lcm (den a) (den b);
     x ← py_div (num a * lcd) (den a);
     y ← py_div (num b * lcd) (den b);
     k lcd x y) = Raise ZeroDivisionError.
Proof.
  intros H A k'. rewrite lcm_val.
  destruct (Z.eqb_spec (den a) 0) as [Ha|Ha]; destruct (Z.eqb_spec (den b) 0) as [Hb|Hb];
    cbn [andb mbind result_bind]; [reflexivity| | |lia].
  - rewrite Ha, py_div_zero. reflexivity.
  - rewrite (py_div_Ok _ (den a)) by assumption. cbn [mbind result_bind].
    rewrite Hb, py_div_zero. reflexivity.
Qed.

(** X4.  When one of the two denominators is zero, [__add__], [__sub__],
    [__eq__] and [__lt__] all raise [ZeroDivisionError]. *)
Theorem Ratio_zero_denominator_raises (a b : Ratio) :
  den a = 0 \/ den b = 0 ->
  Ratio_add a b = Raise ZeroDivisionError /\
  Ratio_sub a b = Raise ZeroDivisionError /\
  Ratio_eq a b = Raise ZeroDivisionError /\
  Ratio_lt a b = Raise ZeroDivisionError.
Proof.
  intros H.
  split; [apply (zero_denominator a b H)|].
  split; [apply (zero_denominator a (mkRatio (- num b) (den b)) H)|].
  split; [apply (zero_denominator a b H)|].
  apply (zero_denominator a b H).
Qed.

Lemma Ratio_zero_denominator_raises_witness :
  (den (mkRatio 1 2) = 0 \/ den (mkRatio 5 0) = 0) /\
  Ratio_add (mkRatio 1 2) (mkRatio 5 0) = Raise ZeroDivisionError /\
  Ratio_sub (mkRatio 1 2) (mkRatio 5 0) = Raise ZeroDivisionError /\
  Ratio_eq (mkRatio 1 2) (mkRatio 5 0) = Raise ZeroDivisionError /\
  Ratio_lt (mkRatio 1 2) (mkRatio 5 0) = Raise ZeroDivisionError.
Proof.
  split; [right; reflexivity|].
  apply (Ratio_zero_denominator_raises (mkRatio 1 2) (mkRatio 5 0)). right; reflexivity.
Defined.

(** X5.  [__add__] does not reduce its result: two fractions over the same
    nonzero denominator [d] add up to the fraction over [d] again, as in
    [Ratio(1, 3) + Ratio(2, 3)], which is [Ratio(3, 3)] and not
    [Ratio(1, 1)]. *)
Theorem Ratio_add_same_denominator (a b d : Z) :
  d <> 0 -> Ratio_add (mkRatio a d) (mkRatio b d) = Ok (mkRatio (a + b) d).
Proof.
  intros Hd. unfold Ratio_add. cbn [num den]. rewrite lcm_val.
  destruct (Z.eqb_spec d 0) as [|_]; [contradiction|]. cbn [andb mbind result_bind].
  assert (Hl : Z.sgn d * Z.lcm d d = d).
  { rewrite Z.lcm_diag. destruct d; cbn [Z.sgn Z.abs]; lia. }
  rewrite Hl, !py_div_Ok, !Z.div_mul by assumption. reflexivity.
Qed.

Lemma Ratio_add_same_denominator_witness :
  3 <> 0 /\ Ratio_add (mkRatio 1 3) (mkRatio 2 3) = Ok (mkRatio (1 + 2) 3).
Proof. split; [discriminate | apply (Ratio_add_same_denominator 1 2 3); discriminate]. Defined.

(** [__sub__] returns a fraction that denotes the difference. *)
Lemma Ratio_sub_spec (a b : Ratio) :
  den a <> 0 -> den b <> 0 ->
  exists r : Ratio,
    Ratio_sub a b = Ok r /\ (value r == value a - value b)%Q /\ 0 < Z.sgn (den b) * den r.
Proof.
  intros Ha Hb. unfold Ratio_sub.
  destruct (Ratio_add_spec a (mkRatio (- num b) (den b)) Ha Hb) as (r & Hr & Hsum & Hs).
  exists r. split; [assumption|]. cbn [num den] in Hsum, Hs. split; [|assumption].
  assert (Hd : den r <> 0) by (intros Hz; rewrite Hz in Hs; lia).
  rewrite (value_sum a (mkRatio (- num b) (den b)) r Ha Hb Hd Hsum).
  unfold value. cbn [num den]. rewrite inject_Z_opp.
  pose proof (inject_Z_nonzero _ Ha). pose proof (inject_Z_nonzero _ Hb). field; tauto.
Qed.

(** X6.  For nonzero denominators [__sub__] returns a fraction that
    denotes the difference of its operands, over a denominator with the
    sign of the right operand's; the right operand is not changed, the
    negated numerator goes into a new fraction. *)
Theorem Ratio_sub_value (a b : Ratio) :
  den a <> 0 -> den b <> 0 ->
  exists r : Ratio,
    Ratio_sub a b = Ok r /\ (value r == value a - value b)%Q /\
    den r = Z.sgn (den b) * Z.lcm (den a) (den b).
Proof.
  intros Ha Hb.
  destruct (Ratio_sub_spec a b Ha Hb) as (r & Hr & Hv & _).
  exists r. split; [assumption|]. split; [assumption|].
  unfold Ratio_sub, Ratio_add in Hr. cbn [num den] in Hr. rewrite lcm_val in Hr.
  destruct (Z.eqb_spec (den a) 0) as [|_]; [contradiction|]. cbn [andb] in Hr.
  cbn [mbind result_bind] in Hr. rewrite !py_div_Ok in Hr by assumption.
  cbn [mbind result_bind] in Hr. injection Hr as <-. reflexivity.
Qed.

Lemma Ratio_sub_value_witness :
  den (mkRatio 5 4) <> 0 /\ den (mkRatio 3 4) <> 0 /\
  exists r : Ratio,
    Ratio_sub (mkRatio 5 4) (mkRatio 3 4) = Ok r /\
    (value r == value (mkRatio 5 4) - value (mkRatio 3 4))%Q /\
    den r = Z.sgn (den (mkRatio 3 4)) * Z.lcm (den (mkRatio 5 4)) (den (mkRatio 3 4)).
Proof.
  split; [discriminate|]. split; [discriminate|].
  apply (Ratio_sub_value (mkRatio 5 4) (mkRatio 3 4)); discriminate.
Defined.

(** [-1/2] equals [1/-2], and [Ratio(1, -3) < Ratio(1, 3)]. *)
Lemma Ratio_eq_correct_witness :
  den (mkRatio (-1) 2) <> 0 /\ den (mkRatio 1 (-2)) <> 0 /\
  exists t : bool,
    Ratio_eq (mkRatio (-1) 2) (mkRatio 1 (-2)) = Ok t /\
    (t = true <-> (value (mkRatio (-1) 2) == value (mkRatio 1 (-2)))%Q).
Proof.
  split; [discriminate|]. split; [discriminate|].
  apply (Ratio_eq_correct (mkRatio (-1) 2) (mkRatio 1 (-2))); discriminate.
Defined.

Lemma Ratio_lt_correct_witness :
  den (mkRatio 1 (-3)) <> 0 /\ den (mkRatio 1 3) <> 0 /\
  exists t : bool,
    Ratio_lt (mkRatio 1 (-3)) (mkRatio 1 3) = Ok t /\
    (t = true <->
     if 0 <? den (mkRatio 1 3) then (value (mkRatio 1 (-3)) < value (mkRatio 1 3))%Q
     else (value (mkRatio 1 3) < value (mkRatio 1 (-3)))%Q).
Proof.
  split; [discriminate|]. split; [discriminate|].
  apply (Ratio_lt_correct (mkRatio 1 (-3)) (mkRatio 1 3)); discriminate.
Defined.

Lemma value_abs (r : Ratio) : (value (Ratio_abs r) == Qabs (value r))%Q.
Proof.
  destruct r as [n d]. unfold value. cbn [num den Ratio_abs].
  unfold Qdiv. rewrite Qabs_Qmult, Qabs_Qinv. reflexivity.
Qed.

(** X9.  [__abs__] never raises, and for a nonzero denominator its result
    denotes the absolute value of its operand, over a positive
    denominator. *)
Theorem Ratio_abs_value (r : Ratio) :
  den r <> 0 ->
  (value (Ratio_abs r) == Qabs (value r))%Q /\ 0 < den (Ratio_abs r) /\ 0 <= num (Ratio_abs r).
Proof.
  intros Hd. split; [apply value_abs|].
  destruct r as [n d]. cbn [num den Ratio_abs] in *. lia.
Qed.

Lemma Ratio_abs_value_witness :
  den (mkRatio 1 (-5)) <> 0 /\
  (value (Ratio_abs (mkRatio 1 (-5))) == Qabs (value (mkRatio 1 (-5))))%Q /\
  0 < den (Ratio_abs (mkRatio 1 (-5))) /\ 0 <= num (Ratio_abs (mkRatio 1 (-5))).
Proof. split; [discriminate | apply (Ratio_abs_value (mkRatio 1 (-5))); discriminate]. Defined.

(** ** Strings of integers, and [Ratio.__str__] *)

Lemma str_inj (x y : Z) : str x = str y -> x = y.
Proof.
  unfold str. intros H.
  assert (Hn : forall z : Z, Z.to_int z <> Decimal.Pos Decimal.Nil /\
                             Z.to_int z <> Decimal.Neg Decimal.Nil).
  { intros [|p|p]; cbn [Z.to_int]; split; try discriminate;
      intros E; injection E as E; exact (DecimalPos.Unsigned.to_uint_nonnil p E). }
  apply (f_equal NilZero.int_of_string) in H.
  rewrite !NilZero.isi in H by apply Hn.
  injection H as H. apply (f_equal Z.of_int) in H.
  now rewrite !DecimalZ.of_to in H.
Qed.

Lemma string_of_uint_digits (d : Decimal.uint) :
  digits_only (NilEmpty.string_of_uint d) = true.
Proof. induction d; cbn [NilEmpty.string_of_uint digits_only]; try rewrite IHd; reflexivity. Qed.

(** The string of a non-negative integer has a digit or more, and digits
    only. *)
Lemma str_digits (z : Z) :
  0 <= z -> digits_only (str z) = true /\ str z <> EmptyString.
Proof.
  intros Hz. unfold str. destruct z as [|p|p]; [split; [reflexivity|discriminate]| |lia].
  cbn [Z.to_int NilZero.string_of_int]. unfold NilZero.string_of_uint.
  pose proof (DecimalPos.Unsigned.to_uint_nonnil p) as Hp.
  destruct (Pos.to_uint p) eqn:E; try contradiction;
    (split; [rewrite <- E at 1; rewrite E; apply (string_of_uint_digits _) | discriminate]).
Qed.

(** Two strings of digits followed by a slash and more are equal only
    part by part. *)
Lemma split_at_slash (u u' v v' : string) :
  digits_only u = true -> digits_only u' = true ->
  String.append u (String.append "/" v) = String.append u' (String.append "/" v') ->
  u = u' /\ v = v'.
Proof.
  revert u'. induction u as [|c u IH]; intros [|c' u'] Hu Hu' H; cbn in H.
  - injection H as H. split; [reflexivity|assumption].
  - injection H as Hc _. subst c'. cbn in Hu'. discriminate.
  - injection H as Hc _. subst c. cbn in Hu. discriminate.
  - injection H as Hc H. subst c'.
    cbn [digits_only] in Hu, Hu'. apply andb_true_iff in Hu, Hu'.
    destruct (IH u' (proj2 Hu) (proj2 Hu') H) as [-> ->]. split; reflexivity.
Qed.

(** X10.  Two fractions have the same string exactly when their
    numerators agree in absolute value, their denominators agree in
    absolute value, and the products of the two fields are both negative
    or both not: [__str__] shows the fields as they are, not reduced, with
    one sign in front. *)
Theorem Ratio_str_eq_iff (a b : Ratio) :
  Ratio_str a = Ratio_str b <->
  Z.abs (num a) = Z.abs (num b) /\ Z.abs (den a) = Z.abs (den b) /\
  (num a * den a <? 0) = (num b * den b <? 0).
Proof.
  unfold Ratio_str. split.
  - intros H.
    destruct (str_digits (Z.abs (num a)) (Z.abs_nonneg _)) as [Hda Hna].
    destruct (str_digits (Z.abs (num b)) (Z.abs_nonneg _)) as [Hdb Hnb].
    assert (Hs : (num a * den a <? 0) = (num b * den b <? 0)).
    { destruct (num a * den a <? 0), (num b * den b <? 0); try reflexivity; exfalso.
      - destruct (str (Z.abs (num b))) as [|c s]; [congruence|].
        cbn in H. injection H as Hc _. subst c. cbn in Hdb. discriminate.
      - destruct (str (Z.abs (num a))) as [|c s]; [congruence|].
        cbn in H. injection H as Hc _. subst c. cbn in Hda. discriminate. }
    rewrite Hs in H.
    assert (H' : String.append (str (Z.abs (num a))) (String.append "/" (str (Z.abs (den a))))
                 = String.append (str (Z.abs (num b))) (String.append "/" (str (Z.abs (den b))))).
    { destruct (num b * den b <? 0); cbn in H; [injection H as H|]; exact H. }
    destruct (split_at_slash _ _ _ _ Hda Hdb H') as [Hn Hd].
    split; [apply str_inj; assumption|]. split; [apply str_inj; assumption|assumption].
  - intros (-> & -> & ->). reflexivity.
Qed.

(** ** [Ratio] objects in the store *)

(** X11.  [rec] applied twice to an object gives the store back as it
    was: the second call undoes the swap of the first, and no other object
    is touched. *)
Theorem rec_twice_restores (σ : store) (r : ref) (v : Ratio) :
  σ !! r = Some v ->
  (RatioObj.rec r ≫= fun _ => RatioObj.rec r) σ = Ok (tt, σ).
Proof.
  intros Hr.
  rewrite (prog_bind_Ok _ _ _ _ _ (rec_spec r v σ Hr)).
  assert (Hlt : (r < length σ)%nat) by (eapply lookup_lt_Some; eassumption).
  rewrite (rec_spec r (Ratio_rec v)) by (apply list_lookup_insert_eq; assumption).
  rewrite list_insert_insert_eq. destruct v as [n d]. cbn [Ratio_rec num den].
  rewrite list_insert_id by assumption. reflexivity.
Qed.

Lemma rec_twice_restores_witness :
  [mkRatio 1 2; mkRatio (-3) 5] !! 1%nat = Some (mkRatio (-3) 5) /\
  (RatioObj.rec 1%nat ≫= fun _ => RatioObj.rec 1%nat) [mkRatio 1 2; mkRatio (-3) 5]
  = Ok (tt, [mkRatio 1 2; mkRatio (-3) 5]).
Proof.
  split; [reflexivity|].
  apply (rec_twice_restores [mkRatio 1 2; mkRatio (-3) 5] 1%nat (mkRatio (-3) 5)). reflexivity.
Defined.

(** X12.  [__add__], [__sub__] and [__abs__] change no object: when they
    return, the store is the old one followed by the objects they made (one,
    two for [__sub__]), and the result is the last of them.  [__lt__] and
    [__eq__] leave the store as it is.  [rec] is the one method that
    writes to an object. *)
Theorem methods_only_allocate (σ : store) (s o : ref) :
  match RatioObj.add s o σ with
  | Ok (r, σ') => r = length σ /\ exists v : Ratio, σ' = σ ++ [v]
  | _ => True
  end /\
  match RatioObj.sub s o σ with
  | Ok (r, σ') => r = S (length σ) /\ exists t v : Ratio, σ' = σ ++ [t; v]
  | _ => True
  end /\
  match RatioObj.abs s σ with
  | Ok (r, σ') => r = length σ /\ exists v : Ratio, σ' = σ ++ [v]
  | _ => True
  end /\
  match RatioObj.lt s o σ with
  | Ok (_, σ') => σ' = σ
  | _ => True
  end /\
  match RatioObj.eq s o σ with
  | Ok (_, σ') => σ' = σ
  | _ => True
  end.
Proof.
  assert (Hadd : forall (τ : store) (x y : ref),
             match RatioObj.add x y τ with
             | Ok (r, τ') => r = length τ /\ exists v : Ratio, τ' = τ ++ [v]
             | _ => True
             end).
  { intros τ x y. unfold RatioObj.add, get.
    rewrite prog_bind_unfold. destruct (τ !! x) as [xv|]; [|exact I].
    rewrite prog_bind_unfold. destruct (τ !! y) as [yv|]; [|exact I].
    rewrite lift_bind. destruct (Ratio_add xv yv) as [v| |]; [|exact I|exact I].
    unfold new_Ratio. split; [reflexivity|]. exists (mkRatio (num v) (den v)). reflexivity. }
  split; [apply Hadd|]. split; [|split; [|split]].
  - unfold RatioObj.sub, get.
    rewrite prog_bind_unfold. destruct (σ !! o) as [ov|]; [|exact I].
    rewrite new_Ratio_bind.
    specialize (Hadd (σ ++ [mkRatio (- num ov) (den ov)]) s (length σ)).
    destruct (RatioObj.add s (length σ) (σ ++ [mkRatio (- num ov) (den ov)]))
      as [[r σ']| |]; [|exact I|exact I].
    destruct Hadd as [-> [v ->]]. rewrite length_app. cbn [length].
    split; [lia|]. exists (mkRatio (- num ov) (den ov)), v.
    rewrite <- app_assoc. reflexivity.
  - unfold RatioObj.abs, get.
    rewrite prog_bind_unfold. destruct (σ !! s) as [sv|]; [|exact I].
    unfold new_Ratio. split; [reflexivity|]. eexists. reflexivity.
  - unfold RatioObj.lt, get.
    rewrite prog_bind_unfold. destruct (σ !! s) as [sv|]; [|exact I].
    rewrite prog_bind_unfold. destruct (σ !! o) as [ov|]; [|exact I].
    unfold lift. destruct (Ratio_lt sv ov); [reflexivity|exact I|exact I].
  - unfold RatioObj.eq, get.
    rewrite prog_bind_unfold. destruct (σ !! s) as [sv|]; [|exact I].
    rewrite prog_bind_unfold. destruct (σ !! o) as [ov|]; [|exact I].
    unfold lift. destruct (Ratio_eq sv ov); [reflexivity|exact I|exact I].
Qed.

(** ** The test cases *)

(** X13.  Every test method of [RatioTest], run on an empty store, reaches
    its end with all its assertions true: [test_add], [test_sub],
    [test_eq], [test_lt], [test_str], [test_abs] and [test_rec] pass. *)
Theorem RatioTest_passes :
  Forall (fun t : prog bool => exists σ : store, t [] = Ok (true, σ)) RatioTest.tests.
Proof. repeat constructor; eexists; vm_compute; reflexivity. Qed.

(** ** The convergents lie on alternating sides of the root *)

Lemma cf_state_S (n : Z) (k : nat) :
  cf_state n (S k) =
  let '(m, d, a) := cf_state n k in
  let m' := d * List.last a 0 - m in
  let d' := (n - m' ^ 2) / d in
  (m', d', a ++ [(Z.sqrt n + m') / d']).
Proof. reflexivity. Qed.

Lemma alt_S (k : nat) : alt (S k) = - alt k.
Proof.
  unfold alt. rewrite Nat.even_succ, <- Nat.negb_even.
  destruct (Nat.even k); reflexivity.
Qed.

Lemma alt_cases (k : nat) : alt k = 1 \/ alt k = -1.
Proof. unfold alt. destruct (Nat.even k); [left|right]; reflexivity. Qed.

(** With [p / q] the convergent of round [k] and [p' / q'] the one before,
    [p ^ 2 - n * q ^ 2] is the next [d] up to the sign [(-1) ^ (k + 1)],
    and [p * p' - n * q * q'] is the next [m] up to the sign [(-1) ^ k]. *)
Lemma cf_norm (n : Z) (k : nat) :
  Z.sqrt n * Z.sqrt n < n ->
  let '(m, d, a) := cf_state n k in
  let '(m1, d1, a1) := cf_state n (S k) in
  let '(p, q, p', q') := continuant a in
  1 <= d /\ 1 <= d1 /\ n - m1 * m1 = d * d1 /\
  a1 = a ++ [(Z.sqrt n + m1) / d1] /\
  p * p' - n * q * q' = alt k * m1 /\
  p * p - n * q * q = - alt k * d1 /\
  p' * p' - n * q' * q' = alt k * d.
Proof.
  intros Hn. destruct (sqrt_nonsquare_bounds n Hn) as [Ha0 Hhi].
  induction k as [|k IH].
  - rewrite cf_state_S. cbn [cf_state List.last continuant].
    destruct (cf_first_step n (Z.sqrt n) ltac:(lia) Hn Hhi) as (Hm & Hd & He & _).
    cbv zeta in Hm, Hd, He |- *.
    set (m := 1 * Z.sqrt n - 0) in *. set (d := (n - m ^ 2) / 1) in *.
    clearbody d. unfold alt. cbn [Nat.even].
    split; [lia|]. split; [lia|]. split; [lia|]. split; [reflexivity|].
    subst m. nia.
  - pose proof (cf_state_inv n k Hn) as Hinv.
    rewrite (cf_state_S n (S k)).
    destruct (cf_state n k) as [[m d] a].
    destruct (cf_state n (S k)) as [[m1 d1] a1].
    destruct (continuant a) as [[[p q] p'] q'] eqn:Hc.
    destruct IH as (Hd & Hd1 & He & Ha1 & I3 & I4 & I5).
    destruct Hinv as (Hm1 & _ & _ & H1 & H2 & _ & Hlast & _ & _).
    rewrite (List_last_stdpp _ _ Hlast).
    destruct (cf_step_arith n (Z.sqrt n) m1 d1 d ltac:(lia) Hn Hhi ltac:(lia) Hd1
                ltac:(lia) H1 H2) as (_ & _ & Hd2 & He2 & _).
    cbv zeta in Hd2, He2 |- *.
    set (t := (Z.sqrt n + m1) / d1) in *.
    set (m2 := d1 * t - m1) in *. set (d2 := (n - m2 ^ 2) / d1) in *.
    subst a1. rewrite continuant_snoc, Hc.
    rewrite alt_S. destruct (alt_cases k) as [Hs|Hs]; rewrite Hs in *.
    + assert (Hd2' : d2 = d + 2 * t * m1 - t * t * d1).
      { apply (Z.mul_cancel_l _ _ d1); [lia|]. subst m2. clearbody d2 t. nia. }
      split; [lia|]. split; [lia|]. split; [lia|]. split; [reflexivity|].
      clearbody d2. subst m2. clear He2 He Hd2. clearbody t.
      split; [nia|]. split; [nia|]. lia.
    + assert (Hd2' : d2 = d + 2 * t * m1 - t * t * d1).
      { apply (Z.mul_cancel_l _ _ d1); [lia|]. subst m2. clearbody d2 t. nia. }
      split; [lia|]. split; [lia|]. split; [lia|]. split; [reflexivity|].
      clearbody d2. subst m2. clear He2 He Hd2. clearbody t.
      split; [nia|]. split; [nia|]. lia.
Qed.

(** ** The square test of line 136, for radicands below [2 ^ 52] *)

Lemma enters_core (n a0 Q T : Z) :
  0 <= a0 -> a0 < T -> a0 * a0 < n -> n < (a0 + 1) * (a0 + 1) ->
  (2 * Q - 1) * (2 * Q - 1) < 4 * (n * (T * T)) ->
  4 * (n * (T * T)) < (2 * Q + 1) * (2 * Q + 1) ->
  0 < Q -> a0 * T < Q < (a0 + 1) * T.
Proof.
  intros Ha0 HT Hlo Hhi H1 H2 HQ. split.
  - destruct (Z.lt_ge_cases (a0 * T) Q) as [|Hle]; [assumption|exfalso].
    assert (H3 : (2 * Q + 1) * (2 * Q + 1) <= (2 * (a0 * T) + 1) * (2 * (a0 * T) + 1))
      by (apply Z.mul_le_mono_nonneg; lia).
    assert (H4 : (a0 * a0 + 1) * (T * T) <= n * (T * T))
      by (apply Z.mul_le_mono_nonneg_r; nia).
    nia.
  - destruct (Z.lt_ge_cases Q ((a0 + 1) * T)) as [|Hge]; [assumption|exfalso].
    assert (H3 : (2 * ((a0 + 1) * T) - 1) * (2 * ((a0 + 1) * T) - 1)
                 <= (2 * Q - 1) * (2 * Q - 1))
      by (apply Z.mul_le_mono_nonneg; nia).
    assert (H4 : n * (T * T) <= ((a0 + 1) * (a0 + 1) - 1) * (T * T))
      by (apply Z.mul_le_mono_nonneg_r; nia).
    nia.
Qed.

(** For a non-square [n] below [2 ^ 52] the float [math.sqrt(n)] is no
    integer, its floor is the integer square root, and the loop is
    entered. *)
Lemma enters_loop (n : Z) :
  0 <= n < 2 ^ 52 -> Z.sqrt n * Z.sqrt n < n ->
  exists x : spec_float,
    math_sqrt n = Ok x /\ int_of_float (math_floor x) = Ok (Z.sqrt n) /\
    float_eq_int x (Z.sqrt n) = false.
Proof.
  intros Hb Hns. destruct (sqrt_nonsquare_bounds n Hns) as [Ha0 Hhi].
  assert (Hn : 0 < n) by nia.
  assert (Ha26 : Z.sqrt n < 2 ^ 26).
  { apply Z.sqrt_lt_square; [lia|lia|]. change (2 ^ 26 * 2 ^ 26) with (2 ^ 52). lia. }
  destruct (Zdigits2_bounds n Hn) as [Hd0 [Hdlo _]].
  assert (Hd52 : Zdigits2 n <= 52).
  { destruct (Z.le_gt_cases (Zdigits2 n) 52) as [|Hgt]; [assumption|exfalso].
    assert (2 ^ 52 <= 2 ^ (Zdigits2 n - 1)) by (apply Z.pow_le_mono_r; lia). lia. }
  destruct (float_of_int_pos n Hn)
    as [(mx & ex & Hr & Hmx & Hex & Hdig & Hexact & _)|[_ Hd]]; [|lia].
  specialize (Hdig ltac:(lia)).
  assert (Hex0 : ex <= 0) by lia. specialize (Hexact Hex0).
  destruct (SFsqrt_spec mx ex Hmx Hex) as (Q & HQeq & HQ & Hnear). cbv zeta in HQeq, Hnear.
  set (e' := ex / 2 - 26) in *.
  assert (He' : -52 <= e' <= -27).
  { unfold e'. pose proof (Z.div_mod ex 2 ltac:(lia)).
    pose proof (Z.mod_pos_bound ex 2 ltac:(lia)). lia. }
  set (T := 2 ^ (- e')).
  assert (HT : 2 ^ 27 <= T) by (apply Z.pow_le_mono_r; lia).
  assert (Hm' : Zpos mx * 2 ^ (ex - 2 * e') = n * (T * T)).
  { rewrite Hexact. unfold T.
    rewrite <- Z.mul_assoc, <- !Z.pow_add_r by lia. f_equal. f_equal. lia. }
  rewrite Hm', !Z.pow_2_r in Hnear.
  destruct (enters_core n (Z.sqrt n) (Zpos Q) T ltac:(lia) ltac:(lia) Hns Hhi
              (proj1 Hnear) (proj2 Hnear) ltac:(lia)) as [Hlo' Hhi'].
  assert (Hdiv : Zpos Q / T = Z.sqrt n).
  { symmetry. apply (Z.div_unique _ _ _ (Zpos Q - Z.sqrt n * T)); lia. }
  assert (Hmod : Zpos Q mod T <> 0).
  { rewrite Z.mod_eq, Hdiv by lia. lia. }
  exists (S754_finite false Q e').
  split.
  { unfold math_sqrt. rewrite Hr. cbn [mbind result_bind]. rewrite <- HQeq. reflexivity. }
  split.
  { rewrite int_floor_float by lia.
    destruct (Z.leb_spec 0 e') as [|_]; [lia|]. fold T. now rewrite Hdiv. }
  unfold float_eq_int, cond_Zopp.
  destruct (Z.leb_spec 0 e') as [|_]; [lia|]. fold T.
  apply andb_false_iff. left. now apply Z.eqb_neq.
Qed.

(** ** How close the digits are to the root *)

(** The floor of [T] times a convergent whose neighbour lies on the other
    side of the root, less than [1 / T] away, is within one of the floor
    of [T] times the root. *)
Lemma accuracy_core (n T p q p' q' s d d1 : Z) :
  1 <= p -> 1 <= q -> 1 <= p' -> 1 <= q' -> 1 <= T -> 1 <= d -> 1 <= d1 ->
  s = 1 \/ s = -1 ->
  p * p - n * q * q = - s * d1 ->
  p' * p' - n * q' * q' = s * d ->
  p * q' - p' * q = 1 \/ p * q' - p' * q = -1 ->
  T < q * q' ->
  Z.abs (p * T / q - Z.sqrt (n * (T * T))) <= 1.
Proof.
  intros Hp Hq Hp' Hq' HT Hd Hd1 Hs H4 H5 Hdet Hstop.
  set (S := p * T / q).
  assert (HS : S * q <= p * T < (S + 1) * q).
  { unfold S. rewrite !(Z.mul_comm _ q). pose proof (Z.mul_div_le (p * T) q ltac:(lia)).
    pose proof (Z.mul_succ_div_gt (p * T) q ltac:(lia)). lia. }
  assert (HS0 : 0 <= S) by (unfold S; apply Z.div_pos; nia).
  clearbody S.
  assert (Hn : 0 <= n * (T * T)).
  { destruct Hs as [-> | ->]; [|nia].
    assert (0 <= n * (q' * q')) by nia. nia. }
  pose proof (Z.sqrt_spec _ Hn) as HR. cbv zeta in HR.
  pose proof (Z.sqrt_nonneg (n * (T * T))) as HR0.
  set (R := Z.sqrt (n * (T * T))) in *. clearbody R.
  assert (HTT : 0 < T * T) by nia.
  destruct Hs as [-> | ->].
  - (* the convergent is below the root, its neighbour above *)
    assert (Hdet' : p * q' - p' * q = -1).
    { destruct Hdet as [Hdet|]; [exfalso|assumption].
      assert (E1 : p * p * (q' * q') < n * (q * q) * (q' * q')) by nia.
      assert (E2 : n * (q' * q') * (q * q) < p' * p' * (q * q)) by nia.
      assert (E3 : (p' * q) * (p' * q) < (p * q') * (p * q'))
        by (apply Z.mul_lt_mono_nonneg; nia).
      nia. }
    assert (Hup : S <= R).
    { assert (E1 : (S * q) * (S * q) <= (p * T) * (p * T))
        by (apply Z.mul_le_mono_nonneg; nia).
      assert (E2 : p * p * (T * T) < n * (q * q) * (T * T))
        by (apply Z.mul_lt_mono_pos_r; lia).
      assert (E3 : S * S * (q * q) < n * (T * T) * (q * q)) by lia.
      assert (E4 : S * S < n * (T * T)) by (apply (Z.mul_lt_mono_pos_r (q * q)); nia).
      destruct (Z.le_gt_cases S R) as [|Hgt]; [assumption|exfalso].
      assert ((R + 1) * (R + 1) <= S * S) by (apply Z.mul_le_mono_nonneg; lia). lia. }
    assert (Hlo : R < S + 2).
    { assert (E0 : p * T * q' < (S + 1) * q * q')
        by (apply Z.mul_lt_mono_pos_r; lia).
      assert (E1 : p' * T * q < (S + 2) * q * q').
      { replace (p' * T * q) with ((p * q' + 1) * T)
          by (replace (p * q' + 1) with (p' * q) by lia; ring).
        lia. }
      assert (E2 : p' * T < (S + 2) * q').
      { apply (Z.mul_lt_mono_pos_r q); lia. }
      assert (E3 : n * (q' * q') * (T * T) < p' * p' * (T * T))
        by (apply Z.mul_lt_mono_pos_r; lia).
      assert (E4 : (p' * T) * (p' * T) < ((S + 2) * q') * ((S + 2) * q'))
        by (apply Z.mul_lt_mono_nonneg; nia).
      assert (E5 : n * (T * T) * (q' * q') < (S + 2) * (S + 2) * (q' * q')) by lia.
      assert (E6 : n * (T * T) < (S + 2) * (S + 2))
        by (apply (Z.mul_lt_mono_pos_r (q' * q')); nia).
      destruct (Z.lt_ge_cases R (S + 2)) as [|Hge]; [assumption|exfalso].
      assert ((S + 2) * (S + 2) <= R * R) by (apply Z.mul_le_mono_nonneg; lia). lia. }
    lia.
  - (* the convergent is above the root, its neighbour below *)
    assert (Hdet' : p * q' - p' * q = 1).
    { destruct Hdet as [|Hdet]; [assumption|exfalso].
      assert (E1 : n * (q * q) * (q' * q') < p * p * (q' * q')) by nia.
      assert (E2 : p' * p' * (q * q) < n * (q' * q') * (q * q)) by nia.
      assert (E3 : (p * q') * (p * q') < (p' * q) * (p' * q))
        by (apply Z.mul_lt_mono_nonneg; nia).
      nia. }
    assert (Hlo : R <= S).
    { assert (E1 : (p * T) * (p * T) < ((S + 1) * q) * ((S + 1) * q))
        by (apply Z.mul_lt_mono_nonneg; nia).
      assert (E2 : n * (q * q) * (T * T) < p * p * (T * T))
        by (apply Z.mul_lt_mono_pos_r; lia).
      assert (E3 : n * (T * T) * (q * q) < (S + 1) * (S + 1) * (q * q)) by lia.
      assert (E4 : n * (T * T) < (S + 1) * (S + 1))
        by (apply (Z.mul_lt_mono_pos_r (q * q)); nia).
      destruct (Z.le_gt_cases R S) as [|Hgt]; [assumption|exfalso].
      assert ((S + 1) * (S + 1) <= R * R) by (apply Z.mul_le_mono_nonneg; lia). lia. }
    assert (Hup : S <= R + 1).
    { destruct (Z.le_gt_cases S (R + 1)) as [|Hgt]; [assumption|exfalso].
      assert (E0 : S * q * q' <= p * T * q')
        by (apply Z.mul_le_mono_nonneg_r; lia).
      assert (E1 : (S - 1) * q * q' < p' * T * q).
      { replace (p' * T * q) with ((p * q' - 1) * T)
          by (replace (p * q' - 1) with (p' * q) by lia; ring).
        lia. }
      assert (E2 : (S - 1) * q' < p' * T).
      { apply (Z.mul_lt_mono_pos_r q); lia. }
      assert (E3 : p' * p' * (T * T) < n * (q' * q') * (T * T))
        by (apply Z.mul_lt_mono_pos_r; lia).
      assert (E4 : ((S - 1) * q') * ((S - 1) * q') < (p' * T) * (p' * T))
        by (apply Z.mul_lt_mono_nonneg; nia).
      assert (E5 : (S - 1) * (S - 1) * (q' * q') < n * (T * T) * (q' * q')) by lia.
      assert (E6 : (S - 1) * (S - 1) < n * (T * T))
        by (apply (Z.mul_lt_mono_pos_r (q' * q')); nia).
      assert ((R + 1) * (R + 1) <= (S - 1) * (S - 1)) by (apply Z.mul_le_mono_nonneg; lia).
      lia. }
    lia.
Qed.

(** A convergent of two terms or more, all at least one, exceeds one. *)
Lemma conv_above_one (b : list Z) :
  (2 <= length b)%nat -> Forall (fun x => 1 <= x) b -> 1 <= conv_den b < conv_num b.
Proof.
  intros Hlen Hb. destruct b as [|b0 b']; [simpl in Hlen; lia|].
  assert (Hne : b' <> []) by (intros ->; simpl in Hlen; lia).
  apply Forall_cons in Hb. destruct Hb as [Hb0 Hb'].
  destruct (conv_cons b0 b') as [-> ->].
  pose proof (continuant_pos b' Hne Hb') as Hpos.
  unfold conv_num, conv_den. destruct (continuant b') as [[[p q] p'] q'].
  destruct Hpos as (Hp & Hq & _). nia.
Qed.

(** The result on the general path: the rendering of a scaled integer
    within one of the integer square root of [n * 10 ^ (2 * dig)], whose
    integer part is the integer square root of [n]. *)
Lemma general_path (n dig : Z) (x : spec_float) (a0 : Z) :
  math_sqrt n = Ok x -> int_of_float (math_floor x) = Ok a0 ->
  float_eq_int x a0 = false -> 0 <= dig ->
  exists (K : nat) (S : Z),
    (forall fuel : nat, (K <= fuel)%nat -> precSqrt fuel n dig = Ok (render S dig)) /\
    Z.abs (S - Z.sqrt (n * 10 ^ (2 * dig))) <= 1 /\
    S / 10 ^ dig = Z.sqrt n /\ 1 <= Z.sqrt n.
Proof.
  intros Hx Ha0 Heq Hdig.
  destruct (seed_general n x a0 Hx Ha0 Heq) as (Hsq & Hn & _). rewrite Hsq in Hn.
  destruct (sqrt_nonsquare_bounds n Hn) as [Hs1 _].
  destruct (precSqrt_general n dig x a0 Hx Ha0 Heq) as (K & HK & Hstop & _ & Hrun).
  rewrite one_and_zeros_pow in Hrun by assumption.
  exists K, (conv_num (cf_terms n K) * 10 ^ dig / conv_den (cf_terms n K)).
  split; [intros fuel Hf; rewrite Hrun; destruct (Nat.leb_spec K fuel); [reflexivity|lia]|].
  destruct (cf_terms_facts n K Hn) as [Hlen Hall].
  destruct K as [|[|K]]; try lia.
  unfold stops in Hstop. rewrite one_and_zeros_pow in Hstop by lia.
  apply Z.ltb_lt in Hstop.
  pose proof (cf_norm n (S (S K)) Hn) as Hnorm.
  pose proof (cf_state_inv n (S K) Hn) as Hinv.
  unfold cf_terms in *.
  destruct (cf_state n (S (S K))) as [[m d] a]. cbn [snd] in *.
  destruct (cf_state n (S (S (S K)))) as [[m1 d1] a1].
  assert (Hne : a <> []) by (intros ->; simpl in Hlen; lia).
  pose proof (continuant_pos a Hne Hall) as Hpos.
  pose proof (continuant_det a) as Hdet.
  destruct Hinv as (_ & _ & _ & _ & _ & Hhd & _).
  assert (Hfrac : exists r : Z, conv_num a = Z.sqrt n * conv_den a + r /\ 0 <= r < conv_den a).
  { destruct a as [|y rest]; [contradiction|]. cbn in Hhd. injection Hhd as ->.
    apply Forall_cons in Hall. destruct Hall as [_ Hrest].
    destruct (conv_cons (Z.sqrt n) rest) as [-> ->].
    exists (conv_den rest). split; [reflexivity|].
    pose proof (conv_above_one rest ltac:(simpl in Hlen; lia) Hrest). lia. }
  unfold conv_num, conv_den, prev_den in *.
  destruct (continuant a) as [[[p q] p'] q'].
  destruct Hnorm as (Hd & Hd1 & _ & _ & _ & I4 & I5).
  destruct Hpos as (Hp & Hq & Hp' & _ & Hq'). specialize (Hq' ltac:(lia)).
  assert (HT : 1 <= 10 ^ dig) by (pose proof (Z.pow_pos_nonneg 10 dig); lia).
  assert (HT1 : 10 ^ dig < 10 ^ (dig + 1)) by (apply Z.pow_lt_mono_r; lia).
  split; [|split; [|assumption]].
  - replace (10 ^ (2 * dig)) with (10 ^ dig * 10 ^ dig)
      by (rewrite <- Z.pow_add_r by lia; f_equal; lia).
    apply (accuracy_core n (10 ^ dig) p q p' q' (alt (S (S K))) d d1);
      try assumption; try lia. apply alt_cases.
  - destruct Hfrac as (r & Hr & Hrb).
    rewrite Z.div_div, Z.div_mul_cancel_r by lia.
    symmetry. apply (Z.div_unique _ _ _ r); lia.
Qed.

(** X19.  For a non-square [n] below [2 ^ 52] and a digit count [dig >= 0],
    [precSqrt] returns the last two lines' rendering of a scaled integer
    [S] that is within one of the integer square root of
    [n * 10 ^ (2 * dig)], that is of the root of [n] scaled by [10 ^ dig]
    and truncated; the part of [S] above the last [dig] digits is the
    integer square root of [n].  So the digits are right up to one unit in
    the last place. *)
Theorem precSqrt_accuracy (n dig : Z) :
  0 <= n < 2 ^ 52 -> Z.sqrt n * Z.sqrt n <> n -> 0 <= dig ->
  exists (K : nat) (S : Z),
    (forall fuel : nat, (K <= fuel)%nat -> precSqrt fuel n dig = Ok (render S dig)) /\
    Z.abs (S - Z.sqrt (n * 10 ^ (2 * dig))) <= 1 /\
    S / 10 ^ dig = Z.sqrt n.
Proof.
  intros Hn Hns Hdig.
  assert (Hlt : Z.sqrt n * Z.sqrt n < n).
  { pose proof (Z.sqrt_spec n ltac:(lia)) as Hs. cbv zeta in Hs. lia. }
  destruct (enters_loop n Hn Hlt) as (x & Hx & Ha0 & Heq).
  destruct (general_path n dig x (Z.sqrt n) Hx Ha0 Heq Hdig) as (K & S & Hrun & Hacc & Hint & _).
  exists K, S. split; [assumption|]. split; assumption.
Qed.

Lemma precSqrt_accuracy_witness :
  0 <= 19 < 2 ^ 52 /\ Z.sqrt 19 * Z.sqrt 19 <> 19 /\ 0 <= 4 /\
  exists (K : nat) (S : Z),
    (forall fuel : nat, (K <= fuel)%nat -> precSqrt fuel 19 4 = Ok (render S 4)) /\
    Z.abs (S - Z.sqrt (19 * 10 ^ (2 * 4))) <= 1 /\
    S / 10 ^ 4 = Z.sqrt 19.
Proof.
  split; [split; [discriminate|reflexivity]|]. split; [discriminate|]. split; [discriminate|].
  apply (precSqrt_accuracy 19 4); [split; [discriminate|reflexivity] | discriminate | discriminate].
Defined.

(** ** The decimal string of an integer, digit by digit *)

Lemma string_append_assoc (s t u : string) :
  String.append (String.append s t) u = String.append s (String.append t u).
Proof. induction s as [|c s IH]; cbn; [reflexivity|now rewrite IH]. Qed.

Lemma string_of_uint_revapp (l acc : Decimal.uint) :
  NilEmpty.string_of_uint (Decimal.revapp l acc) =
  String.append (NilEmpty.string_of_uint (Decimal.revapp l Decimal.Nil))
                (NilEmpty.string_of_uint acc).
Proof.
  revert acc. induction l; intros acc; cbn [Decimal.revapp]; try reflexivity;
    match goal with
    | |- context [Decimal.revapp l (?c acc)] =>
        rewrite (IHl (c acc)), (IHl (c Decimal.Nil))
    end;
    cbn [NilEmpty.string_of_uint]; rewrite string_append_assoc; reflexivity.
Qed.

Lemma str_pos (p : positive) :
  str (Zpos p) = NilEmpty.string_of_uint (Decimal.rev (Pos.to_little_uint p)).
Proof.
  unfold str. cbn [Z.to_int NilZero.string_of_int]. unfold NilZero.string_of_uint, Pos.to_uint.
  pose proof (DecimalPos.Unsigned.to_uint_nonnil p) as Hp. unfold Pos.to_uint in Hp.
  destruct (Decimal.rev (Pos.to_little_uint p)); try reflexivity. contradiction.
Qed.

(** The string of [10 * a + b] is the string of [a] followed by the digit
    [b]. *)
Lemma str_snoc (a b : Z) :
  0 < a -> 0 <= b < 10 ->
  exists c : ascii,
    is_digit c = true /\ str (10 * a + b) = String.append (str a) (String c EmptyString).
Proof.
  intros Ha Hb. destruct a as [|p|p]; try lia.
  destruct (10 * Zpos p + b) as [|q|q] eqn:Hq; try lia.
  rewrite !str_pos.
  change (Pos.to_little_uint q) with (DecimalPos.Unsigned.to_lu (N.pos q)).
  change (Pos.to_little_uint p) with (DecimalPos.Unsigned.to_lu (N.pos p)).
  assert (HN : N.pos q = (10 * N.pos p + Z.to_N b)%N) by lia.
  rewrite HN.
  assert (Hcases : b = 0 \/ b = 1 \/ b = 2 \/ b = 3 \/ b = 4 \/ b = 5 \/ b = 6 \/ b = 7
                   \/ b = 8 \/ b = 9) by lia.
  assert (Hsucc : forall m : N, (m + 1 = N.succ m)%N) by (intros; lia).
  unfold Decimal.rev.
  destruct Hcases as [->|[->|[->|[->|[->|[->|[->|[->|[->| ->]]]]]]]]];
    [ change (Z.to_N 0) with 0%N; rewrite N.add_0_r
    | change (Z.to_N 1) with (N.succ 0)
    | change (Z.to_N 2) with (N.succ (N.succ 0))
    | change (Z.to_N 3) with (N.succ (N.succ (N.succ 0)))
    | change (Z.to_N 4) with (N.succ (N.succ (N.succ (N.succ 0))))
    | change (Z.to_N 5) with (N.succ (N.succ (N.succ (N.succ (N.succ 0)))))
    | change (Z.to_N 6) with (N.succ (N.succ (N.succ (N.succ (N.succ (N.succ 0))))))
    | change (Z.to_N 7) with (N.succ (N.succ (N.succ (N.succ (N.succ (N.succ (N.succ 0)))))))
    | change (Z.to_N 8)
        with (N.succ (N.succ (N.succ (N.succ (N.succ (N.succ (N.succ (N.succ 0))))))))
    | change (Z.to_N 9)
        with (N.succ (N.succ (N.succ (N.succ (N.succ (N.succ (N.succ (N.succ (N.succ 0)))))))))
    ];
    rewrite ?N.add_succ_r, ?N.add_0_r, ?DecimalPos.Unsigned.to_lu_succ,
      DecimalPos.Unsigned.to_ldec_tenfold;
    cbn [Decimal.Little.succ Decimal.revapp];
    rewrite string_of_uint_revapp; cbn [NilEmpty.string_of_uint];
    eexists; (split; [|reflexivity]); reflexivity.
Qed.

Lemma length_append (s t : string) :
  String.length (String.append s t) = (String.length s + String.length t)%nat.
Proof. induction s as [|c s IH]; cbn; [reflexivity|now rewrite IH]. Qed.

Lemma digits_only_append (s t : string) :
  digits_only (String.append s t) = digits_only s && digits_only t.
Proof.
  induction s as [|c s IH]; cbn [String.append digits_only]; [reflexivity|].
  now rewrite IH, andb_assoc.
Qed.

(** The last [d] digits of an integer of more than [d] digits. *)
Lemma str_split (d : nat) (S : Z) :
  10 ^ Z.of_nat d <= S ->
  exists frac : string,
    str S = String.append (str (S / 10 ^ Z.of_nat d)) frac /\
    String.length frac = d /\ digits_only frac = true.
Proof.
  revert S. induction d as [|d IH]; intros S HS.
  - exists EmptyString. change (10 ^ Z.of_nat 0) with 1. rewrite Z.div_1_r.
    split; [|split; reflexivity].
    clear. induction (str S) as [|c s IHs]; cbn; [reflexivity|now rewrite <- IHs].
  - rewrite Nat2Z.inj_succ, Z.pow_succ_r in * by lia.
    assert (HP : 0 < 10 ^ Z.of_nat d) by (apply Z.pow_pos_nonneg; lia).
    pose proof (Z.div_mod S 10 ltac:(lia)) as Hdm.
    pose proof (Z.mod_pos_bound S 10 ltac:(lia)) as Hmb.
    assert (Hq : 10 ^ Z.of_nat d <= S / 10) by (apply Z.div_le_lower_bound; lia).
    destruct (str_snoc (S / 10) (S mod 10) ltac:(lia) Hmb) as (c & Hc & Hstr).
    rewrite <- Hdm in Hstr.
    destruct (IH (S / 10) Hq) as (frac & Hfrac & Hlen & Hdig).
    exists (String.append frac (String c EmptyString)).
    rewrite Z.div_div in Hfrac by lia.
    split; [|split].
    + rewrite Hstr, Hfrac, string_append_assoc. reflexivity.
    + rewrite length_append, Hlen. cbn. lia.
    + rewrite digits_only_append, Hdig. cbn [digits_only]. rewrite Hc. reflexivity.
Qed.

(** An integer below [10 ^ d] has at most [d] digits. *)
Lemma str_short (d : nat) (S : Z) :
  (1 <= d)%nat -> 0 <= S < 10 ^ Z.of_nat d -> (String.length (str S) <= d)%nat.
Proof.
  revert S. induction d as [|d IH]; intros S Hd HS; [lia|].
  destruct (Z.lt_ge_cases S 10) as [Hlt|Hge].
  - assert (Hcases : S = 0 \/ S = 1 \/ S = 2 \/ S = 3 \/ S = 4 \/ S = 5 \/ S = 6 \/ S = 7
                     \/ S = 8 \/ S = 9) by lia.
    destruct Hcases as [->|[->|[->|[->|[->|[->|[->|[->|[->| ->]]]]]]]]]; cbn; lia.
  - destruct d as [|d]; [change (10 ^ Z.of_nat 1) with 10 in HS; lia|].
    rewrite Nat2Z.inj_succ, Z.pow_succ_r in HS by lia.
    pose proof (Z.div_mod S 10 ltac:(lia)) as Hdm.
    pose proof (Z.mod_pos_bound S 10 ltac:(lia)) as Hmb.
    assert (Hq1 : 1 <= S / 10) by (apply Z.div_le_lower_bound; lia).
    assert (Hq : S / 10 < 10 ^ Z.of_nat (Datatypes.S d)) by (apply Z.div_lt_upper_bound; lia).
    destruct (str_snoc (S / 10) (S mod 10) ltac:(lia) Hmb) as (c & _ & Hstr).
    rewrite <- Hdm in Hstr. rewrite Hstr, length_append. cbn [String.length].
    specialize (IH (S / 10) ltac:(lia) ltac:(lia)). lia.
Qed.

Lemma substring_append_l (s t : string) :
  substring 0 (String.length s) (String.append s t) = s.
Proof. induction s as [|c s IH]; cbn; [destruct t; reflexivity|now rewrite IH]. Qed.

Lemma substring_append_r (s t : string) :
  substring (String.length s) (String.length t) (String.append s t) = t.
Proof.
  induction s as [|c s IH]; cbn [String.length String.append substring]; [|exact IH].
  induction t as [|c t IHt]; cbn; [reflexivity|now rewrite IHt].
Qed.

Lemma substring_all (s : string) : substring 0 (String.length s) s = s.
Proof. induction s as [|c s IH]; cbn; [reflexivity|now rewrite IH]. Qed.

(** ** The last two lines of [precSqrt] *)

Lemma render_short (S dig : Z) :
  (Z.of_nat (String.length (str S)) <= dig) -> render S dig = String "." (str S).
Proof.
  intros Hlen. unfold render, slice_to, slice_from, slice_bound, len.
  assert (Hb : Z.to_nat (if - dig <? 0 then Z.max 0 (- dig + Z.of_nat (String.length (str S)))
                         else Z.min (- dig) (Z.of_nat (String.length (str S)))) = 0%nat).
  { destruct (Z.ltb_spec (- dig) 0); lia. }
  rewrite Hb, Nat.sub_0_r, substring_all.
  destruct (str S); reflexivity.
Qed.

Lemma render_long (S dig : Z) :
  1 <= dig -> 10 ^ dig <= S ->
  exists frac : string,
    render S dig = String.append (str (S / 10 ^ dig)) (String "." frac) /\
    String.length frac = Z.to_nat dig /\ digits_only frac = true /\
    str S = String.append (str (S / 10 ^ dig)) frac.
Proof.
  intros Hdig HS.
  destruct (str_split (Z.to_nat dig) S) as (frac & Hstr & Hlen & Hdo);
    [rewrite Z2Nat.id by lia; assumption|].
  rewrite Z2Nat.id in Hstr by lia.
  exists frac. split; [|split; [|split]]; try assumption.
  unfold render, slice_to, slice_from, slice_bound, len. rewrite Hstr.
  set (A := str (S / 10 ^ dig)).
  assert (Hb : Z.to_nat (if - dig <? 0
                         then Z.max 0 (- dig + Z.of_nat (String.length (String.append A frac)))
                         else Z.min (- dig) (Z.of_nat (String.length (String.append A frac))))
               = String.length A).
  { rewrite length_append, Hlen. destruct (Z.ltb_spec (- dig) 0); lia. }
  rewrite Hb, substring_append_l.
  replace (String.length (String.append A frac) - String.length A)%nat
    with (String.length frac) by (rewrite length_append; lia).
  rewrite substring_append_r. reflexivity.
Qed.

(** X20.  What lines 155 and 156 make of a scaled integer [S >= 0].  When
    [S] has more than [dig >= 1] digits, the point is put before its last
    [dig] digits: the string is that of [S / 10 ^ dig], a point, and [dig]
    digits.  When [S] has [dig] digits or fewer the string is a point
    followed by the string of [S]: no zero is put after the point, so
    [S = 5] with [dig = 3] gives [".5"]; and [dig = 0] gives a point
    followed by all of [S]. *)
Theorem render_shape (S dig : Z) :
  0 <= S ->
  (dig = 0 -> render S dig = String "." (str S)) /\
  (1 <= dig -> S < 10 ^ dig -> render S dig = String "." (str S)) /\
  (1 <= dig -> 10 ^ dig <= S ->
   exists frac : string,
     render S dig = String.append (str (S / 10 ^ dig)) (String "." frac) /\
     String.length frac = Z.to_nat dig /\ digits_only frac = true /\
     str S = String.append (str (S / 10 ^ dig)) frac).
Proof.
  intros HS. split; [|split].
  - intros ->. unfold render, slice_to, slice_from, slice_bound, len. cbn [Z.opp Z.ltb Z.compare].
    rewrite Z.min_l by lia. cbn [Z.to_nat]. rewrite Nat.sub_0_r, substring_all.
    destruct (str S); reflexivity.
  - intros Hdig Hlt. apply render_short.
    pose proof (str_short (Z.to_nat dig) S ltac:(lia)) as H.
    rewrite Z2Nat.id in H by lia. specialize (H ltac:(lia)). lia.
  - apply render_long.
Qed.

Lemma render_shape_witness :
  0 <= 5 /\
  (3 = 0 -> render 5 3 = String "." (str 5)) /\
  (1 <= 3 -> 5 < 10 ^ 3 -> render 5 3 = String "." (str 5)) /\
  (1 <= 3 -> 10 ^ 3 <= 5 ->
   exists frac : string,
     render 5 3 = String.append (str (5 / 10 ^ 3)) (String "." frac) /\
     String.length frac = Z.to_nat 3 /\ digits_only frac = true /\
     str 5 = String.append (str (5 / 10 ^ 3)) frac).
Proof. split; [discriminate | apply (render_shape 5 3); discriminate]. Defined.

(** X21.  For a non-square [n] below [2 ^ 52] and [dig >= 1], the string
    that [precSqrt] returns is the string of the integer square root of
    [n], a point, and exactly [dig] decimal digits; read without the point
    it is the string of an integer within one of the integer square root
    of [n * 10 ^ (2 * dig)]. *)
Theorem precSqrt_string (n dig : Z) :
  0 <= n < 2 ^ 52 -> Z.sqrt n * Z.sqrt n <> n -> 1 <= dig ->
  exists (K : nat) (frac : string) (S : Z),
    (forall fuel : nat, (K <= fuel)%nat ->
       precSqrt fuel n dig = Ok (String.append (str (Z.sqrt n)) (String "." frac))) /\
    String.length frac = Z.to_nat dig /\ digits_only frac = true /\
    String.append (str (Z.sqrt n)) frac = str S /\
    Z.abs (S - Z.sqrt (n * 10 ^ (2 * dig))) <= 1.
Proof.
  intros Hn Hns Hdig.
  assert (Hlt : Z.sqrt n * Z.sqrt n < n).
  { pose proof (Z.sqrt_spec n ltac:(lia)) as Hs. cbv zeta in Hs. lia. }
  destruct (enters_loop n Hn Hlt) as (x & Hx & Ha0 & Heq).
  destruct (general_path n dig x (Z.sqrt n) Hx Ha0 Heq ltac:(lia))
    as (K & S & Hrun & Hacc & Hint & Hs1).
  assert (HP : 0 < 10 ^ dig) by (apply Z.pow_pos_nonneg; lia).
  assert (HS : 10 ^ dig <= S).
  { destruct (Z.le_gt_cases (10 ^ dig) S) as [|Hgt]; [assumption|exfalso].
    assert (S / 10 ^ dig <= 0); [|lia].
    destruct (Z.lt_ge_cases S 0) as [Hneg|Hpos].
    - apply Z.lt_le_incl, Z.div_lt_upper_bound; lia.
    - rewrite Z.div_small by lia. lia. }
  destruct (render_long S dig Hdig HS) as (frac & Hr & Hlen & Hdo & Hstr).
  rewrite Hint in Hr, Hstr.
  exists K, frac, S.
  split; [intros fuel Hf; rewrite (Hrun fuel Hf), Hr; reflexivity|].
  split; [assumption|]. split; [assumption|]. split; [symmetry; assumption|assumption].
Qed.

Lemma precSqrt_string_witness :
  0 <= 2 < 2 ^ 52 /\ Z.sqrt 2 * Z.sqrt 2 <> 2 /\ 1 <= 10 /\
  exists (K : nat) (frac : string) (S : Z),
    (forall fuel : nat, (K <= fuel)%nat ->
       precSqrt fuel 2 10 = Ok (String.append (str (Z.sqrt 2)) (String "." frac))) /\
    String.length frac = Z.to_nat 10 /\ digits_only frac = true /\
    String.append (str (Z.sqrt 2)) frac = str S /\
    Z.abs (S - Z.sqrt (2 * 10 ^ (2 * 10))) <= 1.
Proof.
  split; [split; [discriminate|reflexivity]|]. split; [discriminate|]. split; [discriminate|].
  apply (precSqrt_string 2 10); [split; [discriminate|reflexivity] | discriminate | discriminate].
Defined.

(** ** The powers of ten of lines 150 and 155 *)

Lemma uint_of_zeros (j : nat) :
  NilEmpty.uint_of_string (Nat.iter j (String.append "0") EmptyString)
  = Some (Nat.iter j Decimal.D0 Decimal.Nil).
Proof.
  induction j as [|j IH]; [reflexivity|].
  change (Nat.iter (S j) (String.append "0") EmptyString)
    with (String "0" (Nat.iter j (String.append "0") EmptyString)).
  cbn [NilEmpty.uint_of_string]. rewrite IH. reflexivity.
Qed.

Lemma of_uint_acc_zeros (j : nat) (acc : positive) :
  Zpos (Pos.of_uint_acc (Nat.iter j Decimal.D0 Decimal.Nil) acc) = Zpos acc * 10 ^ Z.of_nat j.
Proof.
  revert acc. induction j as [|j IH]; intros acc.
  - cbn. lia.
  - change (Nat.iter (S j) Decimal.D0 Decimal.Nil)
      with (Decimal.D0 (Nat.iter j Decimal.D0 Decimal.Nil)).
    cbn [Pos.of_uint_acc]. rewrite IH, Nat2Z.inj_succ, Z.pow_succ_r by lia. lia.
Qed.

(** X22.  The string ['1' + '0' * k] that lines 150 and 155 build, read
    back by [int], is [10 ^ k], and [1] when [k <= 0], where ['0' * k] is
    empty: for [dig <= -1] the tolerance of line 150 is [Ratio(1, 1)] and
    the scale of line 155 is [1]. *)
Theorem one_and_zeros_parsed (k : Z) :
  int_of_str (String.append "1" (str_repeat "0" k)) = Some (one_and_zeros k) /\
  (k <= 0 -> one_and_zeros k = 1).
Proof.
  split.
  - unfold int_of_str, str_repeat, one_and_zeros. cbn [String.append].
    unfold NilZero.uint_of_string. cbn [NilEmpty.uint_of_string].
    rewrite uint_of_zeros. cbn [DecimalString.uint_of_char option_map].
    f_equal. unfold N.of_uint. cbn [Pos.of_uint Z.of_N].
    rewrite of_uint_acc_zeros. f_equal. lia.
  - intros Hk. unfold one_and_zeros. now rewrite Z.max_l.
Qed.

(** ** How many rounds the loop takes *)

Lemma den_step (n : Z) (k : nat) :
  Z.sqrt n * Z.sqrt n < n ->
  1 <= conv_den (cf_terms n k) <= conv_den (cf_terms n (S k)) /\
  conv_den (cf_terms n k) + conv_den (cf_terms n (S k)) <= conv_den (cf_terms n (S (S k))).
Proof.
  intros Hn.
  destruct (cf_terms_S n k) as [t Ht]. destruct (cf_terms_S n (S k)) as [t2 Ht2].
  destruct (cf_terms_facts n k Hn) as [Hlen Hall].
  destruct (cf_terms_facts n (S k) Hn) as [_ Hall1].
  destruct (cf_terms_facts n (S (S k)) Hn) as [_ Hall2].
  rewrite Ht2 in Hall2 |- *. apply Forall_app in Hall2. destruct Hall2 as [_ Hall2].
  inversion Hall2 as [|? ? Ht2' _]; subst.
  destruct (conv_snoc (cf_terms n (S k)) t2) as (_ & -> & _ & _).
  rewrite Ht in Hall1 |- *. apply Forall_app in Hall1. destruct Hall1 as [_ Hall1].
  inversion Hall1 as [|? ? Ht' _]; subst.
  destruct (conv_snoc (cf_terms n k) t) as (_ & -> & _ & ->).
  assert (Hne : cf_terms n k <> []) by (intros E; rewrite E in Hlen; discriminate).
  pose proof (continuant_pos _ Hne Hall) as Hpos.
  unfold conv_den, prev_den. destruct (continuant (cf_terms n k)) as [[[p q] p'] q'].
  destruct Hpos as (_ & Hq & _ & Hq' & _). nia.
Qed.

(** The denominators at least double every two rounds. *)
Lemma den_pow (n : Z) (j : nat) :
  Z.sqrt n * Z.sqrt n < n -> 2 ^ Z.of_nat j <= conv_den (cf_terms n (2 * j)).
Proof.
  intros Hn. induction j as [|j IH].
  - destruct (den_step n 0 Hn) as [H _]. change (2 ^ Z.of_nat 0) with 1.
    change (2 * 0)%nat with 0%nat. lia.
  - replace (2 * S j)%nat with (S (S (2 * j))) by lia.
    rewrite Nat2Z.inj_succ, Z.pow_succ_r by lia.
    destruct (den_step n (2 * j) Hn) as [H1 H2]. lia.
Qed.

Lemma pow10_lt_pow2 (e : nat) : 10 ^ Z.of_nat e < 2 ^ (4 * Z.of_nat e + 1).
Proof.
  induction e as [|e IH]; [reflexivity|].
  rewrite Nat2Z.inj_succ, Z.pow_succ_r by lia.
  replace (4 * Z.succ (Z.of_nat e) + 1) with (4 + (4 * Z.of_nat e + 1)) by lia.
  rewrite Z.pow_add_r by lia. change (2 ^ 4) with 16. lia.
Qed.

(** The test of line 150 holds in round [4 * max(0, dig + 1) + 2]. *)
Lemma stops_within (n dig : Z) :
  Z.sqrt n * Z.sqrt n < n ->
  stops n dig (Z.to_nat (4 * Z.max 0 (dig + 1) + 2)) = true.
Proof.
  intros Hn. set (e := Z.to_nat (Z.max 0 (dig + 1))).
  replace (Z.to_nat (4 * Z.max 0 (dig + 1) + 2)) with (S (S (2 * (2 * e)))) by lia.
  unfold stops, one_and_zeros. apply Z.ltb_lt.
  destruct (conv_den_grows n (2 * (2 * e)) Hn) as (_ & _ & ->).
  pose proof (den_pow n (S (2 * e)) Hn) as H1.
  replace (2 * S (2 * e))%nat with (S (S (2 * (2 * e)))) in H1 by lia.
  pose proof (den_pow n (2 * e) Hn) as H2.
  destruct (den_step n (2 * (2 * e)) Hn) as [H3 _].
  pose proof (pow10_lt_pow2 e) as H4.
  replace (Z.max 0 (dig + 1)) with (Z.of_nat e) by lia.
  rewrite Nat2Z.inj_succ, Z.pow_succ_r in H1 by lia.
  replace (4 * Z.of_nat e + 1) with (1 + (Z.of_nat (2 * e) + Z.of_nat (2 * e))) in H4 by lia.
  rewrite !Z.pow_add_r in H4 by lia. change (2 ^ 1) with 2 in H4.
  assert (0 < 2 ^ Z.of_nat (2 * e)) by (apply Z.pow_pos_nonneg; lia).
  set (X := 2 ^ Z.of_nat (2 * e)) in *.
  set (A := conv_den (cf_terms n (S (S (2 * (2 * e)))))) in *.
  set (B := conv_den (cf_terms n (S (2 * (2 * e))))) in *.
  set (C := conv_den (cf_terms n (2 * (2 * e)))) in *.
  clearbody X A B C. nia.
Qed.

(** The float square root of a positive integer below [2 ^ 1023], and its
    floor. *)
Lemma math_sqrt_finite (n : Z) :
  0 < n < 2 ^ 1023 ->
  exists (x : spec_float) (a0 : Z),
    math_sqrt n = Ok x /\ int_of_float (math_floor x) = Ok a0.
Proof.
  intros Hn.
  destruct (Zdigits2_bounds n ltac:(lia)) as [Hd0 [Hdlo _]].
  assert (Hd : Zdigits2 n < 1024).
  { destruct (Z.lt_ge_cases (Zdigits2 n) 1024) as [|Hge]; [assumption|exfalso].
    assert (2 ^ 1023 <= 2 ^ (Zdigits2 n - 1)) by (apply Z.pow_le_mono_r; lia). lia. }
  destruct (float_of_int_pos n ltac:(lia)) as [(mx & ex & Hr & Hmx & Hex & _)|[_ Hov]]; [|lia].
  destruct (SFsqrt_spec mx ex Hmx Hex) as (Q & HQeq & HQ & _). cbv zeta in HQeq.
  assert (He' : -52 <= ex / 2 - 26 <= 900).
  { pose proof (Z.div_mod ex 2 ltac:(lia)). pose proof (Z.mod_pos_bound ex 2 ltac:(lia)). lia. }
  eexists. eexists. split.
  - unfold math_sqrt. rewrite Hr. cbn [mbind result_bind]. rewrite HQeq. reflexivity.
  - apply int_floor_float; assumption.
Qed.

(** With that many rounds [precSqrt] returns, for [0 <= n < 2 ^ 1023]. *)
Lemma returns_within (n dig : Z) (fuel : nat) :
  0 <= n < 2 ^ 1023 ->
  (Z.to_nat (4 * Z.max 0 (dig + 1) + 2) <= fuel)%nat ->
  exists s : string, precSqrt fuel n dig = Ok s.
Proof.
  intros Hn Hfuel.
  destruct (Z.eq_dec n 0) as [->|Hn0].
  { exists "0"%string. rewrite precSqrt_values. reflexivity. }
  destruct (math_sqrt_finite n ltac:(lia)) as (x & a0 & Hx & Ha0).
  destruct (float_eq_int x a0) eqn:Heq.
  - exists (str a0). rewrite precSqrt_values. unfold precSqrt_val.
    rewrite Hx. cbn [mbind result_bind]. rewrite Ha0. cbn [mbind result_bind].
    rewrite Heq. reflexivity.
  - destruct (seed_general n x a0 Hx Ha0 Heq) as (Hsq & Hns & _). rewrite Hsq in Hns.
    destruct (precSqrt_general n dig x a0 Hx Ha0 Heq) as (K & _ & _ & Hmin & Hrun).
    assert (HK : (K <= Z.to_nat (4 * Z.max 0 (dig + 1) + 2))%nat).
    { destruct (Nat.le_gt_cases K (Z.to_nat (4 * Z.max 0 (dig + 1) + 2))) as [|Hgt];
        [assumption|exfalso].
      specialize (Hmin _ Hgt). rewrite (stops_within n dig Hns) in Hmin. discriminate. }
    eexists. rewrite Hrun. destruct (Nat.leb_spec K fuel); [reflexivity|lia].
Qed.

(** X18.  For every [n] with [0 <= n < 2 ^ 1023] and every digit count,
    positive or not, [precSqrt] returns a string and raises nothing, and
    its loop takes at most [4 * max(0, dig + 1) + 2] rounds: the number of
    rounds grows at most linearly with the digits asked for.  The string
    does not depend on the round budget, once that is enough. *)
Theorem precSqrt_returns_within (n dig : Z) :
  0 <= n < 2 ^ 1023 ->
  exists s : string,
    forall fuel : nat,
      (Z.to_nat (4 * Z.max 0 (dig + 1) + 2) <= fuel)%nat -> precSqrt fuel n dig = Ok s.
Proof.
  intros Hn.
  destruct (returns_within n dig (Z.to_nat (4 * Z.max 0 (dig + 1) + 2)) Hn (Nat.le_refl _))
    as [s Hs].
  exists s. intros fuel Hfuel.
  apply (precSqrt_fuel_mono n dig (Z.to_nat (4 * Z.max 0 (dig + 1) + 2))); assumption.
Qed.

Lemma precSqrt_returns_within_witness :
  0 <= 7 < 2 ^ 1023 /\
  exists s : string,
    forall fuel : nat,
      (Z.to_nat (4 * Z.max 0 (3 + 1) + 2) <= fuel)%nat -> precSqrt fuel 7 3 = Ok s.
Proof.
  split; [split; [discriminate|reflexivity]|].
  apply (precSqrt_returns_within 7 3). split; [discriminate|reflexivity].
Defined.

(** ** Radicands beyond the precision of a float *)

Lemma precSqrt_small_square_witness :
  0 <= 12 /\ 12 * 12 < 2 ^ 53 /\ precSqrt 0 (12 * 12) 5 = Ok (str 12).
Proof.
  split; [discriminate|]. split; [reflexivity|].
  apply (precSqrt_small_square 0 12 5); [discriminate | reflexivity].
Defined.

(** X16.  For [n >= 2 ^ 104] the float [math.sqrt(n)] is an integer, so
    [precSqrt] takes its perfect-square branch whether [n] is a square or
    not: it returns the string of an integer, with no point and no
    fractional digit whatever [dig] is, or raises [OverflowError]. *)
Theorem precSqrt_large_never_fractional (n dig : Z) (fuel : nat) :
  2 ^ 104 <= n ->
  (exists k : Z, precSqrt fuel n dig = Ok (str k)) \/
  precSqrt fuel n dig = Raise OverflowError.
Proof.
  intros Hn. rewrite precSqrt_values. unfold precSqrt_val.
  assert (Hn0 : 0 < n) by (pose proof (Z.pow_pos_nonneg 2 104); lia).
  destruct (float_of_int_pos n Hn0) as [(mx & ex & Hr & Hmx & Hex & _)|[Hov _]].
  - left.
    destruct (SFsqrt_spec mx ex Hmx Hex) as (Q & HQeq & HQ & _). cbv zeta in HQeq.
    assert (He' : -52 <= ex / 2 - 26 <= 900).
    { pose proof (Z.div_mod ex 2 ltac:(lia)). pose proof (Z.mod_pos_bound ex 2 ltac:(lia)). lia. }
    assert (Hx : math_sqrt n = Ok (S754_finite false Q (ex / 2 - 26))).
    { unfold math_sqrt. rewrite Hr. cbn [mbind result_bind]. rewrite HQeq. reflexivity. }
    pose proof (int_floor_float Q (ex / 2 - 26) HQ He') as Ha0.
    rewrite Hx. cbn [mbind result_bind]. rewrite Ha0. cbn [mbind result_bind].
    destruct (float_eq_int _ _) eqn:Heq; [eexists; reflexivity|exfalso].
    destruct (seed_general n _ _ Hx Ha0 Heq) as (Hsq & _ & Hb). rewrite Hsq in Hb.
    assert (2 ^ 52 <= Z.sqrt n); [|lia].
    apply Z.sqrt_le_square; [lia| |]; [apply Z.pow_nonneg; lia|].
    change (2 ^ 52 * 2 ^ 52) with (2 ^ 104). assumption.
  - right. unfold math_sqrt. rewrite Hov. reflexivity.
Qed.

Lemma precSqrt_large_never_fractional_witness :
  2 ^ 104 <= 2 ^ 104 + 1 /\
  ((exists k : Z, precSqrt 0 (2 ^ 104 + 1) 5 = Ok (str k)) \/
   precSqrt 0 (2 ^ 104 + 1) 5 = Raise OverflowError).
Proof.
  split; [discriminate|].
  apply (precSqrt_large_never_fractional (2 ^ 104 + 1) 5 0). discriminate.
Defined.

(** X17.  For [n >= 2 ^ 1024], which no float holds, [precSqrt] raises
    [OverflowError] at its first call of [math.sqrt]. *)
Theorem precSqrt_too_large_overflows (n dig : Z) (fuel : nat) :
  2 ^ 1024 <= n -> precSqrt fuel n dig = Raise OverflowError.
Proof.
  intros Hn. rewrite precSqrt_values. unfold precSqrt_val.
  assert (Hn0 : 0 < n) by (pose proof (Z.pow_pos_nonneg 2 1024); lia).
  destruct (float_of_int_pos n Hn0)
    as [(mx & ex & Hr & Hmx & Hex & _ & Hexact & Hnear & _)|[Hov _]].
  - exfalso.
    assert (H53 : 2 ^ 53 < 2 ^ 1024) by reflexivity.
    destruct (Z.le_gt_cases ex 0) as [Hle|Hgt].
    + specialize (Hexact Hle).
      assert (1 <= 2 ^ (- ex)) by (pose proof (Z.pow_pos_nonneg 2 (- ex)); lia). nia.
    + specialize (Hnear Hgt).
      assert (Hp : 2 ^ ex <= 2 ^ 971) by (apply Z.pow_le_mono_r; lia).
      assert (Hp0 : 0 < 2 ^ ex) by (apply Z.pow_pos_nonneg; lia).
      assert (Hm : Zpos mx * 2 ^ ex <= (2 ^ 53 - 1) * 2 ^ 971).
      { apply Z.mul_le_mono_nonneg; lia. }
      assert (Hc : (2 ^ 53 - 1) * 2 ^ 971 + 2 ^ 971 = 2 ^ 1024) by reflexivity.
      lia.
  - unfold math_sqrt. rewrite Hov. reflexivity.
Qed.

Lemma precSqrt_too_large_overflows_witness :
  2 ^ 1024 <= 2 ^ 1024 /\ precSqrt 0 (2 ^ 1024) 5 = Raise OverflowError.
Proof.
  split; [discriminate|]. apply (precSqrt_too_large_overflows (2 ^ 1024) 5 0). discriminate.
Defined.

(** The float of [2 ^ 52 * W + 1], for a power of two [W >= 4], is
    [2 ^ 52 * W]: the one is rounded away. *)
Lemma float_of_pow_plus_one (w : Z) :
  2 <= w <= 970 ->
  float_of_int (2 ^ 52 * 2 ^ w + 1) = Ok (S754_finite false (Z.to_pos (2 ^ 52)) w).
Proof.
  intros Hw. set (W := 2 ^ w).
  assert (HW : 4 <= W) by (change 4 with (2 ^ 2); apply Z.pow_le_mono_r; lia).
  assert (Hd : Zdigits2 (2 ^ 52 * W + 1) = w + 53).
  { apply Zdigits2_unique; [lia|].
    replace (w + 53 - 1) with (52 + w) by lia.
    replace (w + 53) with (53 + w) by lia. rewrite !Z.pow_add_r by lia. fold W. lia. }
  destruct (float_of_int_pos (2 ^ 52 * W + 1) ltac:(lia))
    as [(mx & ex & Hr & Hmx & Hex & _ & Hexact & Hnear & _)|[_ Hov]]; [|lia].
  destruct (Z.le_gt_cases ex 0) as [Hle|Hgt].
  { exfalso. specialize (Hexact Hle).
    assert (1 <= 2 ^ (- ex)) by (pose proof (Z.pow_pos_nonneg 2 (- ex)); lia). nia. }
  specialize (Hnear Hgt).
  assert (HP0 : 0 < 2 ^ ex) by (apply Z.pow_pos_nonneg; lia).
  assert (Hex' : ex = w).
  { destruct (Z.lt_trichotomy ex w) as [Hlt|[E|Hlt]]; [exfalso|assumption|exfalso].
    - assert (H2 : 2 * 2 ^ ex <= W).
      { unfold W. replace w with (1 + (w - 1)) by lia. rewrite Z.pow_add_r by lia.
        change (2 ^ 1) with 2. apply Z.mul_le_mono_nonneg_l; [lia|].
        apply Z.pow_le_mono_r; lia. }
      assert (Zpos mx * 2 ^ ex <= (2 ^ 53 - 1) * 2 ^ ex)
        by (apply Z.mul_le_mono_nonneg_r; lia).
      lia.
    - assert (H2 : 2 * W <= 2 ^ ex).
      { replace ex with (1 + (ex - 1)) by lia. rewrite Z.pow_add_r by lia.
        change (2 ^ 1) with 2. apply Z.mul_le_mono_nonneg_l; [lia|].
        apply Z.pow_le_mono_r; lia. }
      assert (2 ^ 52 * 2 ^ ex <= Zpos mx * 2 ^ ex)
        by (apply Z.mul_le_mono_nonneg_r; lia).
      lia. }
  subst ex. fold W in Hnear, HP0.
  assert (Hmx' : Zpos mx = 2 ^ 52).
  { destruct (Z.eq_dec (Zpos mx) (2 ^ 52)) as [|Hne]; [assumption|exfalso].
    assert ((2 ^ 52 + 1) * W <= Zpos mx * W) by (apply Z.mul_le_mono_nonneg_r; lia).
    lia. }
  rewrite Hr. f_equal. f_equal. rewrite <- Hmx'. reflexivity.
Qed.

(** X15.  A family of non-squares that [precSqrt] takes for squares: for
    [27 <= j <= 511] and every digit count, [precSqrt(4 ^ j + 1, dig)]
    returns the string of [2 ^ j], without point or fractional digit,
    although [4 ^ j + 1] is no perfect square: both the conversion of
    [4 ^ j + 1] to a float and [math.sqrt] round, and the float root is the
    integer [2 ^ j]. *)
Theorem precSqrt_nonsquare_as_square (j dig : Z) (fuel : nat) :
  27 <= j <= 511 ->
  precSqrt fuel (4 ^ j + 1) dig = Ok (str (2 ^ j)) /\
  Z.sqrt (4 ^ j + 1) = 2 ^ j /\
  Z.sqrt (4 ^ j + 1) * Z.sqrt (4 ^ j + 1) <> 4 ^ j + 1.
Proof.
  intros Hj.
  assert (H4 : 4 ^ j = 2 ^ j * 2 ^ j).
  { change 4 with (2 * 2). rewrite Z.pow_mul_l. reflexivity. }
  assert (Hp : 0 < 2 ^ j) by (apply Z.pow_pos_nonneg; lia).
  assert (Hs : Z.sqrt (4 ^ j + 1) = 2 ^ j).
  { apply Z.sqrt_unique. rewrite H4. nia. }
  split; [|split; [assumption|rewrite Hs; lia]].
  assert (Hn : 4 ^ j + 1 = 2 ^ 52 * 2 ^ (2 * j - 52) + 1).
  { rewrite <- Z.pow_add_r by lia. rewrite H4, <- Z.pow_add_r by lia.
    f_equal. f_equal. lia. }
  pose proof (float_of_pow_plus_one (2 * j - 52) ltac:(lia)) as Hf. rewrite <- Hn in Hf.
  set (mx := Z.to_pos (2 ^ 52)) in *.
  assert (Hmx : Zpos mx = 2 ^ 52) by reflexivity.
  destruct (SFsqrt_spec mx (2 * j - 52) ltac:(rewrite Hmx; split; [lia|reflexivity]) ltac:(lia))
    as (Q & HQeq & HQ & Hnear).
  cbv zeta in HQeq, Hnear.
  assert (He : (2 * j - 52) / 2 - 26 = j - 52).
  { replace (2 * j - 52) with ((j - 26) * 2) by lia. rewrite Z.div_mul by lia. lia. }
  rewrite He in HQeq, Hnear.
  replace (2 * j - 52 - 2 * (j - 52)) with 52 in Hnear by lia.
  rewrite Hmx in Hnear.
  assert (HQ' : Zpos Q = 2 ^ 52).
  { change (4 * (2 ^ 52 * 2 ^ 52)) with (2 ^ 53 * 2 ^ 53) in Hnear.
    rewrite !Z.pow_2_r in Hnear. destruct Hnear as [Hlo Hhi].
    assert (2 * Zpos Q - 1 < 2 ^ 53).
    { destruct (Z.lt_ge_cases (2 * Zpos Q - 1) (2 ^ 53)) as [|Hge]; [assumption|exfalso].
      assert (2 ^ 53 * 2 ^ 53 <= (2 * Zpos Q - 1) * (2 * Zpos Q - 1))
        by (apply Z.mul_le_mono_nonneg; lia). lia. }
    assert (2 ^ 53 < 2 * Zpos Q + 1).
    { destruct (Z.lt_ge_cases (2 ^ 53) (2 * Zpos Q + 1)) as [|Hge]; [assumption|exfalso].
      assert ((2 * Zpos Q + 1) * (2 * Zpos Q + 1) <= 2 ^ 53 * 2 ^ 53)
        by (apply Z.mul_le_mono_nonneg; lia). lia. }
    lia. }
  assert (Hx : math_sqrt (4 ^ j + 1) = Ok (S754_finite false Q (j - 52))).
  { unfold math_sqrt. rewrite Hf. cbn [mbind result_bind]. rewrite HQeq. reflexivity. }
  assert (Hval : (if 0 <=? j - 52 then Zpos Q * 2 ^ (j - 52)
                  else Zpos Q / 2 ^ (- (j - 52))) = 2 ^ j).
  { rewrite HQ'. destruct (Z.leb_spec 0 (j - 52)).
    - rewrite <- Z.pow_add_r by lia. f_equal. lia.
    - replace (2 ^ 52) with (2 ^ j * 2 ^ (- (j - 52)))
        by (rewrite <- Z.pow_add_r by lia; f_equal; lia).
      apply Z.div_mul. apply Z.pow_nonzero; lia. }
  assert (Ha0 : int_of_float (math_floor (S754_finite false Q (j - 52))) = Ok (2 ^ j)).
  { rewrite int_floor_float by lia. f_equal. exact Hval. }
  assert (Heq : float_eq_int (S754_finite false Q (j - 52)) (2 ^ j) = true).
  { unfold float_eq_int, cond_Zopp. destruct (Z.leb_spec 0 (j - 52)) as [Hle|Hlt].
    - apply Z.eqb_eq. rewrite HQ', <- Z.pow_add_r by lia. f_equal. lia.
    - assert (HQ2 : Zpos Q = 2 ^ j * 2 ^ (- (j - 52)))
        by (rewrite HQ', <- Z.pow_add_r by lia; f_equal; lia).
      rewrite HQ2, Z.mod_mul, Z.div_mul by (apply Z.pow_nonzero; lia).
      rewrite !Z.eqb_refl. reflexivity. }
  rewrite precSqrt_values. unfold precSqrt_val.
  rewrite Hx. cbn [mbind result_bind]. rewrite Ha0. cbn [mbind result_bind].
  rewrite Heq. reflexivity.
Qed.

Lemma precSqrt_nonsquare_as_square_witness :
  27 <= 30 <= 511 /\
  precSqrt 0 (4 ^ 30 + 1) 5 = Ok (str (2 ^ 30)) /\
  Z.sqrt (4 ^ 30 + 1) = 2 ^ 30 /\
  Z.sqrt (4 ^ 30 + 1) * Z.sqrt (4 ^ 30 + 1) <> 4 ^ 30 + 1.
Proof.
  split; [split; discriminate|].
  apply (precSqrt_nonsquare_as_square 30 5 0). split; discriminate.
Defined.

(** ** Sessions of [main] *)

Lemma list_pair_ind {A : Type} (P : list A -> Prop) :
  P [] -> (forall x : A, P [x]) ->
  (forall (x y : A) (l : list A), P l -> P (x :: y :: l)) ->
  forall l : list A, P l.
Proof.
  intros H0 H1 H2 l.
  assert (H : P l /\ forall x : A, P (x :: l)).
  { induction l as [|y l [IH1 IH2]]; [split; [exact H0|exact H1]|].
    split; [apply IH2|]. intros x. apply H2. exact IH1. }
  exact (proj1 H).
Qed.

(** X23.  A session of [main] in which every turn has a digit count below
    one or a radicand [0 <= n < 2 ^ 1023] runs to the end of its input: no
    exception ends it, and it prints one line for every pair of inputs,
    the error message for a digit count below one and the result of
    [precSqrt] otherwise. *)
Theorem main_answers_all (inputs : list Z) (fuel : nat) :
  answerable inputs -> (rounds_for inputs <= fuel)%nat ->
  exists out : list string,
    main fuel inputs = (out, EndOfInput) /\
    length out = (length inputs / 2)%nat /\
    forall (i : nat) (n dig : Z),
      inputs !! (2 * i)%nat = Some n -> inputs !! (2 * i + 1)%nat = Some dig ->
      exists line : string, out !! i = Some line /\ main_turn fuel n dig = Ok line.
Proof.
  induction inputs as [| x | n dig rest IH] using list_pair_ind; intros Ha Hf.
  - exists []. split; [reflexivity|]. split; [reflexivity|]. intros i n dig H. destruct i; discriminate.
  - exists []. split; [reflexivity|]. split; [reflexivity|].
    intros i n dig _ H. destruct i; discriminate.
  - cbn [answerable] in Ha. destruct Ha as [Hnd Ha]. cbn [rounds_for] in Hf.
    destruct (IH Ha ltac:(lia)) as (out & Hout & Hlen & Hall).
    assert (Hturn : exists line : string, main_turn fuel n dig = Ok line).
    { unfold main_turn. destruct (Z.ltb_spec dig 1) as [Hlt|Hge]; [eexists; reflexivity|].
      destruct Hnd as [|Hn]; [lia|]. apply returns_within; [assumption|lia]. }
    destruct Hturn as [line Hline].
    exists (line :: out). cbn [main]. rewrite Hline, Hout.
    split; [reflexivity|]. split.
    + cbn [length]. rewrite Hlen.
      change (S (S (length rest))) with (1 * 2 + length rest)%nat.
      rewrite Nat.div_add_l by lia. lia.
    + intros i n' dig' Hn' Hdig'. destruct i as [|i].
      * cbn in Hn', Hdig'. injection Hn' as <-. injection Hdig' as <-.
        exists line. split; [reflexivity|assumption].
      * replace (2 * S i)%nat with (S (S (2 * i))) in Hn' by lia.
        replace (2 * S i + 1)%nat with (S (S (2 * i + 1))) in Hdig' by lia.
        cbn in Hn', Hdig'. cbn [lookup]. exact (Hall i n' dig' Hn' Hdig').
Qed.

Lemma main_answers_all_witness :
  answerable [2; 5; -1; 0; 16; 3] /\ (rounds_for [2; 5; -1; 0; 16; 3]%Z <= 30)%nat /\
  exists out : list string,
    main 30 [2; 5; -1; 0; 16; 3] = (out, EndOfInput) /\
    length out = (length [2; 5; -1; 0; 16; 3]%Z / 2)%nat /\
    forall (i : nat) (n dig : Z),
      [2; 5; -1; 0; 16; 3] !! (2 * i)%nat = Some n ->
      [2; 5; -1; 0; 16; 3] !! (2 * i + 1)%nat = Some dig ->
      exists line : string, out !! i = Some line /\ main_turn 30 n dig = Ok line.
Proof.
  assert (Ha : answerable [2; 5; -1; 0; 16; 3]).
  { cbn [answerable]. split; [right; split; [discriminate|reflexivity]|].
    split; [left; reflexivity|]. split; [right; split; [discriminate|reflexivity]|exact I]. }
  assert (Hr : (rounds_for [2; 5; -1; 0; 16; 3]%Z <= 30)%nat) by (vm_compute; lia).
  split; [exact Ha|]. split; [exact Hr|].
  exact (main_answers_all [2; 5; -1; 0; 16; 3] 30 Ha Hr).
Defined.

(** X24.  [main] tests the digit count before it looks at the radicand:
    a turn with a negative [n] and a digit count below one prints the
    error message and the session goes on; with a digit count of one or
    more, the [ValueError] of [math.sqrt] ends the session there, and
    nothing of the later input is answered. *)
Theorem main_negative_radicand (fuel : nat) (n dig : Z) (rest : list Z) :
  - 2 ^ 1023 < n < 0 ->
  (dig < 1 ->
   main fuel (n :: dig :: rest) =
   ("Error: number of digits of precision must be at least 1."%string :: fst (main fuel rest),
    snd (main fuel rest))) /\
  (1 <= dig -> main fuel (n :: dig :: rest) = ([], Uncaught ValueError)).
Proof.
  intros Hn. split; intros Hdig; cbn [main]; unfold main_turn.
  - destruct (Z.ltb_spec dig 1); [|lia]. destruct (main fuel rest). reflexivity.
  - destruct (Z.ltb_spec dig 1); [lia|].
    rewrite precSqrt_values. unfold precSqrt_val.
    destruct (math_sqrt_negative n ltac:(lia)) as [_ Hv]. rewrite (Hv ltac:(lia)). reflexivity.
Qed.

Lemma main_negative_radicand_witness :
  - 2 ^ 1023 < -4 < 0 /\
  (0 < 1 ->
   main 20 [-4; 0; 2; 3] =
   ("Error: number of digits of precision must be at least 1."%string :: fst (main 20 [2; 3]),
    snd (main 20 [2; 3]))) /\
  (1 <= 0 -> main 20 [-4; 0; 2; 3] = ([], Uncaught ValueError)).
Proof.
  split; [split; reflexivity|].
  apply (main_negative_radicand 20 (-4) 0 [2; 3]). split; reflexivity.
Defined.

(** ** The parts of a round *)

Lemma conv_value (a : list Z) :
  a <> [] -> Forall (fun x => 1 <= x) a -> (value (conv a) == cf_value a)%Q.
Proof.
  induction a as [|x a IH]; intros Hne Hall; [contradiction|].
  apply Forall_cons in Hall. destruct Hall as [Hx Hall].
  destruct a as [|y a'].
  - unfold value, conv, conv_num, conv_den. cbn. unfold Qdiv.
    replace (x * 1 + 0) with x by lia. change (/ inject_Z 1)%Q with 1%Q. ring.
  - specialize (IH ltac:(discriminate) Hall).
    change (cf_value (x :: y :: a')) with (inject_Z x + / cf_value (y :: a'))%Q.
    rewrite <- IH.
    destruct (conv_cons x (y :: a')) as [Hn Hd].
    pose proof (continuant_pos (y :: a') ltac:(discriminate) Hall) as Hpos.
    unfold value, conv in *. cbn [num den]. rewrite Hn, Hd.
    unfold conv_num, conv_den in *.
    destruct (continuant (y :: a')) as [[[p q] p'] q']. destruct Hpos as (Hp & Hq & _).
    rewrite inject_Z_plus, inject_Z_mult.
    pose proof (inject_Z_nonzero p ltac:(lia)). pose proof (inject_Z_nonzero q ltac:(lia)).
    field. tauto.
Qed.

(** X26.  Lines 145 to 148, for a list [a] of terms that are all at least
    one: the object [c] they build holds the continued fraction
    [a[0] + 1 / (a[1] + 1 / (... + 1 / a[-1]))] with numerator and
    denominator in lowest terms, although [__add__] never reduces; and no
    object that existed before is changed. *)
Theorem convergent_is_continued_fraction (a : list Z) (σ : store) :
  a <> [] -> Forall (fun x => 1 <= x) a ->
  exists (c : ref) (σ' : store) (cv : Ratio),
    convergent a σ = Ok (c, σ') /\ σ' !! c = Some cv /\
    (value cv == cf_value a)%Q /\ Z.gcd (num cv) (den cv) = 1 /\ 0 < den cv /\
    keeps (length σ) σ σ'.
Proof.
  intros Hne Hall.
  pose proof (convergent_sim a σ) as Hsim.
  rewrite (convergent_val_conv a Hne Hall) in Hsim.
  destruct Hsim as (c & σ' & Hrun & Hc & _ & Hkeeps).
  exists c, σ', (conv a).
  split; [assumption|]. split; [assumption|]. split; [apply conv_value; assumption|].
  pose proof (continuant_pos a Hne Hall) as Hpos.
  pose proof (continuant_det a) as Hdet.
  unfold conv, conv_num, conv_den. cbn [num den].
  destruct (continuant a) as [[[p q] p'] q']. destruct Hpos as (_ & Hq & _).
  split; [|split; [lia|assumption]].
  apply Z.bezout_1_gcd. destruct Hdet as [Hdet|Hdet].
  - exists q', (- p'). lia.
  - exists (- q'), p'. lia.
Qed.

Lemma convergent_is_continued_fraction_witness :
  [1; 2; 2] <> [] /\ Forall (fun x => 1 <= x) [1; 2; 2] /\
  exists (c : ref) (σ' : store) (cv : Ratio),
    convergent [1; 2; 2] [] = Ok (c, σ') /\ σ' !! c = Some cv /\
    (value cv == cf_value [1; 2; 2]%Z)%Q /\ Z.gcd (num cv) (den cv) = 1 /\ 0 < den cv /\
    keeps (length ([] : store)) [] σ'.
Proof.
  assert (Hall : Forall (fun x => 1 <= x) [1; 2; 2]) by (repeat constructor; discriminate).
  split; [discriminate|]. split; [exact Hall|].
  exact (convergent_is_continued_fraction [1; 2; 2] [] ltac:(discriminate) Hall).
Defined.

(** X25.  The test of line 150, for a current and a previous convergent
    with nonzero denominators of any sign: [abs(c - pc) < Ratio(1, int('1'
    + '0' * (dig + 1)))] is true exactly when the two denoted rationals
    differ by less than [1 / 10 ^ max(0, dig + 1)].  The subtraction, the
    absolute value and the comparison raise nothing and change no
    object. *)
Theorem converged_decides_closeness (dig : Z) (pc c : ref) (pv cv : Ratio) (σ : store) :
  σ !! c = Some cv -> σ !! pc = Some pv -> den cv <> 0 -> den pv <> 0 ->
  exists (t : bool) (σ' : store),
    converged dig (Some pc) c σ = Ok (t, σ') /\ keeps (length σ) σ σ' /\
    (t = true <->
     (Qabs (value cv - value pv) < 1 / inject_Z (10 ^ Z.max 0 (dig + 1)))%Q).
Proof.
  intros Hc Hpc Hdc Hdp.
  pose proof (converged_sim dig (Some pc) (Some pv) c cv σ Hc Hpc) as Hsim.
  destruct (Ratio_sub_spec cv pv Hdc Hdp) as (r & Hr & Hv & Hs).
  assert (Hdr : den r <> 0) by (intros Hz; rewrite Hz in Hs; lia).
  set (T := 10 ^ Z.max 0 (dig + 1)).
  assert (HT : 0 < T) by (apply Z.pow_pos_nonneg; lia).
  unfold converged_val in Hsim. rewrite Hr in Hsim. cbn [mbind result_bind] in Hsim.
  fold (one_and_zeros (dig + 1)) in T.
  rewrite (Ratio_lt_spec (Ratio_abs r) (mkRatio 1 (one_and_zeros (dig + 1)))) in Hsim
    by (cbn [den Ratio_abs]; unfold one_and_zeros; fold T; lia).
  destruct Hsim as (σ' & Hrun & Hkeeps).
  eexists. exists σ'. split; [exact Hrun|]. split; [assumption|].
  rewrite <- Hv, <- value_abs.
  change (1 / inject_Z (10 ^ Z.max 0 (dig + 1)))%Q with (value (mkRatio 1 T)).
  rewrite (value_lt (Ratio_abs r) (mkRatio 1 T))
    by (cbn [den Ratio_abs]; lia).
  cbn [num den Ratio_abs]. unfold one_and_zeros. fold T.
  destruct (Z.ltb_spec 0 (Z.abs (den r))); [|lia].
  destruct (Z.ltb_spec 0 (Z.abs (den r) * T)); [|nia].
  apply Z.ltb_lt.
Qed.

Lemma converged_decides_closeness_witness :
  [mkRatio 3 2; mkRatio 7 5] !! 1%nat = Some (mkRatio 7 5) /\
  [mkRatio 3 2; mkRatio 7 5] !! 0%nat = Some (mkRatio 3 2) /\
  den (mkRatio 7 5) <> 0 /\ den (mkRatio 3 2) <> 0 /\
  exists (t : bool) (σ' : store),
    converged 0 (Some 0%nat) 1%nat [mkRatio 3 2; mkRatio 7 5] = Ok (t, σ') /\
    keeps (length [mkRatio 3 2; mkRatio 7 5]) [mkRatio 3 2; mkRatio 7 5] σ' /\
    (t = true <->
     (Qabs (value (mkRatio 7 5) - value (mkRatio 3 2)) < 1 / inject_Z (10 ^ Z.max 0 (0 + 1)))%Q).
Proof.
  split; [reflexivity|]. split; [reflexivity|]. split; [discriminate|]. split; [discriminate|].
  apply (converged_decides_closeness 0 0%nat 1%nat (mkRatio 3 2) (mkRatio 7 5));
    [reflexivity | reflexivity | discriminate | discriminate].
Defined.
